(** * code-rag-server: the vector store and the embedding front end

    A shallow embedding of [src/code_rag_server/vector_store.py]
    (class [InMemoryVectorStore]) and of the input validation of
    [src/code_rag_server/embeddings.py] (class [EmbeddingService]).

    - numpy's [float64] is Rocq's primitive binary64 [float]; [0/0] is NaN
      and overflow gives an infinity, exactly as in numpy, which only warns.
    - a Python exception is the [Raise] branch of [result].
    - the file system is a finite map from paths to file contents; what the
      pickle module would make of a file is the type [file]. Opening,
      writing and removing a file are taken to succeed, and only the store
      changes the file at its location.
    - the embeddings endpoint is a function from the request to what the
      code sees of the response.
    - what binary64 arithmetic does to a norm is derived from the IEEE 754
      specification of the Standard Library ([SpecFloat]), read through
      [Prim2SF]. *)

From Stdlib Require Import ZArith List Bool Lia Floats Reals Lra.
From Stdlib Require Import Permutation Sorted.
From stdpp Require Import gmap strings sorting.

Set Warnings "-inexact-float".

(** ** Python exceptions and results *)

Inductive exn : Type :=
| ValueError (msg : string)
| IndexError
| KeyError
| UnpicklingError
| EOFError
| TypeError
| JSONDecodeError
| HTTPError.

Inductive result (A : Type) : Type :=
| Ok (a : A)
| Raise (e : exn).

Arguments Ok {A} a.
Arguments Raise {A} e.

#[global] Instance result_ret : MRet result := fun A a => Ok a.

#[global] Instance result_bind : MBind result := fun A B k r =>
  match r with
  | Ok a => k a
  | Raise e => Raise e
  end.

Fixpoint mapM {A B : Type} (f : A -> result B) (l : list A) : result (list B) :=
  match l with
  | [] => Ok []
  | a :: l' => b ← f a; bs ← mapM f l'; Ok (b :: bs)
  end.

(** [l[i]] for a non-negative index: IndexError out of range. *)
Definition getitem {A : Type} (l : list A) (i : nat) : result A :=
  match l !! i with
  | Some a => Ok a
  | None => Raise IndexError
  end.

(** [l[start:]] with Python's treatment of a negative or too large start. *)
Definition py_slice_from {A : Type} (start : Z) (l : list A) : list A :=
  let n := Z.of_nat (length l) in
  let s := if (start <? 0)%Z then Z.max 0 (start + n) else Z.min start n in
  drop (Z.to_nat s) l.

(** ** numpy on one-dimensional arrays *)

(** The arithmetic the store uses, so that the same program text can be read
    at [float] (what runs) and at [R] (what it approximates). *)
Class Scalar (F : Type) : Type := {
  s_zero : F;
  s_add : F -> F -> F;
  s_mul : F -> F -> F;
  s_div : F -> F -> F;
  s_sqrt : F -> F
}.

#[global] Instance float_scalar : Scalar float := {
  s_zero := 0%float;
  s_add := PrimFloat.add;
  s_mul := PrimFloat.mul;
  s_div := PrimFloat.div;
  s_sqrt := PrimFloat.sqrt
}.

#[global] Instance R_scalar : Scalar R := {
  s_zero := 0%R;
  s_add := Rplus;
  s_mul := Rmult;
  s_div := Rdiv;
  s_sqrt := sqrt
}.

Section Numpy.
Context {F : Type} `{Scalar F}.

(** [a.dot(b)] for two arrays of one length: the products summed from the
    left (the order BLAS sums in is not fixed by numpy). *)
Definition dot (a b : list F) : F :=
  fold_left s_add (zip_with s_mul a b) s_zero.

(** [numpy.linalg.norm(x)] for a 1-D real array: [sqrt(x.dot(x))]. *)
Definition norm (x : list F) : F := s_sqrt (dot x x).

(** [x / norm(x)]: every component divided by the scalar. *)
Definition normalize (x : list F) : list F :=
  map (fun xi => s_div xi (norm x)) x.

End Numpy.

(** A 1-D float64 array. *)
Abbreviation vec := (list float).

(** [np.array(rows)] of a list of 1-D arrays: a matrix when all rows have
    one length, ValueError (inhomogeneous shape) otherwise. *)
Definition np_array (rows : list vec) : result (list vec) :=
  match rows with
  | [] => Ok []
  | r :: rs =>
      if forallb (fun r' => Nat.eqb (length r') (length r)) rs
      then Ok rows
      else Raise (ValueError "inhomogeneous shape")
  end.

(** [np.dot(m, q)] of an (n, d) matrix and a (d',) vector: the n row
    products, ValueError when d differs from d'. *)
Definition np_dot (m : list vec) (q : vec) : result vec :=
  if forallb (fun r => Nat.eqb (length r) (length q)) m
  then Ok (map (fun r => dot r q) m)
  else Raise (ValueError "shapes not aligned").

(** The order numpy sorts floats in: [<], with NaN after everything. *)
Definition np_lt (a b : float) : bool :=
  (a <? b)%float || (is_nan b && negb (is_nan a)).

Fixpoint insert_by (x : float * nat) (l : list (float * nat)) : list (float * nat) :=
  match l with
  | [] => [x]
  | y :: l' => if np_lt (fst y) (fst x) then y :: insert_by x l' else x :: y :: l'
  end.

Definition sort_keyed (l : list (float * nat)) : list (float * nat) :=
  foldr insert_by [] l.

(** [np.argsort(a)]: the indices of [a] in ascending order of value. numpy
    leaves the order of equal values open; this sort keeps them in index
    order. *)
Definition argsort (a : vec) : list nat :=
  map snd (sort_keyed (zip a (seq 0 (length a)))).

(** ** vector_store.py *)

Module InMemoryVectorStore.

Section Store.
Context {Meta : Type}.

(** What [load] finds in a file at [pickle_path]. The two fields of a store
    are typed as lists here, so the files that load are the pickles of two
    such lists; every other file is described by the exception that reading
    it ends in. (A pickle of two values that are no lists is read by the code
    without an error too; it has no place in a store of this type.) *)
Inductive file : Type :=
| Pickled (es : list vec) (ms : list Meta)
    (* a pickled pair of two lists, as [save] writes it; the lengths of the
       two lists are whatever was written *)
| PickledOther (e : exn)
    (* a pickle of something that does not unpack into two names: the
       assignment raises [e] (TypeError for a value that cannot be iterated,
       ValueError for a sequence of another length) *)
| Garbage (e : exn).
    (* bytes that are no pickle stream: [pickle.load] raises [e] (EOFError
       for an empty file, UnpicklingError and others for other bytes) *)

Record store : Type := mk_store {
  embeddings : list vec;
  metadata : list Meta;
  pickle_path : option string
}.

(** The state an operation runs in: the store object and the file system. *)
Record world : Type := mk_world {
  obj : store;
  fs : gmap string file
}.

(** [if pickle_path]: None and the empty string are false. *)
Definition truthy (p : option string) : option string :=
  match p with
  | Some s => if String.eqb s "" then None else Some s
  | None => None
  end.

(** [pickle.load(f)] followed by the unpacking into two names. *)
Definition unpickle (f : file) : result (list vec * list Meta) :=
  match f with
  | Pickled es ms => Ok (es, ms)
  | PickledOther e => Raise e
  | Garbage e => Raise e
  end.

Definition load (w : world) : result world :=
  match truthy (pickle_path (obj w)) with
  | Some p =>
      match fs w !! p with
      | Some f =>
          '(es, ms) ← unpickle f;
          Ok (mk_world (mk_store es ms (pickle_path (obj w))) (fs w))
      | None => Ok w
      end
  | None => Ok w
  end.

Definition save (w : world) : result world :=
  match truthy (pickle_path (obj w)) with
  | Some p =>
      Ok (mk_world (obj w)
            (<[p := Pickled (embeddings (obj w)) (metadata (obj w))]> (fs w)))
  | None => Ok w
  end.

(** [InMemoryVectorStore(pickle_path)] *)
Definition init (pickle_path : option string) (disk : gmap string file) : result world :=
  let w := mk_world (mk_store [] [] pickle_path) disk in
  match truthy pickle_path with
  | Some p => if decide (is_Some (disk !! p)) then load w else Ok w
  | None => Ok w
  end.

Definition add (embedding : vec) (meta : Meta) (w : world) : result world :=
  let normalized_embedding := normalize embedding in
  let st := mk_store (embeddings (obj w) ++ [normalized_embedding])
                     (metadata (obj w) ++ [meta])
                     (pickle_path (obj w)) in
  let w' := mk_world st (fs w) in
  match truthy (pickle_path st) with
  | Some _ => save w'
  | None => Ok w'
  end.

Definition search (st : store) (query_embedding : vec) (top_k : Z)
  : result (list (Meta * float)) :=
  match embeddings st with
  | [] => Ok []
  | _ :: _ =>
      let query_embedding := normalize query_embedding in
      embeddings_array ← np_array (embeddings st);
      similarities ← np_dot embeddings_array query_embedding;
      let top_indices := reverse (py_slice_from (- top_k) (argsort similarities)) in
      mapM (fun i => m ← getitem (metadata st) i;
                     s ← getitem similarities i;
                     Ok (m, s)) top_indices
  end.

Definition clear (w : world) : result world :=
  let st := mk_store [] [] (pickle_path (obj w)) in
  match truthy (pickle_path (obj w)) with
  | Some p =>
      if decide (is_Some (fs w !! p))
      then Ok (mk_world st (delete p (fs w)))
      else Ok (mk_world st (fs w))
  | None => Ok (mk_world st (fs w))
  end.

Definition size (st : store) : nat := length (embeddings st).

(** The calls a client can make on a store object, and a run of them. *)
Inductive call : Type :=
| CallAdd (embedding : vec) (meta : Meta)
| CallSave
| CallLoad
| CallClear.

Definition run_call (c : call) (w : world) : result world :=
  match c with
  | CallAdd e m => add e m w
  | CallSave => save w
  | CallLoad => load w
  | CallClear => clear w
  end.

Fixpoint run (cs : list call) (w : world) : result world :=
  match cs with
  | [] => Ok w
  | c :: cs' => w' ← run_call c w; run cs' w'
  end.

End Store.

Arguments file : clear implicits.
Arguments store : clear implicits.
Arguments world : clear implicits.
Arguments call : clear implicits.

End InMemoryVectorStore.

(** ** embeddings.py *)

Module EmbeddingService.

(** A Python [str]: its code points. *)
Abbreviation pystr := (list N).

Definition str (s : string) : pystr :=
  map (fun a => Ascii.N_of_ascii a) (String.list_ascii_of_string s).

(** The characters [str.strip()] removes: Python's Unicode whitespace. *)
Definition is_space (c : N) : bool :=
  ((9 <=? c) && (c <=? 13) || (28 <=? c) && (c <=? 32)
   || (c =? 133) || (c =? 160) || (c =? 5760)
   || (8192 <=? c) && (c <=? 8202)
   || (c =? 8232) || (c =? 8233) || (c =? 8239) || (c =? 8287)
   || (c =? 12288))%N.

Fixpoint lstrip (s : pystr) : pystr :=
  match s with
  | [] => []
  | c :: s' => if is_space c then lstrip s' else s
  end.

Definition strip (s : pystr) : pystr := reverse (lstrip (reverse (lstrip s))).

(** [not t.strip()] *)
Definition blank (t : pystr) : bool :=
  match strip t with
  | [] => true
  | _ :: _ => false
  end.

(** The argument of [get_embedding]: one text or a list of texts. *)
Inductive text_arg : Type :=
| Str (s : pystr)
| Lst (l : list pystr).

(** What the call returns: one vector for a text, a list for a list. *)
Inductive embedding_value : Type :=
| One (e : vec)
| Many (es : list vec).

(** What the HTTP endpoint does with a request, as far as the code looks. *)
Inductive response : Type :=
| HttpFailure                 (* post or raise_for_status raises HTTPError *)
| NotJson                     (* response.json() raises *)
| MissingField                (* no "data", or an item without "embedding" *)
| Data (es : list vec).       (* the vectors of data["data"], in order *)

Definition EmptyInput : exn := ValueError "Empty input".

Section Service.
Variable post : list pystr -> response.

Definition get_embedding (text : text_arg) : result embedding_value :=
  texts ← match text with
           | Str s => if blank s then Raise EmptyInput else Ok [s]
           | Lst l =>
               if Nat.eqb (length l) 0 || existsb blank l
               then Raise EmptyInput
               else Ok l
           end;
  match post texts with
  | HttpFailure => Raise HTTPError
  | NotJson => Raise JSONDecodeError
  | MissingField => Raise KeyError
  | Data es =>
      match text with
      | Str _ => e ← getitem es 0; Ok (One e)
      | Lst _ => Ok (Many es)
      end
  end.

(** [texts[i : i + batch_size]] for [i] in [range(0, len(texts), batch_size)]
    with a positive step; [fuel] bounds the number of batches. *)
Fixpoint batches (fuel : nat) (batch_size : nat) (texts : list pystr) : list (list pystr) :=
  match fuel with
  | O => []
  | S fuel' =>
      match texts with
      | [] => []
      | _ :: _ => take batch_size texts :: batches fuel' batch_size (drop batch_size texts)
      end
  end.

Fixpoint embed_batches (bs : list (list pystr)) (all_embeddings : list vec) : result (list vec) :=
  match bs with
  | [] => Ok all_embeddings
  | batch :: bs' =>
      batch_embeddings ← get_embedding (Lst batch);
      embed_batches bs'
        (all_embeddings ++ match batch_embeddings with
                           | Many es => es
                           | One e => [e]
                           end)
  end.

Definition get_batch_embeddings (texts : list pystr) (batch_size : Z) : result (list vec) :=
  match texts with
  | [] => Raise EmptyInput
  | _ :: _ =>
      if (batch_size =? 0)%Z then Raise (ValueError "range() arg 3 must not be zero")
      else if (batch_size <? 0)%Z then Ok []
      else embed_batches (batches (length texts) (Z.to_nat batch_size) texts) []
  end.

End Service.

End EmbeddingService.

(** ** server.py *)

Module Server.

(** A metadata record: a Python dict with [str] keys and values. A [str] is
    read here as a [string] of code points below 256. *)
Abbreviation meta := (gmap string string).

(** [d[k]]: KeyError when the key is missing. *)
Definition getkey (d : meta) (k : string) : result string :=
  match d !! k with
  | Some v => Ok v
  | None => Raise KeyError
  end.

Definition nl : string := String (Ascii.ascii_of_nat 10) EmptyString.

(** [str.lower()] on code points below 256. *)
Definition lower_char (a : Ascii.ascii) : Ascii.ascii :=
  let n := Ascii.nat_of_ascii a in
  if (65 <=? n) && (n <=? 90) || (192 <=? n) && (n <=? 222) && negb (n =? 215)
  then Ascii.ascii_of_nat (n + 32)
  else a.

Fixpoint lower (s : string) : string :=
  match s with
  | EmptyString => EmptyString
  | String a s' => String (lower_char a) (lower s')
  end.

Definition ignore_patterns : list string :=
  [".git"; "__pycache__"; "node_modules"; "venv"; ".env"; ".pyc"; ".pyo";
   ".pyd"; ".so"; ".dll"; ".dylib"; ".jpg"; ".jpeg"; ".png"; ".gif"; ".pdf";
   ".zip"].

(** [_should_ignore(path)], on the components [path.parts]. *)
Definition _should_ignore (parts : list string) : bool :=
  existsb (fun part => existsb (String.eqb part) ignore_patterns) parts.

Definition ext_to_lang : gmap string string :=
  list_to_map
    [(".py", "python"); (".js", "javascript"); (".ts", "typescript");
     (".java", "java"); (".cpp", "cpp"); (".c", "c"); (".go", "go");
     (".rs", "rust"); (".rb", "ruby"); (".php", "php"); (".cs", "csharp");
     (".html", "html"); (".css", "css"); (".sql", "sql")].

(** [_guess_language(path)], on [path.suffix]. *)
Definition _guess_language (suffix : string) : string :=
  default "" (ext_to_lang !! lower suffix).

(** What [update_index] asks of one path that [repo_path.rglob("*")]
    yields. *)
Record dir_entry : Type := mk_entry {
  parts : list string;        (* file_path.parts *)
  is_file : bool;             (* file_path.is_file() *)
  read_text : option string;  (* file_path.read_text(), None when it raises *)
  relative : string;          (* str(file_path.relative_to(repo_path)) *)
  suffix : string             (* file_path.suffix *)
}.

(** What [update_index] reports, without the wording. *)
Inductive report : Type :=
| PathMissing                    (* "Repository path does not exist: ..." *)
| Indexed (indexed_files : nat)  (* "Successfully indexed n files from ..." *)
| NothingToIndex.                (* "No files to index in ..." *)

(** The scanning loop of [update_index]: the content and the metadata of
    every file that is kept, in the order of the listing. *)
Fixpoint scan (relative_path : string) (listing : list dir_entry)
  : list (string * meta) :=
  match listing with
  | [] => []
  | file_path :: rest =>
      if is_file file_path && negb (_should_ignore (parts file_path))
      then match read_text file_path with
           | Some content =>
               (content,
                list_to_map
                  [("file", relative file_path);
                   ("repo", relative_path);
                   ("code", content);
                   ("language", _guess_language (suffix file_path))])
               :: scan relative_path rest
           | None => scan relative_path rest
           end
      else scan relative_path rest
  end.

(** The storing loop of [update_index]. *)
Fixpoint add_all (pairs : list (vec * meta)) (w : InMemoryVectorStore.world meta)
  : result (InMemoryVectorStore.world meta) :=
  match pairs with
  | [] => Ok w
  | (embedding, metadata) :: rest =>
      w' ← InMemoryVectorStore.add embedding metadata w;
      add_all rest w'
  end.

(** The text [get_file] answers with for a metadata record. *)
Definition file_text (metadata : meta) : result string :=
  file ← getkey metadata "file";
  repo ← getkey metadata "repo";
  let language := default "" (metadata !! "language") in
  code ← getkey metadata "code";
  Ok ("File: " +:+ file +:+ nl +:+ "Repository: " +:+ repo +:+ nl
      +:+ "Code:" +:+ nl +:+ "```" +:+ language +:+ nl +:+ code +:+ nl
      +:+ "```").

(** The loop of the [get_file] tool over [store.metadata]. *)
Fixpoint find_file (file_path repository : string) (entries : list meta)
  : result string :=
  match entries with
  | [] => Ok ("File " +:+ file_path +:+ " not found in repository "
              +:+ repository +:+ ".")
  | metadata :: rest =>
      file ← getkey metadata "file";
      if String.eqb file file_path
      then file_text metadata
      else find_file file_path repository rest
  end.

Section Tools.
(** The embeddings endpoint, and [str(indices_dir / f"{name}.pkl")]. *)
Variable post : list EmbeddingService.pystr -> EmbeddingService.response.
Variable index_path : string -> string.

(** [update_index(repo_path)]. [repo_exists] is [repo_path.exists()],
    [relative_path] is [repo_path.relative_to(Path("github_repos"))], None
    when that raises, and [listing] is [repo_path.rglob("*")]. The result
    is the report and the regular files left behind: [disk] maps the paths
    of regular files to their contents and holds no directories. The call
    [pickle_file.parent.mkdir(parents=True, exist_ok=True)] before the store
    is opened makes directories only; it is taken to succeed and is no step
    of this function, so nothing here speaks of the directories it makes. *)
Definition update_index (repo_exists : bool) (relative_path : option string)
    (listing : list dir_entry) (disk : gmap string (InMemoryVectorStore.file meta))
  : result (report * gmap string (InMemoryVectorStore.file meta)) :=
  if negb repo_exists then Ok (PathMissing, disk)
  else
    match relative_path with
    | None => Raise (ValueError "is not in the subpath of github_repos")
    | Some relative_path =>
        let pickle_file := index_path relative_path in
        store ← InMemoryVectorStore.init (Some pickle_file) disk;
        let scanned := scan relative_path listing in
        let file_contents := map fst scanned in
        let file_metadata := map snd scanned in
        let indexed_files := length scanned in
        match file_contents with
        | _ :: _ =>
            embeddings ← EmbeddingService.get_batch_embeddings post
                           (map EmbeddingService.str file_contents) 32;
            store' ← add_all (zip embeddings file_metadata) store;
            Ok (Indexed indexed_files, InMemoryVectorStore.fs store')
        | [] => Ok (NothingToIndex, InMemoryVectorStore.fs store)
        end
    end.

(** The [get_file] branch of [handle_call_tool], from its two arguments. *)
Definition get_file (file_path repository : string)
    (disk : gmap string (InMemoryVectorStore.file meta)) : result string :=
  let pickle_file := index_path repository in
  if decide (is_Some (disk !! pickle_file))
  then
    store ← InMemoryVectorStore.init (Some pickle_file) disk;
    find_file file_path repository
      (InMemoryVectorStore.metadata (InMemoryVectorStore.obj store))
  else Ok ("Repository " +:+ repository
           +:+ " is not indexed. Please update the index first.").

End Tools.

End Server.

(** * The vocabulary of the properties *)

Module VS := InMemoryVectorStore.
Module ES := EmbeddingService.

(** ** Order on scores *)

Definition fle (a b : float) : Prop := (a <=? b)%float = true.

Definition key_le (a b : float * nat) : Prop := fle (fst a) (fst b).

Definition no_nan (a : vec) : Prop := Forall (fun x => is_nan x = false) a.

(** The order numpy sorts floats by: [a] comes no later than [b] when [b] is
    NaN, or when both are numbers and [a <= b]. *)
Definition np_le (a b : float) : Prop :=
  is_nan b = true \/ (is_nan a = false /\ fle a b).

Definition key_np_le (a b : float * nat) : Prop := np_le (fst a) (fst b).

(** ** Stores and queries *)

(** Line 44 of vector_store.py: one score per stored vector. *)
Definition similarities {Meta : Type} (st : VS.store Meta) (q : vec) : vec :=
  map (fun r => dot r (normalize q)) (VS.embeddings st).

(** The scores with their positions, in ascending order of score. *)
Definition ranked {Meta : Type} (st : VS.store Meta) (q : vec) : list (float * nat) :=
  sort_keyed (zip (similarities st q) (seq 0 (length (similarities st q)))).

(** The store and the query fit: the two sequences are parallel and every
    stored vector has the dimension of the query. *)
Definition shaped {Meta : Type} (st : VS.store Meta) (q : vec) : Prop :=
  length (VS.metadata st) = length (VS.embeddings st) /\
  Forall (fun r => length r = length q) (VS.embeddings st).

(** Result pair [r] is entry [i] of the store, scored against [q]. *)
Definition hit {Meta : Type} (st : VS.store Meta) (q : vec) (i : nat)
    (r : Meta * float) : Prop :=
  VS.metadata st !! i = Some (fst r) /\
  exists e, VS.embeddings st !! i = Some e /\ snd r = dot e (normalize q).

(** The store of the ranking example, as three calls of [add] leave it. *)
Definition ranking_calls : list (VS.call string) :=
  [VS.CallAdd [1; 0; 0]%float "A";
   VS.CallAdd [0; 1; 0]%float "B";
   VS.CallAdd [0.9; 0.1; 0]%float "C"].

Definition ranking_store : VS.store string :=
  VS.mk_store
    [normalize [1; 0; 0]; normalize [0; 1; 0]; normalize [0.9; 0.1; 0]]%float
    ["A"; "B"; "C"] None.

(** The store that [add([0,0,0], Z)] and [add([1,0,0], A)] leave. *)
Definition nan_calls : list (VS.call string) :=
  [VS.CallAdd [0; 0; 0]%float "Z"; VS.CallAdd [1; 0; 0]%float "A"].

Definition nan_store : VS.store string :=
  VS.mk_store [normalize [0; 0; 0]; normalize [1; 0; 0]]%float ["Z"; "A"] None.

(** ** Vectors *)

(** A vector all of whose components are zero, of either sign. *)
Definition zero_vector (v : vec) : Prop :=
  Forall (fun x => x = 0%float \/ x = (-0)%float) v.

(** [np.isclose(a, b)] with numpy's default tolerances, the check of
    tests/test_vector_store.py on the norm of a stored vector. *)
Definition isclose (a b : float) : bool :=
  (abs (a - b) <=? 1e-8 + 1e-5 * abs b)%float.

(** The sum that [dot v v] computes on real numbers, from [a] on. *)
Definition sum_squares (v : list R) (a : R) : R :=
  fold_left Rplus (zip_with Rmult v v) a.

(** ** Binary64 numbers as real numbers *)

(** [2^e] as a real number. *)
Definition bpow (e : Z) : R := powerRZ 2 e.

(** The real number a binary64 value stands for; an infinity and NaN stand
    for no number and are sent to 0. *)
Definition SF2R (x : spec_float) : R :=
  match x with
  | S754_finite s m e => IZR (cond_Zopp s (Z.pos m)) * bpow e
  | _ => 0
  end.

Definition B2R (x : float) : R := SF2R (Prim2SF x).

(** Its absolute value. *)
Definition SFmag (x : spec_float) : R :=
  match x with
  | S754_finite _ m e => IZR (Z.pos m) * bpow e
  | _ => 0
  end.

Definition mag (x : float) : R := SFmag (Prim2SF x).

(** A zero or a finite number, and the sign bit. *)
Definition SFfinite (x : spec_float) : Prop :=
  match x with
  | S754_zero _ | S754_finite _ _ _ => True
  | _ => False
  end.

Definition SFsign (x : spec_float) : bool :=
  match x with
  | S754_zero s | S754_infinity s | S754_finite s _ _ => s
  | S754_nan => false
  end.

Definition finite64 (x : float) : Prop := SFfinite (Prim2SF x).
Definition plus_sign (x : float) : Prop := SFsign (Prim2SF x) = false.

(** The vectors whose norm is computed without overflow and without losing
    the whole vector to underflow: at most [2^20] components, every one of
    magnitude at most [2^500], one of them of magnitude at least
    [2^-500]. *)
Definition in_range (x : float) : bool := (abs x <=? 0x1p500)%float.
Definition not_tiny (x : float) : bool := (0x1p-500 <=? abs x)%float.

Definition well_scaled (v : vec) : bool :=
  (Z.of_nat (length v) <=? 2 ^ 20)%Z && forallb in_range v
  && existsb not_tiny v.

(** The right-hand side of [isclose a 1]. *)
Definition isclose_tol : float := (1e-8 + 1e-5 * abs 1)%float.

(** The sum of the squares of the components, as a real number. *)
Fixpoint sumsq (v : list float) : R :=
  match v with
  | [] => 0
  | x :: v' => mag x * mag x + sumsq v'
  end.

(** The error of one rounded operation: at most [rel_err] of the exact
    result plus [4 * abs_err]. [grow] and [shrink] are what one product
    and one sum can do to a running sum of squares; the other constants
    bound what this adds up to over [2^20] terms. *)
Definition abs_err : R := bpow (-1074).
Definition rel_err : R := bpow (-50).
Definition grow : R := (1 + rel_err) * (1 + rel_err).
Definition shrink : R := (1 - rel_err) * (1 - rel_err).
Definition sum_err : R := bpow (-27).
Definition tiny_err : R := bpow (-1050).
Definition norm_err : R := bpow (-25).

Definition bounded64 (x : float) : Prop :=
  finite64 x /\ (mag x <= bpow 500)%R.

(** ** Runs *)

Definition add_calls {Meta : Type} (vms : list (vec * Meta)) : list (VS.call Meta) :=
  map (fun vm => VS.CallAdd (fst vm) (snd vm)) vms.

(** What the calls of a run have inserted and not cleared since: for every
    [add] the vector it stores and its metadata, in call order. *)
Fixpoint inserted {Meta : Type} (acc : list (vec * Meta)) (cs : list (VS.call Meta))
  : list (vec * Meta) :=
  match cs with
  | [] => acc
  | VS.CallAdd e m :: cs' => inserted (acc ++ [(normalize e, m)]) cs'
  | VS.CallClear :: cs' => inserted [] cs'
  | _ :: cs' => inserted acc cs'
  end.

(** At the store's location there is no file, or the file holds the
    store's own two sequences. *)
Definition disk_agrees {Meta : Type} (w : VS.world Meta) : Prop :=
  forall f, VS.truthy (VS.pickle_path (VS.obj w)) = Some f ->
    VS.fs w !! f = None \/
    VS.fs w !! f
    = Some (VS.Pickled (VS.embeddings (VS.obj w)) (VS.metadata (VS.obj w))).

(** The store holds exactly the pairs [acc], position by position. *)
Definition holds {Meta : Type} (acc : list (vec * Meta)) (w : VS.world Meta) : Prop :=
  VS.embeddings (VS.obj w) = map fst acc /\
  VS.metadata (VS.obj w) = map snd acc /\
  disk_agrees w.

(** ** Texts *)

(** The inputs for which C9 says [get_embedding] raises. *)
Definition listed_empty_input (text : ES.text_arg) : Prop :=
  text = ES.Str [] \/
  text = ES.Lst [] \/
  exists l t, text = ES.Lst l /\ t ∈ l /\ ES.blank t = true.

(** A provider that answers every request with one vector per text. *)
Definition echo_provider (texts : list ES.pystr) : ES.response :=
  ES.Data (map (fun _ => [1%float]) texts).

(** ** More of search *)

(** The number of pairs [search] keeps out of [n] for a given [top_k]. *)
Definition kept (top_k : Z) (n : nat) : nat :=
  if (top_k =? 0)%Z then n
  else if (0 <? top_k)%Z then Nat.min (Z.to_nat top_k) n
  else n - Z.to_nat (- top_k).

(** In the list every NaN key comes after every key that is a number. *)
Fixpoint nans_last (l : list (float * nat)) : Prop :=
  match l with
  | [] => True
  | x :: l' =>
      (is_nan (fst x) = true -> Forall (fun y => is_nan (fst y) = true) l') /\
      nans_last l'
  end.

(** ** The tools *)

Module SV := Server.

(** [p] is the end of [q], and [q] is longer. *)
Fixpoint proper_suffix (p q : string) : bool :=
  match q with
  | EmptyString => false
  | String _ q' => String.eqb p q' || proper_suffix p q'
  end.

(** A listing with one Python file, one file under [.git] and a directory,
    and the location of a repository's index. *)
Definition sample_index_path (name : string) : string :=
  "indices/" +:+ name +:+ ".pkl".

Definition sample_listing : list SV.dir_entry :=
  [SV.mk_entry ["github_repos"; "o"; "r"; "a.py"] true (Some "def f(): pass")
     "a.py" ".py";
   SV.mk_entry ["github_repos"; "o"; "r"; ".git"; "config"] true (Some "x")
     ".git/config" "";
   SV.mk_entry ["github_repos"; "o"; "r"; "src"] false None "src" ""].

Definition blank_listing : list SV.dir_entry :=
  sample_listing
  ++ [SV.mk_entry ["github_repos"; "o"; "r"; "__init__.py"] true (Some "")
        "__init__.py" ".py"].

Definition fresh_index : VS.world SV.meta :=
  VS.mk_world (VS.mk_store [] [] (Some (sample_index_path "o/r"))) ∅.

Definition old_record : SV.meta :=
  list_to_map [("file", "a.py"); ("repo", "o/r"); ("code", "old")].

Definition new_record : SV.meta :=
  list_to_map [("file", "a.py"); ("repo", "o/r"); ("code", "new");
               ("language", "python")].

Definition two_records : list SV.meta := [old_record; new_record].

(** * Properties *)

(** ** Binary64 comparison *)

Section FloatOrder.

Lemma SFcompare_flip (a b : spec_float) :
  SFcompare b a = option_map CompOpp (SFcompare a b).
Proof.
  destruct a as [sa| sa | |sa ma ea], b as [sb|sb| |sb mb eb]; simpl;
    try destruct sa; try destruct sb; try reflexivity.
  - rewrite (Z.compare_antisym ea eb).
    destruct (ea ?= eb)%Z; simpl; try reflexivity.
    change (Pos.compare_cont Eq mb ma) with (Pos.compare mb ma).
    change (Pos.compare_cont Eq ma mb) with (Pos.compare ma mb).
    rewrite (Pos.compare_antisym ma mb). reflexivity.
  - rewrite (Z.compare_antisym ea eb).
    destruct (ea ?= eb)%Z; simpl; try reflexivity.
    change (Pos.compare_cont Eq mb ma) with (Pos.compare mb ma).
    change (Pos.compare_cont Eq ma mb) with (Pos.compare ma mb).
    rewrite (Pos.compare_antisym ma mb). reflexivity.
Qed.

Lemma SFcompare_self (a : spec_float) :
  a <> S754_nan -> SFcompare a a = Some Eq.
Proof.
  destruct a as [sa|sa| |sa ma ea]; simpl; intros Hn; try congruence;
    destruct sa; try reflexivity;
    rewrite Z.compare_refl;
    change (Pos.compare_cont Eq ma ma) with (Pos.compare ma ma);
    rewrite Pos.compare_refl; reflexivity.
Qed.

Lemma SFcompare_some (a b : spec_float) :
  a <> S754_nan -> b <> S754_nan -> exists c, SFcompare a b = Some c.
Proof.
  destruct a as [sa|sa| |sa ma ea], b as [sb|sb| |sb mb eb]; simpl;
    intros Ha Hb; try congruence; eauto.
Qed.

Lemma SFleb_trans (a b c : spec_float) :
  SFleb a b = true -> SFleb b c = true -> SFleb a c = true.
Proof.
  unfold SFleb.
  destruct a as [sa|sa| |sa ma ea], b as [sb|sb| |sb mb eb],
           c as [sc|sc| |sc mc ec]; simpl;
    try destruct sa; try destruct sb; try destruct sc; simpl;
    try congruence; try reflexivity.
  all: change (Pos.compare_cont Eq ma mb) with (Pos.compare ma mb);
       change (Pos.compare_cont Eq mb mc) with (Pos.compare mb mc);
       change (Pos.compare_cont Eq ma mc) with (Pos.compare ma mc).
  all: destruct (Z.compare_spec ea eb), (Z.compare_spec eb ec),
         (Z.compare_spec ea ec); simpl; try congruence; try lia.
  all: destruct (Pos.compare_spec ma mb), (Pos.compare_spec mb mc),
         (Pos.compare_spec ma mc); simpl; try congruence; try lia.
Qed.

Lemma is_nan_false (x : float) :
  is_nan x = false <-> Prim2SF x <> S754_nan.
Proof.
  unfold is_nan. rewrite FloatAxioms.eqb_spec. unfold SFeqb. split.
  - intros E N. rewrite N in E. discriminate E.
  - intros N. rewrite SFcompare_self by exact N. reflexivity.
Qed.

Lemma leb_trans (x y z : float) :
  (x <=? y)%float = true -> (y <=? z)%float = true -> (x <=? z)%float = true.
Proof. rewrite !FloatAxioms.leb_spec. apply SFleb_trans. Qed.

Lemma leb_of_not_ltb (x y : float) :
  is_nan x = false -> is_nan y = false ->
  (x <? y)%float = false -> (y <=? x)%float = true.
Proof.
  rewrite !is_nan_false, FloatAxioms.ltb_spec, FloatAxioms.leb_spec. unfold SFltb, SFleb.
  intros Hx Hy. rewrite (SFcompare_flip (Prim2SF x) (Prim2SF y)).
  destruct (SFcompare_some _ _ Hx Hy) as [c ->].
  destruct c; simpl; congruence.
Qed.

Lemma leb_of_ltb (x y : float) :
  (x <? y)%float = true -> (x <=? y)%float = true.
Proof.
  rewrite FloatAxioms.ltb_spec, FloatAxioms.leb_spec. unfold SFltb, SFleb.
  destruct (SFcompare _ _) as [[]|]; congruence.
Qed.

End FloatOrder.

(** ** The sort behind argsort *)

Lemma insert_by_perm (x : float * nat) (l : list (float * nat)) :
  insert_by x l ≡ₚ x :: l.
Proof.
  induction l as [|y l IH]; simpl; [reflexivity|].
  destruct (np_lt (fst y) (fst x)); [|reflexivity].
  rewrite IH. apply perm_swap.
Qed.

Lemma sort_keyed_perm (l : list (float * nat)) : sort_keyed l ≡ₚ l.
Proof.
  induction l as [|x l IH]; simpl; [reflexivity|].
  rewrite insert_by_perm. now rewrite IH.
Qed.

Lemma np_lt_true_le (a b : float) :
  is_nan b = false -> np_lt a b = true -> fle a b.
Proof.
  unfold np_lt, fle. intros Hb. rewrite Hb, andb_false_l, orb_false_r.
  apply leb_of_ltb.
Qed.

Lemma np_lt_false_le (a b : float) :
  is_nan a = false -> is_nan b = false -> np_lt a b = false -> fle b a.
Proof.
  unfold np_lt, fle. intros Ha Hb. rewrite Hb, andb_false_l, orb_false_r.
  now apply leb_of_not_ltb.
Qed.

Lemma insert_by_sorted (x : float * nat) (l : list (float * nat)) :
  is_nan (fst x) = false ->
  Forall (fun y => is_nan (fst y) = false) l ->
  StronglySorted key_le l ->
  StronglySorted key_le (insert_by x l).
Proof.
  intros Hx. induction l as [|y l IH]; intros Hl Hs; simpl.
  - constructor; constructor.
  - inversion Hl as [|? ? Hy Hl']; subst.
    inversion Hs as [|? ? Hs' Hall]; subst.
    destruct (np_lt (fst y) (fst x)) eqn:E.
    + constructor; [now apply IH|].
      rewrite insert_by_perm. constructor; [|exact Hall].
      now apply np_lt_true_le.
    + assert (Hxy : key_le x y) by now apply np_lt_false_le.
      constructor; [exact Hs|].
      constructor; [exact Hxy|].
      eapply Forall_impl; [exact Hall|].
      intros z Hz. unfold key_le, fle in *. eapply leb_trans; eassumption.
Qed.

Lemma sort_keyed_sorted (l : list (float * nat)) :
  Forall (fun y => is_nan (fst y) = false) l ->
  StronglySorted key_le (sort_keyed l).
Proof.
  induction l as [|x l IH]; intros Hl; simpl.
  - constructor.
  - inversion Hl; subst. apply insert_by_sorted; auto.
    now rewrite sort_keyed_perm.
Qed.

Lemma argsort_perm (a : vec) : argsort a ≡ₚ seq 0 (length a).
Proof.
  unfold argsort. rewrite sort_keyed_perm.
  rewrite snd_zip; [reflexivity|]. rewrite length_seq. lia.
Qed.

Lemma zip_seq_keys (a : vec) :
  Forall (fun p => a !! snd p = Some (fst p)) (zip a (seq 0 (length a))).
Proof.
  apply Forall_lookup_2. intros i [x j] Hi. simpl.
  apply lookup_zip_with_Some in Hi as (x' & j' & Heq & Hx & Hj).
  inversion Heq; subst.
  apply lookup_seq in Hj as [-> _]. exact Hx.
Qed.

Lemma sort_keyed_keys (a : vec) :
  Forall (fun p => a !! snd p = Some (fst p))
         (sort_keyed (zip a (seq 0 (length a)))).
Proof. rewrite sort_keyed_perm. apply zip_seq_keys. Qed.

Lemma sort_keyed_no_nan (a : vec) :
  no_nan a ->
  Forall (fun y => is_nan (fst y) = false) (zip a (seq 0 (length a))).
Proof.
  intros Ha. apply Forall_forall. intros [x j] Hin. simpl.
  apply elem_of_zip_l in Hin. simpl in Hin.
  unfold no_nan in Ha. rewrite Forall_forall in Ha. now apply Ha.
Qed.

Lemma argsort_lt (a : vec) (i : nat) : i ∈ argsort a -> i < length a.
Proof.
  rewrite argsort_perm. intros Hi. apply elem_of_seq in Hi. lia.
Qed.

Lemma argsort_NoDup (a : vec) : NoDup (argsort a).
Proof. rewrite argsort_perm. apply NoDup_seq. Qed.

(** ** What search computes *)

Section SearchFacts.
Context {Meta : Type}.
Implicit Types (st : VS.store Meta) (q : vec) (k : Z).

Lemma length_normalize (x : vec) : length (normalize x) = length x.
Proof. unfold normalize. apply length_map. Qed.

Lemma length_similarities st q : length (similarities st q) = VS.size st.
Proof. unfold similarities, VS.size. apply length_map. Qed.

Lemma py_slice_from_fmap {A B : Type} (f : A -> B) (s : Z) (l : list A) :
  py_slice_from s (f <$> l) = f <$> py_slice_from s l.
Proof. unfold py_slice_from. now rewrite length_fmap, fmap_drop. Qed.

Lemma py_slice_from_drop {A : Type} (s : Z) (l : list A) :
  exists m, py_slice_from s l = drop m l /\
    m = Z.to_nat (if (s <? 0)%Z then Z.max 0 (s + Z.of_nat (length l))
                  else Z.min s (Z.of_nat (length l))).
Proof. eexists. split; reflexivity. Qed.

Lemma mapM_Forall2 {A B : Type} (f : A -> result B) (P : A -> B -> Prop)
    (l : list A) :
  (forall a, a ∈ l -> exists b, f a = Ok b /\ P a b) ->
  exists bs, mapM f l = Ok bs /\ Forall2 P l bs.
Proof.
  induction l as [|a l IH]; intros Hf; simpl.
  - exists []. split; [reflexivity|constructor].
  - destruct (Hf a) as (b & Eb & Pb); [left|].
    destruct IH as (bs & Ebs & Pbs).
    { intros a' Ha'. apply Hf. now right. }
    exists (b :: bs). rewrite Eb. simpl. rewrite Ebs. simpl.
    split; [reflexivity|now constructor].
Qed.

Lemma np_array_shaped st q :
  shaped st q -> np_array (VS.embeddings st) = Ok (VS.embeddings st).
Proof.
  intros [_ Hd]. destruct (VS.embeddings st) as [|r rs]; [reflexivity|].
  simpl. inversion Hd as [|? ? Hr Hrs]; subst.
  replace (forallb _ rs) with true; [reflexivity|].
  symmetry. apply forallb_forall. intros r' Hin.
  apply Nat.eqb_eq. rewrite Forall_forall in Hrs.
  rewrite Hr. apply Hrs. now apply list_elem_of_In.
Qed.

Lemma np_dot_shaped st q :
  shaped st q ->
  np_dot (VS.embeddings st) (normalize q) = Ok (similarities st q).
Proof.
  intros [_ Hd]. unfold np_dot.
  replace (forallb _ _) with true; [reflexivity|].
  symmetry. apply forallb_forall. intros r Hin.
  apply Nat.eqb_eq. rewrite length_normalize.
  rewrite Forall_forall in Hd. apply Hd. now apply list_elem_of_In.
Qed.

(** On a fitting store search succeeds, and its result lists, for the
    indices the slice keeps, the metadata and the score of each. *)
Lemma search_shaped st q k :
  shaped st q ->
  exists res,
    VS.search st q k = Ok res /\
    Forall2 (hit st q)
      (reverse (py_slice_from (- k) (argsort (similarities st q)))) res.
Proof.
  intros Hs. unfold VS.search.
  destruct (VS.embeddings st) as [|r rs] eqn:E.
  { exists []. split; [reflexivity|]. unfold similarities. rewrite E.
    change (argsort (map _ [])) with (@nil nat).
    unfold py_slice_from. rewrite drop_nil. constructor. }
  rewrite <- E. rewrite (np_array_shaped st q Hs). simpl.
  rewrite (np_dot_shaped st q Hs). simpl.
  apply mapM_Forall2. intros i Hi.
  rewrite elem_of_reverse in Hi.
  destruct (py_slice_from_drop (- k) (argsort (similarities st q)))
    as (m & Em & _).
  rewrite Em in Hi.
  assert (Hlt : i < VS.size st).
  { rewrite <- (length_similarities st q). apply argsort_lt.
    eapply subseteq_drop. exact Hi. }
  unfold VS.size in Hlt. destruct Hs as [Hlen _].
  destruct (lookup_lt_is_Some_2 (VS.metadata st) i) as [mi Hmi]; [lia|].
  destruct (lookup_lt_is_Some_2 (VS.embeddings st) i) as [ei Hei]; [lia|].
  exists (mi, dot ei (normalize q)). unfold getitem. rewrite Hmi. simpl.
  unfold similarities. rewrite list_lookup_fmap, Hei. simpl.
  split; [reflexivity|]. split; [exact Hmi|]. eauto.
Qed.

Lemma py_slice_from_all {A : Type} (s : Z) (l : list A) :
  (s = 0 \/ s < - Z.of_nat (length l))%Z -> py_slice_from s l = l.
Proof.
  intros Hs. unfold py_slice_from.
  destruct (s <? 0)%Z eqn:E.
  - apply Z.ltb_lt in E. replace (Z.max 0 _) with 0%Z by lia. reflexivity.
  - apply Z.ltb_ge in E. replace (Z.min s _) with 0%Z by lia. reflexivity.
Qed.

Lemma py_slice_from_last {A : Type} (j : Z) (l : list A) :
  (1 <= j <= Z.of_nat (length l))%Z ->
  py_slice_from (- j) l = drop (length l - Z.to_nat j) l.
Proof.
  intros Hj. unfold py_slice_from.
  replace (- j <? 0)%Z with true by (symmetry; apply Z.ltb_lt; lia).
  f_equal. lia.
Qed.

Lemma length_ranked st q : length (ranked st q) = VS.size st.
Proof.
  unfold ranked. rewrite sort_keyed_perm, length_zip_with, length_seq,
    length_similarities. lia.
Qed.

Lemma argsort_ranked st q :
  argsort (similarities st q) = snd <$> ranked st q.
Proof. reflexivity. Qed.

Lemma ranked_sorted st q :
  no_nan (similarities st q) -> StronglySorted key_le (ranked st q).
Proof.
  intros Hn. apply sort_keyed_sorted. now apply sort_keyed_no_nan.
Qed.

Lemma ranked_keys st q :
  Forall (fun p => similarities st q !! snd p = Some (fst p)) (ranked st q).
Proof. apply sort_keyed_keys. Qed.

Lemma Forall2_fst_snd {A B C : Type} (f : A -> C) (g : B -> C)
    (l : list A) (k : list B) :
  Forall2 (fun a b => g b = f a) l k -> g <$> k = f <$> l.
Proof. induction 1; simpl; [reflexivity|]. now f_equal. Qed.

Lemma hits_scores st q (ps : list (float * nat)) (res : list (Meta * float)) :
  Forall2 (fun p r => hit st q (snd p) r) ps res ->
  Forall (fun p => similarities st q !! snd p = Some (fst p)) ps ->
  Forall2 (fun p r => snd r = fst p) ps res.
Proof.
  induction 1 as [|p r ps rs Hpr _ IH]; intros Hk.
  - constructor.
  - inversion Hk as [|? ? Hp Hps]; subst. constructor; [|now apply IH].
    destruct Hpr as [_ (e & He & ->)].
    unfold similarities in Hp. rewrite list_lookup_fmap, He in Hp.
    simpl in Hp. congruence.
Qed.

(** The scores of a result are the kept keys of [ranked], last first. *)
Lemma search_scores st q k res :
  shaped st q -> VS.search st q k = Ok res ->
  snd <$> res = reverse (fst <$> py_slice_from (- k) (ranked st q)).
Proof.
  intros Hs Hres.
  destruct (search_shaped st q k Hs) as (res' & Hres' & Hhit).
  rewrite Hres in Hres'. inversion Hres'; subst res'. clear Hres'.
  rewrite argsort_ranked, py_slice_from_fmap, <- fmap_reverse in Hhit.
  rewrite <- fmap_reverse.
  rewrite Forall2_fmap_l in Hhit.
  apply Forall2_fst_snd. apply (hits_scores st q); [exact Hhit|].
  apply Forall_forall. intros p Hp. rewrite elem_of_reverse in Hp.
  destruct (py_slice_from_drop (- k) (ranked st q)) as (m & Em & _).
  rewrite Em in Hp. apply subseteq_drop in Hp.
  pose proof (ranked_keys st q) as Hr. rewrite Forall_forall in Hr.
  now apply Hr.
Qed.

Lemma StronglySorted_reverse {A : Type} (R : relation A) (l : list A) :
  StronglySorted R l -> StronglySorted (flip R) (reverse l).
Proof.
  induction 1 as [|x l Hl IH Hx].
  - constructor.
  - rewrite reverse_cons. apply StronglySorted_app_2.
    + intros a b Ha Hb. apply list_elem_of_singleton in Hb as ->.
      rewrite elem_of_reverse in Ha. rewrite Forall_forall in Hx.
      now apply Hx.
    + exact IH.
    + repeat constructor.
Qed.

Lemma StronglySorted_drop {A : Type} (R : relation A) (m : nat) (l : list A) :
  StronglySorted R l -> StronglySorted R (drop m l).
Proof.
  intros Hl. rewrite <- (take_drop m l) in Hl.
  now apply StronglySorted_app_1_r in Hl.
Qed.

(** Without NaN among the scores, a result is in descending order. *)
Lemma search_descending st q k res :
  shaped st q -> no_nan (similarities st q) ->
  VS.search st q k = Ok res ->
  StronglySorted (flip fle) (snd <$> res).
Proof.
  intros Hs Hn Hres. rewrite (search_scores st q k res Hs Hres).
  apply StronglySorted_reverse.
  destruct (py_slice_from_drop (- k) (ranked st q)) as (m & -> & _).
  apply (StronglySorted_fmap fst key_le fle); [auto|].
  apply StronglySorted_drop. now apply ranked_sorted.
Qed.

(** An entry the slice drops scores no higher than any entry it keeps. *)
Lemma search_dominates st q k res j e r :
  shaped st q -> no_nan (similarities st q) ->
  VS.search st q k = Ok res ->
  VS.embeddings st !! j = Some e ->
  j ∉ reverse (py_slice_from (- k) (argsort (similarities st q))) ->
  r ∈ res ->
  fle (dot e (normalize q)) (snd r).
Proof.
  intros Hs Hn Hres He Hj Hr.
  pose proof (search_scores st q k res Hs Hres) as Hsc.
  pose proof (ranked_sorted st q Hn) as Hsorted.
  pose proof (ranked_keys st q) as Hkeys. rewrite Forall_forall in Hkeys.
  rewrite argsort_ranked, py_slice_from_fmap, elem_of_reverse in Hj.
  destruct (py_slice_from_drop (- k) (ranked st q)) as (m & Em & _).
  rewrite Em in Hj, Hsc. clear Em.
  rewrite <- (take_drop m (ranked st q)) in Hsorted.
  assert (Hin : j ∈ snd <$> ranked st q).
  { rewrite <- argsort_ranked, argsort_perm, length_similarities.
    apply elem_of_seq. apply lookup_lt_Some in He. unfold VS.size. lia. }
  apply list_elem_of_fmap in Hin as (p & Hp & Hpin).
  assert (Hpt : p ∈ take m (ranked st q)).
  { rewrite <- (take_drop m (ranked st q)) in Hpin.
    apply elem_of_app in Hpin as [Ht|Hd]; [exact Ht|].
    exfalso. apply Hj. rewrite Hp. now apply list_elem_of_fmap_2. }
  assert (Hs' : snd r ∈ snd <$> res) by now apply list_elem_of_fmap_2.
  rewrite Hsc, elem_of_reverse in Hs'.
  apply list_elem_of_fmap in Hs' as (p' & Hp' & Hp'in).
  pose proof (StronglySorted_app_1_elem_of _ _ _ _ _ Hsorted Hpt Hp'in) as Hle.
  unfold key_le in Hle. rewrite <- Hp' in Hle.
  specialize (Hkeys p Hpin). rewrite <- Hp in Hkeys.
  unfold similarities in Hkeys. rewrite list_lookup_fmap, He in Hkeys.
  simpl in Hkeys. inversion Hkeys as [Hfst]. rewrite Hfst. exact Hle.
Qed.

End SearchFacts.

Example ranking_store_built :
  VS.run ranking_calls (VS.mk_world (VS.mk_store [] [] None) ∅)
  = Ok (VS.mk_world ranking_store ∅).
Proof. reflexivity. Qed.

(** *** The order of a result, NaN included *)

Lemma ltb_true_numbers (x y : float) :
  (x <? y)%float = true -> is_nan x = false /\ is_nan y = false.
Proof.
  rewrite FloatAxioms.ltb_spec, !is_nan_false. unfold SFltb.
  destruct (Prim2SF x), (Prim2SF y); simpl; try discriminate;
    intros _; split; discriminate.
Qed.

Lemma leb_true_numbers (x y : float) :
  (x <=? y)%float = true -> is_nan x = false /\ is_nan y = false.
Proof.
  rewrite FloatAxioms.leb_spec, !is_nan_false. unfold SFleb.
  destruct (Prim2SF x), (Prim2SF y); simpl; try discriminate;
    intros _; split; discriminate.
Qed.

Lemma np_lt_true_np_le (a b : float) : np_lt a b = true -> np_le a b.
Proof.
  unfold np_lt, np_le. intros H. apply orb_true_iff in H as [H|H].
  - destruct (ltb_true_numbers a b H) as [Ha Hb]. right.
    split; [exact Ha|]. now apply leb_of_ltb.
  - apply andb_true_iff in H as [H _]. now left.
Qed.

Lemma np_lt_false_np_le (a b : float) : np_lt a b = false -> np_le b a.
Proof.
  unfold np_lt, np_le. intros H. apply orb_false_iff in H as [Hlt Hn].
  destruct (is_nan a) eqn:Ha; [now left|]. right.
  destruct (is_nan b) eqn:Hb; [discriminate Hn|].
  split; [reflexivity|]. now apply leb_of_not_ltb.
Qed.

Lemma np_le_trans (a b c : float) : np_le a b -> np_le b c -> np_le a c.
Proof.
  unfold np_le. intros Hab [Hc|[Hb Hbc]]; [now left|].
  destruct Hab as [Hnb|[Ha Hab]]; [congruence|]. right.
  split; [exact Ha|]. unfold fle in *. eapply leb_trans; eassumption.
Qed.

Lemma np_le_numbers (a b : float) : is_nan b = false -> np_le a b -> fle a b.
Proof. intros Hb [Hn|[_ H]]; [congruence|exact H]. Qed.

Lemma insert_by_sorted_np (x : float * nat) (l : list (float * nat)) :
  StronglySorted key_np_le l -> StronglySorted key_np_le (insert_by x l).
Proof.
  induction l as [|y l IH]; intros Hs; simpl.
  - constructor; constructor.
  - inversion Hs as [|? ? Hs' Hall]; subst.
    destruct (np_lt (fst y) (fst x)) eqn:E.
    + constructor; [now apply IH|].
      rewrite insert_by_perm. constructor; [|exact Hall].
      now apply np_lt_true_np_le.
    + assert (Hxy : key_np_le x y) by now apply np_lt_false_np_le.
      constructor; [exact Hs|]. constructor; [exact Hxy|].
      eapply Forall_impl; [exact Hall|].
      intros z Hz. unfold key_np_le in *. eapply np_le_trans; eassumption.
Qed.

Lemma sort_keyed_sorted_np (l : list (float * nat)) :
  StronglySorted key_np_le (sort_keyed l).
Proof.
  induction l as [|x l IH]; simpl; [constructor|].
  now apply insert_by_sorted_np.
Qed.

(** A result is in descending order of numpy's sort order. *)
Lemma search_descending_np {Meta : Type} (st : VS.store Meta) (q : vec) (k : Z)
    (res : list (Meta * float)) :
  shaped st q -> VS.search st q k = Ok res ->
  StronglySorted (flip np_le) (snd <$> res).
Proof.
  intros Hs Hres. rewrite (search_scores st q k res Hs Hres).
  apply StronglySorted_reverse.
  destruct (py_slice_from_drop (- k) (ranked st q)) as (m & -> & _).
  apply (StronglySorted_fmap fst key_np_le np_le); [auto|].
  apply StronglySorted_drop. apply sort_keyed_sorted_np.
Qed.

(** An entry the slice drops comes no later in numpy's order than any entry
    it keeps. *)
Lemma search_dominates_np {Meta : Type} (st : VS.store Meta) (q : vec) (k : Z)
    (res : list (Meta * float)) (j : nat) (e : vec) (r : Meta * float) :
  shaped st q ->
  VS.search st q k = Ok res ->
  VS.embeddings st !! j = Some e ->
  j ∉ reverse (py_slice_from (- k) (argsort (similarities st q))) ->
  r ∈ res ->
  np_le (dot e (normalize q)) (snd r).
Proof.
  intros Hs Hres He Hj Hr.
  pose proof (search_scores st q k res Hs Hres) as Hsc.
  pose proof (sort_keyed_sorted_np
                (zip (similarities st q) (seq 0 (length (similarities st q)))))
    as Hsorted.
  fold (ranked st q) in Hsorted.
  pose proof (ranked_keys st q) as Hkeys. rewrite Forall_forall in Hkeys.
  rewrite argsort_ranked, py_slice_from_fmap, elem_of_reverse in Hj.
  destruct (py_slice_from_drop (- k) (ranked st q)) as (m & Em & _).
  rewrite Em in Hj, Hsc. clear Em.
  rewrite <- (take_drop m (ranked st q)) in Hsorted.
  assert (Hin : j ∈ snd <$> ranked st q).
  { rewrite <- argsort_ranked, argsort_perm, length_similarities.
    apply elem_of_seq. apply lookup_lt_Some in He. unfold VS.size. lia. }
  apply list_elem_of_fmap in Hin as (p & Hp & Hpin).
  assert (Hpt : p ∈ take m (ranked st q)).
  { rewrite <- (take_drop m (ranked st q)) in Hpin.
    apply elem_of_app in Hpin as [Ht|Hd]; [exact Ht|].
    exfalso. apply Hj. rewrite Hp. now apply list_elem_of_fmap_2. }
  assert (Hs' : snd r ∈ snd <$> res) by now apply list_elem_of_fmap_2.
  rewrite Hsc, elem_of_reverse in Hs'.
  apply list_elem_of_fmap in Hs' as (p' & Hp' & Hp'in).
  pose proof (StronglySorted_app_1_elem_of _ _ _ _ _ Hsorted Hpt Hp'in) as Hle.
  unfold key_np_le in Hle. rewrite <- Hp' in Hle.
  specialize (Hkeys p Hpin). rewrite <- Hp in Hkeys.
  unfold similarities in Hkeys. rewrite list_lookup_fmap, He in Hkeys.
  simpl in Hkeys. inversion Hkeys as [Hfst]. rewrite Hfst. exact Hle.
Qed.

Example nan_store_built :
  VS.run nan_calls (VS.mk_world (VS.mk_store [] [] None) ∅)
  = Ok (VS.mk_world nan_store ∅).
Proof. reflexivity. Qed.

(** C2, as the code has it. On a store of n >= 1 parallel entries of the
    query's dimension, search with 1 <= top_k <= n returns exactly top_k
    pairs; each pair is the metadata of a distinct stored entry with the dot
    product of that entry's stored vector and the normalized query. The
    pairs are the top_k largest and come in descending order in the order
    numpy sorts by, in which NaN stands above every number; when no score
    is NaN this is the descending order of the scores, and no entry left out
    scores higher than a returned one. On the store built from [1,0,0]->A,
    [0,1,0]->B, [0.9,0.1,0]->C the query [1,0,0] with top_k = 2 returns A,
    then C, and not B. *)
Theorem search_returns_top_k :
  (forall (Meta : Type) (st : VS.store Meta) (q : vec) (k : Z),
     shaped st q ->
     (1 <= k <= Z.of_nat (VS.size st))%Z ->
     exists res idx,
       VS.search st q k = Ok res /\
       length res = Z.to_nat k /\
       NoDup idx /\
       Forall2 (hit st q) idx res /\
       StronglySorted (flip np_le) (snd <$> res) /\
       (forall j e r, VS.embeddings st !! j = Some e -> j ∉ idx -> r ∈ res ->
                      np_le (dot e (normalize q)) (snd r)) /\
       (no_nan (similarities st q) ->
        StronglySorted (flip fle) (snd <$> res) /\
        (forall j e r, VS.embeddings st !! j = Some e -> j ∉ idx -> r ∈ res ->
                       fle (dot e (normalize q)) (snd r)))) /\
  (exists sa sc,
     VS.search ranking_store [1; 0; 0]%float 2 = Ok [("A", sa); ("C", sc)] /\
     (sc <? sa)%float = true).
Proof.
  split; [|eexists _, _; split; reflexivity].
  intros Meta st q k Hs Hk.
  destruct (search_shaped st q k Hs) as (res & Hres & Hhit).
  exists res, (reverse (py_slice_from (- k) (argsort (similarities st q)))).
  split; [exact Hres|].
  split; [|split; [|split; [exact Hhit|split; [|split]]]].
  - rewrite <- (Forall2_length _ _ _ Hhit), length_reverse.
    rewrite py_slice_from_last.
    + rewrite length_drop, argsort_perm, length_seq, length_similarities. lia.
    + rewrite argsort_perm, length_seq, length_similarities. exact Hk.
  - rewrite reverse_Permutation.
    destruct (py_slice_from_drop (- k) (argsort (similarities st q)))
      as (m & -> & _).
    eapply sublist_NoDup; [apply argsort_NoDup|apply sublist_drop].
  - now apply (search_descending_np st q k).
  - intros j e r He Hj Hr. now apply (search_dominates_np st q k res j e r).
  - intros Hn. split.
    + now apply (search_descending st q k).
    + intros j e r He Hj Hr. now apply (search_dominates st q k res j e r).
Qed.

Lemma search_returns_top_k_witness :
  exists res idx,
    VS.search ranking_store [1; 0; 0]%float 2 = Ok res /\
    length res = Z.to_nat 2 /\
    NoDup idx /\
    Forall2 (hit ranking_store [1; 0; 0]%float) idx res /\
    StronglySorted (flip np_le) (snd <$> res) /\
    (forall j e r, VS.embeddings ranking_store !! j = Some e -> j ∉ idx ->
                   r ∈ res -> np_le (dot e (normalize [1; 0; 0]%float)) (snd r)) /\
    (no_nan (similarities ranking_store [1; 0; 0]%float) ->
     StronglySorted (flip fle) (snd <$> res) /\
     (forall j e r, VS.embeddings ranking_store !! j = Some e -> j ∉ idx ->
                    r ∈ res -> fle (dot e (normalize [1; 0; 0]%float)) (snd r))).
Proof.
  apply (proj1 search_returns_top_k string ranking_store [1; 0; 0]%float 2%Z).
  - split; [reflexivity|]. repeat constructor.
  - vm_compute. split; discriminate.
Defined.

(** C2 fails on the store that holds a zero vector: with top_k = 1 the
    pair returned is the zero vector's, with score NaN, and the entry A,
    whose score 1 is the largest similarity, is left out. *)
Lemma search_returns_nan_entry :
  VS.search nan_store [1; 0; 0]%float 1 = Ok [("Z", nan)] /\
  similarities nan_store [1; 0; 0]%float = [nan; 1%float] /\
  (1 <=? nan)%float = false.
Proof. repeat split; reflexivity. Qed.

(** When the slice keeps everything, every entry is returned once. *)
Lemma search_all {Meta : Type} (st : VS.store Meta) (q : vec) (k : Z) :
  shaped st q ->
  (k = 0 \/ Z.of_nat (VS.size st) < k)%Z ->
  exists res idx,
    VS.search st q k = Ok res /\
    length res = VS.size st /\
    idx ≡ₚ seq 0 (VS.size st) /\
    Forall2 (hit st q) idx res.
Proof.
  intros Hs Hk.
  destruct (search_shaped st q k Hs) as (res & Hres & Hhit).
  rewrite py_slice_from_all in Hhit.
  2:{ rewrite argsort_perm, length_seq, length_similarities. lia. }
  exists res, (reverse (argsort (similarities st q))).
  split; [exact Hres|]. split; [|split; [|exact Hhit]].
  - rewrite <- (Forall2_length _ _ _ Hhit), length_reverse.
    now rewrite argsort_perm, length_seq, length_similarities.
  - now rewrite reverse_Permutation, argsort_perm, length_similarities.
Qed.

(** C8. On a store of n >= 1 parallel entries of the query's dimension,
    search with top_k > n raises nothing and returns exactly n pairs, one for
    each stored entry. *)
Theorem search_clamps_top_k {Meta : Type} (st : VS.store Meta) (q : vec) (k : Z) :
  shaped st q ->
  1 <= VS.size st ->
  (Z.of_nat (VS.size st) < k)%Z ->
  exists res idx,
    VS.search st q k = Ok res /\
    length res = VS.size st /\
    idx ≡ₚ seq 0 (VS.size st) /\
    Forall2 (hit st q) idx res.
Proof.
  intros Hs _ Hk. apply search_all; [exact Hs|]. right. exact Hk.
Qed.

Lemma search_clamps_top_k_witness :
  exists res idx,
    VS.search ranking_store [1; 0; 0]%float 100 = Ok res /\
    length res = 3 /\
    idx ≡ₚ seq 0 3 /\
    Forall2 (hit ranking_store [1; 0; 0]%float) idx res.
Proof.
  apply (search_clamps_top_k ranking_store [1; 0; 0]%float 100%Z).
  - split; [reflexivity|]. repeat constructor.
  - unfold VS.size. simpl. lia.
  - unfold VS.size. simpl. lia.
Defined.

(** C10, as the code has it. On a store of n >= 1 parallel entries of the
    query's dimension, search with top_k = 0 returns all n entries and not
    the empty list: the slice [[-0:]] is the whole sequence. The entries
    come in descending order of the order numpy sorts by, in which NaN
    stands above every number; when no score is NaN this is the descending
    order of the scores. *)
Theorem search_top_k_zero {Meta : Type} (st : VS.store Meta) (q : vec) :
  shaped st q ->
  1 <= VS.size st ->
  exists res idx,
    VS.search st q 0 = Ok res /\
    res <> [] /\
    length res = VS.size st /\
    idx ≡ₚ seq 0 (VS.size st) /\
    Forall2 (hit st q) idx res /\
    StronglySorted (flip np_le) (snd <$> res) /\
    (no_nan (similarities st q) -> StronglySorted (flip fle) (snd <$> res)).
Proof.
  intros Hs Hn.
  destruct (search_all st q 0 Hs) as (res & idx & Hres & Hlen & Hperm & Hhit).
  { now left. }
  exists res, idx. split; [exact Hres|]. split.
  { intros E. rewrite E in Hlen. simpl in Hlen. lia. }
  repeat split; try assumption.
  - now apply (search_descending_np st q 0).
  - intros Hnn. now apply (search_descending st q 0).
Qed.

Lemma search_top_k_zero_witness :
  exists res idx,
    VS.search ranking_store [1; 0; 0]%float 0 = Ok res /\
    res <> [] /\
    length res = 3 /\
    idx ≡ₚ seq 0 3 /\
    Forall2 (hit ranking_store [1; 0; 0]%float) idx res /\
    StronglySorted (flip np_le) (snd <$> res) /\
    (no_nan (similarities ranking_store [1; 0; 0]%float) ->
     StronglySorted (flip fle) (snd <$> res)).
Proof.
  apply (search_top_k_zero ranking_store [1; 0; 0]%float).
  - split; [reflexivity|]. repeat constructor.
  - unfold VS.size. simpl. lia.
Defined.

(** C10 fails in its order on the store that holds a zero vector: top_k = 0
    returns both entries, the zero vector's first with score NaN, and NaN is
    not above the score 1 that follows it in the order of the scores. *)
Lemma search_top_k_zero_nan_first :
  VS.search nan_store [1; 0; 0]%float 0 = Ok [("Z", nan); ("A", 1%float)] /\
  ~ StronglySorted (flip fle) [nan; 1%float].
Proof.
  split; [reflexivity|].
  intros H. inversion H as [|? ? _ Hall]; subst.
  inversion Hall as [|? ? Hle _]; subst.
  unfold flip, fle in Hle. vm_compute in Hle. discriminate.
Qed.

Example search_top_k_zero_ranking :
  VS.search ranking_store [1; 0; 0]%float 0
  = Ok [("A", 1%float); ("C", 0.9938837346736189%float); ("B", 0%float)].
Proof. reflexivity. Qed.

(** ** Errors of search *)

Lemma mapM_length {A B : Type} (f : A -> result B) (l : list A) (bs : list B) :
  mapM f l = Ok bs -> length bs = length l.
Proof.
  revert bs. induction l as [|a l IH]; intros bs; simpl.
  - intros E. inversion E. reflexivity.
  - destruct (f a) as [b|e]; simpl; [|discriminate].
    destruct (mapM f l) as [bs'|e]; simpl; [|discriminate].
    intros E. inversion E. simpl. f_equal. now apply IH.
Qed.

Lemma np_array_ok (rows a : list vec) : np_array rows = Ok a -> a = rows.
Proof.
  destruct rows as [|r rs]; simpl.
  - intros E. now inversion E.
  - destruct (forallb _ rs); intros E; [now inversion E|discriminate].
Qed.

Lemma np_dot_ok (m : list vec) (q s : vec) :
  np_dot m q = Ok s ->
  length s = length m /\ Forall (fun r => length r = length q) m.
Proof.
  unfold np_dot. destruct (forallb _ m) eqn:E; [|discriminate].
  intros Es. inversion Es. split; [apply length_map|].
  apply Forall_forall. intros r Hr. apply Nat.eqb_eq.
  rewrite forallb_forall in E. apply E. now apply list_elem_of_In.
Qed.

Lemma length_py_slice_from_neg {A : Type} (k : Z) (l : list A) :
  (0 <= k)%Z -> l <> [] -> 0 < length (py_slice_from (- k) l).
Proof.
  intros Hk Hl. assert (0 < length l) by (destruct l; simpl; [congruence|lia]).
  unfold py_slice_from. rewrite length_drop.
  destruct (- k <? 0)%Z eqn:E.
  - apply Z.ltb_lt in E. lia.
  - apply Z.ltb_ge in E. lia.
Qed.

Lemma py_slice_from_nil {A : Type} (k : Z) (l : list A) :
  py_slice_from (- k) l = [] <-> l = [] \/ (k <= - Z.of_nat (length l))%Z.
Proof.
  unfold py_slice_from. destruct (- k <? 0)%Z eqn:E.
  - apply Z.ltb_lt in E. split.
    + intros H. apply (f_equal length) in H. rewrite length_drop in H.
      simpl in H. destruct l; [now left|]. simpl in *. lia.
    + intros [->|H]; [now rewrite drop_nil|]. lia.
  - apply Z.ltb_ge in E. split.
    + intros H. apply (f_equal length) in H. rewrite length_drop in H.
      simpl in H. right. lia.
    + intros [->|H]; [now rewrite drop_nil|].
      apply drop_ge. lia.
Qed.

(** C7, as the code has it. On a store holding zero entries search returns
    the empty list for every query and every top_k, and raises nothing. The
    empty store is not the only case of an empty result: on a store of n
    parallel entries of the query's dimension every top_k <= -n gives the
    empty list too, with no error; an empty result has no other cause. A
    stored vector of another dimension than the query makes search on a
    store that holds entries raise. *)
Theorem search_empty_store {Meta : Type} (st : VS.store Meta) (q : vec) (k : Z) :
  (VS.embeddings st = [] -> VS.search st q k = Ok []) /\
  (VS.search st q k = Ok [] ->
   VS.embeddings st = [] \/ (k <= - Z.of_nat (VS.size st))%Z) /\
  (shaped st q -> (k <= - Z.of_nat (VS.size st))%Z -> VS.search st q k = Ok []) /\
  (VS.embeddings st <> [] ->
   ~ Forall (fun r => length r = length q) (VS.embeddings st) ->
   exists msg, VS.search st q k = Raise (ValueError msg)).
Proof.
  split; [|split; [|split]].
  - intros E. unfold VS.search. now rewrite E.
  - intros Hres. destruct (VS.embeddings st) as [|r rs] eqn:E; [now left|].
    right. unfold VS.search in Hres. rewrite E in Hres.
    destruct (np_array (r :: rs)) as [a|e] eqn:Ea; simpl in Hres; [|discriminate].
    apply np_array_ok in Ea. subst a.
    destruct (np_dot (r :: rs) (normalize q)) as [s|e] eqn:Ed;
      simpl in Hres; [|discriminate].
    apply np_dot_ok in Ed as [Hlen _].
    apply mapM_length in Hres. rewrite length_reverse in Hres. simpl in Hres.
    symmetry in Hres. apply nil_length_inv in Hres.
    apply py_slice_from_nil in Hres as [Hnil|Hk].
    + exfalso. pose proof (argsort_perm s) as Hp. rewrite Hnil in Hp.
      apply Permutation_length in Hp. rewrite length_seq, Hlen in Hp.
      simpl in Hp. lia.
    + rewrite argsort_perm, length_seq, Hlen in Hk.
      unfold VS.size. rewrite E. exact Hk.
  - intros Hs Hk. destruct (search_shaped st q k Hs) as (res & Hres & Hhit).
    rewrite Hres. f_equal.
    assert (E : py_slice_from (- k) (argsort (similarities st q)) = []).
    { apply py_slice_from_nil. right.
      now rewrite argsort_perm, length_seq, length_similarities. }
    rewrite E in Hhit. inversion Hhit. reflexivity.
  - intros Hne Hbad. unfold VS.search.
    destruct (VS.embeddings st) as [|r rs] eqn:E; [congruence|].
    destruct (np_array (r :: rs)) as [a|e] eqn:Ea; simpl.
    + apply np_array_ok in Ea. subst a.
      destruct (np_dot (r :: rs) (normalize q)) as [s|e] eqn:Ed; simpl.
      * apply np_dot_ok in Ed as [_ Hall]. exfalso. apply Hbad.
        eapply Forall_impl; [exact Hall|]. intros r'. simpl.
        now rewrite length_normalize.
      * unfold np_dot in Ed. destruct (forallb _ _); [discriminate|].
        inversion Ed. eauto.
    + simpl in Ea. destruct (forallb _ rs); [discriminate|].
      inversion Ea. eauto.
Qed.

Lemma search_empty_store_witness :
  VS.search (VS.mk_store [] ([] : list string) None) [1; 0; 0]%float 5 = Ok [] /\
  (VS.embeddings ranking_store = [] \/
   (-3 <= - Z.of_nat (VS.size ranking_store))%Z) /\
  VS.search ranking_store [1; 0; 0]%float (-3) = Ok [] /\
  exists msg, VS.search ranking_store [1; 0]%float 2 = Raise (ValueError msg).
Proof.
  split; [|split; [|split]].
  - apply (proj1 (search_empty_store
                    (VS.mk_store [] ([] : list string) None) [1; 0; 0]%float 5)).
    reflexivity.
  - apply (proj1 (proj2 (search_empty_store ranking_store [1; 0; 0]%float (-3)))).
    reflexivity.
  - apply (proj1 (proj2 (proj2
             (search_empty_store ranking_store [1; 0; 0]%float (-3))))).
    + split; [reflexivity|]. repeat constructor.
    + unfold VS.size. simpl. lia.
  - apply (proj2 (proj2 (proj2 (search_empty_store ranking_store [1; 0]%float 2)))).
    + discriminate.
    + intros Hall. inversion Hall as [|? ? Hlen _]. discriminate Hlen.
Defined.

(** C7 fails in its second half: a store of three entries asked for
    top_k = -5 gives the empty list and raises nothing. *)
Lemma search_negative_top_k_empty :
  VS.search ranking_store [1; 0; 0]%float (-5) = Ok [] /\
  VS.embeddings ranking_store <> [].
Proof. split; [reflexivity|discriminate]. Qed.

(** ** add *)

Lemma fold_add_zeros (v : vec) :
  zero_vector v ->
  fold_left PrimFloat.add (zip_with PrimFloat.mul v v) 0%float = 0%float.
Proof.
  induction 1 as [|x v [-> | ->] _ IH]; simpl; [reflexivity| |]; exact IH.
Qed.

Lemma norm_zero_vector (v : vec) : zero_vector v -> norm v = 0%float.
Proof.
  intros Hv. unfold norm, dot. simpl.
  rewrite (fold_add_zeros v Hv). reflexivity.
Qed.

Lemma normalize_zero_vector (v : vec) :
  zero_vector v -> normalize v = map (fun _ => nan) v.
Proof.
  intros Hv. unfold normalize. rewrite (norm_zero_vector v Hv).
  induction Hv as [|x v Hx _ IH]; simpl; [reflexivity|].
  f_equal; [destruct Hx as [-> | ->]; reflexivity|exact IH].
Qed.

Lemma add_appends {Meta : Type} (v : vec) (m : Meta) (w : VS.world Meta) :
  exists w',
    VS.add v m w = Ok w' /\
    VS.embeddings (VS.obj w') = VS.embeddings (VS.obj w) ++ [normalize v] /\
    VS.metadata (VS.obj w') = VS.metadata (VS.obj w) ++ [m] /\
    VS.pickle_path (VS.obj w') = VS.pickle_path (VS.obj w).
Proof.
  unfold VS.add, VS.save. simpl.
  destruct (VS.truthy (VS.pickle_path (VS.obj w))); eexists;
    (split; [reflexivity|]); simpl; auto.
Qed.

(** C1, as the code has it. [add] raises for no vector: it appends the
    componentwise quotient [v / norm(v)] and the metadata. For a vector of
    zeros that quotient is NaN in every component (0/0), and for the vector
    of length zero it is the empty vector. *)
Theorem add_never_rejects {Meta : Type} (v : vec) (m : Meta) (w : VS.world Meta) :
  zero_vector v ->
  exists w',
    VS.add v m w = Ok w' /\
    VS.embeddings (VS.obj w') = VS.embeddings (VS.obj w) ++ [map (fun _ => nan) v] /\
    VS.metadata (VS.obj w') = VS.metadata (VS.obj w) ++ [m].
Proof.
  intros Hv. destruct (add_appends v m w) as (w' & Hadd & He & Hm & _).
  exists w'. rewrite <- (normalize_zero_vector v Hv). auto.
Qed.

Lemma add_never_rejects_witness :
  exists w',
    VS.add [0; 0; 0]%float "meta" (VS.mk_world (VS.mk_store [] [] None) ∅) = Ok w' /\
    VS.embeddings (VS.obj w') = [] ++ [map (fun _ => nan) [0; 0; 0]%float] /\
    VS.metadata (VS.obj w') = [] ++ ["meta"].
Proof.
  apply (add_never_rejects [0; 0; 0]%float "meta"
           (VS.mk_world (VS.mk_store [] [] None) ∅)).
  repeat constructor.
Defined.

(** C1 fails at [0,0,0]: the call returns, and what it stored is NaN. *)
Lemma add_zero_vector_accepted :
  VS.add [0; 0; 0]%float "meta" (VS.mk_world (VS.mk_store [] [] None) ∅)
  = Ok (VS.mk_world (VS.mk_store [[nan; nan; nan]] ["meta"] None) ∅)
  /\ forallb is_nan [nan; nan; nan] = true.
Proof. split; reflexivity. Qed.

(** ** Unit norm *)

Example stored_norm_of_test_vector :
  isclose (norm (normalize [0.1; 0.2; 0.3; 0.4; 0.5]%float)) 1 = true.
Proof. reflexivity. Qed.

Lemma run_add_calls {Meta : Type} (vms : list (vec * Meta)) (w : VS.world Meta) :
  exists w',
    VS.run (add_calls vms) w = Ok w' /\
    VS.embeddings (VS.obj w')
    = VS.embeddings (VS.obj w) ++ map (fun vm => normalize (fst vm)) vms /\
    VS.metadata (VS.obj w') = VS.metadata (VS.obj w) ++ map snd vms.
Proof.
  revert w. induction vms as [|[v m] vms IH]; intros w; simpl.
  - exists w. now rewrite !app_nil_r.
  - destruct (add_appends v m w) as (w1 & Hadd & He & Hm & _).
    destruct (IH w1) as (w' & Hrun & He' & Hm').
    exists w'. rewrite Hadd. simpl. split; [exact Hrun|].
    rewrite He', Hm', He, Hm, <- !app_assoc. auto.
Qed.

Section RealNorm.
Open Scope R_scope.

Lemma sum_squares_ge (v : list R) (a : R) : a <= sum_squares v a.
Proof.
  unfold sum_squares. revert a. induction v as [|x v IH]; intros a; simpl.
  - lra.
  - specialize (IH (a + x * x)). pose proof (Rle_0_sqr x) as Hx.
    unfold Rsqr in Hx. lra.
Qed.

Lemma sum_squares_gt (v : list R) (a : R) :
  Exists (fun x => x <> 0) v -> a < sum_squares v a.
Proof.
  intros Hv. revert a. induction Hv as [x v Hx|x v _ IH]; intros a.
  - pose proof (sum_squares_ge v (a + x * x)) as Hge.
    assert (0 < x * x) by (apply Rsqr_pos_lt in Hx; exact Hx).
    unfold sum_squares in *. simpl. lra.
  - specialize (IH (a + x * x)). pose proof (Rle_0_sqr x) as Hx.
    unfold Rsqr in Hx. unfold sum_squares in *. simpl. lra.
Qed.

Lemma sum_squares_scaled (v : list R) (n a : R) :
  n <> 0 ->
  sum_squares (map (fun x => x / n) v) (a / (n * n))
  = sum_squares v a / (n * n).
Proof.
  intros Hn. unfold sum_squares. revert a.
  induction v as [|x v IH]; intros a; simpl; [reflexivity|].
  rewrite <- IH. f_equal. field. exact Hn.
Qed.

Lemma real_unit_norm (v : list R) :
  Exists (fun x => x <> 0) v -> norm (normalize v) = 1.
Proof.
  intros Hv. unfold normalize, norm, dot. simpl.
  fold (sum_squares v 0).
  pose proof (sum_squares_gt v 0 Hv) as Hpos.
  set (n := sqrt (sum_squares v 0)).
  assert (Hn : 0 < n) by (apply sqrt_lt_R0; exact Hpos).
  assert (Hnn : n * n = sum_squares v 0) by (apply sqrt_sqrt; lra).
  fold (sum_squares (map (fun x => x / n) v) 0).
  replace 0 with (0 / (n * n)) at 1 by (field; lra).
  rewrite sum_squares_scaled by lra.
  rewrite <- Hnn. replace (n * n / (n * n)) with 1 by (field; lra).
  apply sqrt_1.
Qed.

End RealNorm.

(** *** Rounding errors of the norm *)

Lemma Rabs_le_inv (x a : R) : (Rabs x <= a -> - a <= x <= a)%R.
Proof. unfold Rabs. destruct (Rcase_abs x); lra. Qed.

(** *** bpow *)

Lemma bpow_pos (e : Z) : (0 < bpow e)%R.
Proof. apply powerRZ_lt. lra. Qed.

Lemma bpow_add (a b : Z) : bpow (a + b) = (bpow a * bpow b)%R.
Proof. apply powerRZ_add. lra. Qed.

Lemma IZR_pow2 (n : Z) : (0 <= n)%Z -> IZR (2 ^ n) = bpow n.
Proof.
  intros Hn. destruct n as [|p|p]; [reflexivity| |lia].
  unfold bpow. rewrite <- Zpower_pos_powerRZ. reflexivity.
Qed.

Lemma bpow_ge_1 (n : Z) : (0 <= n)%Z -> (1 <= bpow n)%R.
Proof.
  intros Hn. rewrite <- IZR_pow2 by exact Hn. apply IZR_le.
  pose proof (Z.pow_pos_nonneg 2 n). lia.
Qed.

Lemma bpow_le (a b : Z) : (a <= b)%Z -> (bpow a <= bpow b)%R.
Proof.
  intros H. replace b with (a + (b - a))%Z by lia. rewrite bpow_add.
  pose proof (bpow_pos a). pose proof (bpow_ge_1 (b - a) ltac:(lia)). nra.
Qed.

Lemma bpow_0 : bpow 0 = 1%R.
Proof. reflexivity. Qed.

Lemma bpow_1 : bpow 1 = 2%R.
Proof. unfold bpow. simpl. lra. Qed.

Lemma bpow_succ (a : Z) : bpow (a + 1) = (2 * bpow a)%R.
Proof. rewrite bpow_add, bpow_1. lra. Qed.

Lemma bpow_lt (a b : Z) : (a < b)%Z -> (bpow a < bpow b)%R.
Proof.
  intros H. assert (Hle : (bpow (a + 1) <= bpow b)%R) by (apply bpow_le; lia).
  rewrite bpow_succ in Hle. pose proof (bpow_pos a). lra.
Qed.

(** *** digits *)

Lemma digits2_size (p : positive) : digits2_pos p = Pos.size p.
Proof. induction p; simpl; congruence. Qed.

Lemma Zdigits2_bounds (m : Z) :
  (0 < m)%Z -> (2 ^ (Zdigits2 m - 1) <= m < 2 ^ Zdigits2 m)%Z.
Proof.
  intros Hm. destruct m as [|p|p]; try lia. simpl. rewrite digits2_size.
  pose proof (Pos.size_gt p) as Hgt. pose proof (Pos.size_le p) as Hle.
  apply Pos2Z.pos_lt_pos in Hgt. apply Pos2Z.pos_le_pos in Hle.
  rewrite Pos2Z.inj_pow in Hgt, Hle.
  split; [|exact Hgt].
  replace (Z.pos (Pos.size p)) with (Z.pos (Pos.size p) - 1 + 1)%Z in Hle by lia.
  rewrite Z.pow_add_r in Hle by lia. lia.
Qed.

Lemma Zdigits2_nonneg (m : Z) : (0 <= Zdigits2 m)%Z.
Proof. destruct m; simpl; lia. Qed.

Lemma Zdigits2_pos (m : Z) : (0 < m)%Z -> (0 < Zdigits2 m)%Z.
Proof. destruct m; simpl; lia. Qed.

(** A positive integer of [d] binary digits lies in [[2^(d-1), 2^d)]. *)
Lemma digits_real (m e : Z) :
  (0 < m)%Z ->
  (bpow (Zdigits2 m - 1 + e) <= IZR m * bpow e < bpow (Zdigits2 m + e))%R.
Proof.
  intros Hm. destruct (Zdigits2_bounds m Hm) as [Hlo Hhi].
  pose proof (Zdigits2_pos m Hm) as Hd.
  rewrite !bpow_add. pose proof (bpow_pos e) as He.
  apply IZR_le in Hlo. apply IZR_lt in Hhi.
  rewrite IZR_pow2 in Hlo, Hhi by lia. split; nra.
Qed.

(** *** shr *)

Lemma shr_1_m (mrs : shr_record) :
  (0 <= shr_m mrs)%Z -> shr_m (shr_1 mrs) = Z.div (shr_m mrs) 2.
Proof.
  destruct mrs as [m r s]. simpl. intros Hm. rewrite <- Z.div2_div.
  destruct m as [|[p|p|]|p]; try reflexivity. lia.
Qed.

(** Shifting right by [p] places divides the mantissa by [2^p], rounding
    down. *)
Lemma iter_shr_1_m (p : positive) (mrs : shr_record) :
  (0 <= shr_m mrs)%Z ->
  shr_m (SpecFloat.iter_pos shr_1 p mrs) = Z.div (shr_m mrs) (2 ^ Z.pos p).
Proof.
  revert mrs. induction p as [p IH|p IH|]; intros mrs Hm; simpl SpecFloat.iter_pos.
  - assert (H1 : (0 <= shr_m (shr_1 mrs))%Z).
    { rewrite shr_1_m by exact Hm. apply Z.div_pos; lia. }
    assert (H2 : (0 <= shr_m (SpecFloat.iter_pos shr_1 p (shr_1 mrs)))%Z).
    { rewrite IH by exact H1. apply Z.div_pos; lia. }
    rewrite IH by exact H2. rewrite IH by exact H1. rewrite shr_1_m by exact Hm.
    rewrite !Z.div_div by lia. f_equal.
    replace (Z.pos p~1) with (1 + Z.pos p + Z.pos p)%Z by lia.
    rewrite !Z.pow_add_r by lia. rewrite Z.pow_1_r. lia.
  - assert (H2 : (0 <= shr_m (SpecFloat.iter_pos shr_1 p mrs))%Z).
    { rewrite IH by exact Hm. apply Z.div_pos; lia. }
    rewrite IH by exact H2. rewrite IH by exact Hm.
    rewrite !Z.div_div by lia. f_equal.
    replace (Z.pos p~0) with (Z.pos p + Z.pos p)%Z by lia.
    rewrite !Z.pow_add_r by lia. reflexivity.
  - rewrite shr_1_m by exact Hm. reflexivity.
Qed.

Lemma shr_spec (mrs : shr_record) (e n : Z) :
  (0 <= shr_m mrs)%Z ->
  exists mrs',
    shr mrs e n = (mrs', (e + Z.max n 0)%Z) /\
    shr_m mrs' = Z.div (shr_m mrs) (2 ^ Z.max n 0).
Proof.
  intros Hm. destruct n as [|p|p]; simpl shr.
  - exists mrs. rewrite Z.add_0_r. split; [reflexivity|].
    simpl. now rewrite Z.div_1_r.
  - exists (SpecFloat.iter_pos shr_1 p mrs). split; [reflexivity|].
    now apply iter_shr_1_m.
  - exists mrs. replace (Z.max (Z.neg p) 0) with 0%Z by lia.
    rewrite Z.add_0_r. split; [reflexivity|].
    simpl. now rewrite Z.div_1_r.
Qed.

Lemma shr_record_of_loc_m (m : Z) (l : location) :
  shr_m (shr_record_of_loc m l) = m.
Proof. destruct l as [|[]]; reflexivity. Qed.

Lemma round_nearest_even_range (m : Z) (l : location) :
  (m <= round_nearest_even m l <= m + 1)%Z.
Proof.
  destruct l as [|[]]; simpl; try lia. destruct (Z.even m); lia.
Qed.

(** *** rounding *)


Lemma fexp_eq (e : Z) : fexp prec emax e = Z.max (e - 53) (-1074).
Proof. reflexivity. Qed.

(** What [binary_round_aux] computes: two right shifts, with a rounding
    step of at most one unit between them. *)
Lemma binary_round_aux_shape (sx : bool) (mx ex : Z) (lx : location) :
  (0 <= mx)%Z ->
  exists m1 m2 : Z,
    let n1 := Z.max (fexp prec emax (Zdigits2 mx + ex) - ex) 0 in
    let e1 := (ex + n1)%Z in
    let n2 := Z.max (fexp prec emax (Zdigits2 m1 + e1) - e1) 0 in
    let e2 := (e1 + n2)%Z in
    (Z.div mx (2 ^ n1) <= m1 <= Z.div mx (2 ^ n1) + 1)%Z /\
    m2 = Z.div m1 (2 ^ n2) /\
    binary_round_aux prec emax sx mx ex lx
    = match m2 with
      | Z0 => S754_zero sx
      | Zpos m =>
          if (e2 <=? emax - prec)%Z then S754_finite sx m e2
          else S754_infinity sx
      | Zneg _ => S754_nan
      end.
Proof.
  intros Hmx. unfold binary_round_aux, shr_fexp.
  destruct (shr_spec (shr_record_of_loc mx lx) ex
              (fexp prec emax (Zdigits2 mx + ex) - ex)) as (mrs1 & E1 & Hm1).
  { now rewrite shr_record_of_loc_m. }
  rewrite E1. rewrite shr_record_of_loc_m in Hm1.
  set (m1 := round_nearest_even (shr_m mrs1) (loc_of_shr_record mrs1)).
  pose proof (round_nearest_even_range (shr_m mrs1) (loc_of_shr_record mrs1))
    as Hr. fold m1 in Hr. rewrite Hm1 in Hr.
  assert (H1 : (0 <= m1)%Z).
  { assert (0 <= Z.div mx (2 ^ Z.max (fexp prec emax (Zdigits2 mx + ex) - ex) 0))%Z
      by (apply Z.div_pos; lia). lia. }
  set (e1 := (ex + Z.max (fexp prec emax (Zdigits2 mx + ex) - ex) 0)%Z) in *.
  destruct (shr_spec (shr_record_of_loc m1 loc_Exact) e1
              (fexp prec emax (Zdigits2 m1 + e1) - e1)) as (mrs2 & E2 & Hm2).
  { now rewrite shr_record_of_loc_m. }
  rewrite E2. rewrite shr_record_of_loc_m in Hm2.
  exists m1, (shr_m mrs2). cbv zeta. fold e1.
  split; [exact Hr|]. split; [exact Hm2|]. reflexivity.
Qed.

Lemma floor_real (m e n : Z) :
  (0 <= m)%Z -> (0 <= n)%Z ->
  (IZR (Z.div m (2 ^ n)) * bpow (e + n) <= IZR m * bpow e /\
   IZR (m + 1) * bpow e <= IZR (Z.div m (2 ^ n) + 1) * bpow (e + n))%R.
Proof.
  intros Hm Hn. rewrite bpow_add. rewrite <- (IZR_pow2 n) by exact Hn.
  assert (HP : (0 < 2 ^ n)%Z) by (apply Z.pow_pos_nonneg; lia).
  pose proof (Z.mul_div_le m (2 ^ n) HP) as Hlo.
  pose proof (Z.mul_succ_div_gt m (2 ^ n) HP) as Hhi.
  set (q := Z.div m (2 ^ n)) in *. set (P := (2 ^ n)%Z) in *.
  assert (Hlo' : (IZR P * IZR q <= IZR m)%R).
  { rewrite <- mult_IZR. now apply IZR_le. }
  assert (Hhi' : (IZR (m + 1) <= IZR P * IZR (q + 1))%R).
  { rewrite <- mult_IZR. apply IZR_le. lia. }
  pose proof (bpow_pos e) as He. split; nra.
Qed.

Lemma rel_err_eq : rel_err = (4 * bpow (-52))%R.
Proof.
  unfold rel_err. change (-50)%Z with (2 + -52)%Z. rewrite bpow_add.
  f_equal. unfold bpow. simpl. lra.
Qed.

(** The rounding of an exact result [X] that lies between [mx * 2^ex] and
    the next multiple of [2^ex]: below [2^1023] the result is a zero or a
    finite number, within [rel_err * X + 4 * abs_err] of [X]. *)
Lemma binary_round_aux_bound (sx : bool) (mx ex : Z) (lx : location) (X : R) :
  (0 <= mx)%Z ->
  (ex <= fexp prec emax (Zdigits2 mx + ex))%Z ->
  (IZR mx * bpow ex <= X < IZR (mx + 1) * bpow ex)%R ->
  (X < bpow 1023)%R ->
  (binary_round_aux prec emax sx mx ex lx = S754_zero sx \/
   exists m e, binary_round_aux prec emax sx mx ex lx = S754_finite sx m e) /\
  (Rabs (SFmag (binary_round_aux prec emax sx mx ex lx) - X) <= rel_err * X + 4 * abs_err)%R.
Proof.
  intros Hmx HP HX Hov.
  destruct (binary_round_aux_shape sx mx ex lx Hmx)
    as (m1 & m2 & Hm1 & Hm2 & Er).
  cbv zeta in Hm1, Hm2, Er. rewrite Er. clear Er.
  rewrite !fexp_eq in *.
  set (d := Zdigits2 mx) in *.
  replace (Z.max (Z.max (d + ex - 53) (-1074) - ex) 0)
    with (Z.max (d + ex - 53) (-1074) - ex)%Z in * by lia.
  replace (ex + (Z.max (d + ex - 53) (-1074) - ex))%Z
    with (Z.max (d + ex - 53) (-1074)) in * by lia.
  set (n1 := (Z.max (d + ex - 53) (-1074) - ex)%Z) in *.
  set (e1 := Z.max (d + ex - 53) (-1074)) in *.
  set (d1 := Zdigits2 m1) in *.
  set (n2 := Z.max (Z.max (d1 + e1 - 53) (-1074) - e1) 0) in *.
  set (e2 := (e1 + n2)%Z) in *.
  set (q1 := Z.div mx (2 ^ n1)) in *.
  assert (Hn1 : (0 <= n1)%Z) by (unfold n1; lia).
  assert (Hq1 : (0 <= q1)%Z) by (apply Z.div_pos; [lia|apply Z.pow_pos_nonneg; lia]).
  assert (H1 : (0 <= m1)%Z) by lia.
  assert (Hn2 : (0 <= n2)%Z) by (unfold n2; lia).
  assert (H2 : (0 <= m2)%Z).
  { rewrite Hm2. apply Z.div_pos; [lia|apply Z.pow_pos_nonneg; lia]. }
  (* the first shift *)
  destruct (floor_real mx ex n1 Hmx Hn1) as [Fa Fb]. fold q1 in Fa, Fb.
  replace (ex + n1)%Z with e1 in Fa, Fb by (unfold n1; lia).
  (* the second shift *)
  destruct (floor_real m1 e1 n2 H1 Hn2) as [Ga Gb]. rewrite <- Hm2 in Ga, Gb.
  fold e2 in Ga, Gb.
  pose proof (bpow_pos e1) as He1. pose proof (bpow_pos e2) as He2.
  pose proof (bpow_pos ex) as Hex.
  assert (HX0 : (0 <= X)%R).
  { apply IZR_le in Hmx. nra. }
  set (V1 := (IZR m1 * bpow e1)%R) in *.
  set (V := (IZR m2 * bpow e2)%R) in *.
  assert (HV1 : (Rabs (V1 - X) <= bpow e1)%R).
  { assert (IZR q1 <= IZR m1 <= IZR q1 + 1)%R.
    { rewrite <- plus_IZR. split; apply IZR_le; lia. }
    rewrite (plus_IZR q1) in Fb. unfold V1. apply Rabs_le. split; nra. }
  assert (HVV : (V <= V1 /\ V1 + bpow e1 <= V + bpow e2)%R).
  { rewrite !plus_IZR in Gb. split; [exact Ga|unfold V, V1; nra]. }
  assert (HVX : (Rabs (V - X) <= bpow e2)%R).
  { apply Rabs_le. apply Rabs_le_inv in HV1. split; lra. }
  (* the size of the last place *)
  pose proof (bpow_pos (-52)) as Ht.
  assert (Ht1 : (bpow (-52) <= 1)%R).
  { change 1%R with (bpow 0). apply bpow_le. lia. }
  assert (HE1 : (bpow e1 <= bpow (-52) * X + abs_err)%R).
  { destruct (Z.eq_dec e1 (-1074)%Z) as [E|E].
    - rewrite E. fold abs_err. nra.
    - assert (Hpos : (0 < mx)%Z).
      { destruct (Z.eq_dec mx 0%Z) as [E0|E0]; [|lia].
        exfalso. subst mx. unfold d in *. simpl in *. lia. }
      destruct (digits_real mx ex Hpos) as [Hd _]. fold d in Hd.
      replace e1 with (-52 + (d - 1 + ex))%Z by lia.
      rewrite bpow_add. unfold abs_err. pose proof (bpow_pos (-1074)). nra. }
  assert (HE2 : (bpow e2 <= bpow e1 + abs_err + bpow (-52) * V1)%R).
  { assert (HV1pos : (0 <= V1)%R) by (apply IZR_le in H1; unfold V1; nra).
    pose proof (bpow_pos (-1074)) as Heta. fold abs_err in Heta.
    destruct (Z.eq_dec e2 e1) as [E|E]; [rewrite E; nra|].
    destruct (Z.eq_dec e2 (-1074)%Z) as [E'|E']; [rewrite E'; fold abs_err; nra|].
    assert (Hpos : (0 < m1)%Z).
    { destruct (Z.eq_dec m1 0%Z) as [E0|E0]; [|lia].
      exfalso. subst m1. unfold d1 in *. simpl in *. lia. }
    destruct (digits_real m1 e1 Hpos) as [Hd _]. fold d1 V1 in Hd.
    replace e2 with (-52 + (d1 - 1 + e1))%Z by lia.
    rewrite bpow_add. nra. }
  assert (Hbound : (bpow e2 <= rel_err * X + 4 * abs_err)%R).
  { rewrite rel_err_eq. apply Rabs_le_inv in HV1.
    pose proof (bpow_pos (-1074)) as Heta. fold abs_err in Heta. nra. }
  (* no overflow *)
  assert (Hfin : (e2 <= 971)%Z).
  { destruct (Z_le_gt_dec e2 971%Z) as [Hle|Hgt]; [exact Hle|exfalso].
    assert (Hbig : (bpow 1024 <= V1 + bpow e1)%R).
    { destruct (Z.eq_dec e2 e1) as [E|E].
      - assert (Hpos : (0 < mx)%Z).
        { destruct (Z.eq_dec mx 0%Z) as [E0|E0]; [|lia].
          exfalso. subst mx. unfold d in *. simpl in *. lia. }
        destruct (digits_real mx ex Hpos) as [Hd _]. fold d in Hd.
        assert (bpow 1024 <= bpow (d - 1 + ex))%R by (apply bpow_le; lia).
        apply Rabs_le_inv in HV1. lra.
      - assert (Hpos : (0 < m1)%Z).
        { destruct (Z.eq_dec m1 0%Z) as [E0|E0]; [|lia].
          exfalso. subst m1. unfold d1 in *. simpl in *. lia. }
        destruct (digits_real m1 e1 Hpos) as [Hd _]. fold d1 V1 in Hd.
        assert (bpow 1024 <= bpow (d1 - 1 + e1))%R by (apply bpow_le; lia).
        lra. }
    assert (H1024 : bpow 1024 = (2 * bpow 1023)%R).
    { change 1024%Z with (1023 + 1)%Z. apply bpow_succ. }
    apply Rabs_le_inv in HV1.
    assert (Hsmall : (bpow e1 <= bpow (-52) * bpow 1023 + abs_err)%R) by nra.
    assert (Heta : (abs_err <= bpow (-52) * bpow 1023)%R).
    { unfold abs_err. rewrite <- bpow_add. apply bpow_le. lia. }
    assert (Ht4 : (4 * bpow (-52) <= 1)%R).
    { rewrite <- rel_err_eq. unfold rel_err. change 1%R with (bpow 0). apply bpow_le. lia. }
    pose proof (bpow_pos 1023). nra. }
  destruct m2 as [|p|p]; [| |lia].
  - split; [now left|]. simpl SFmag. unfold V in HVX. simpl in HVX.
    rewrite Rmult_0_l in HVX. lra.
  - replace (e2 <=? emax - prec)%Z with true
      by (symmetry; apply Z.leb_le; change (emax - prec)%Z with 971%Z; lia).
    split; [right; eauto|]. simpl SFmag. fold V. lra.
Qed.

(** *** the operations *)



Lemma SFmag_nonneg (x : spec_float) : (0 <= SFmag x)%R.
Proof.
  destruct x as [| | |s m e]; simpl; try lra.
  pose proof (bpow_pos e). assert (0 < IZR (Z.pos m))%R by (apply IZR_lt; lia).
  nra.
Qed.

Lemma valid_finite (s : bool) (m : positive) (e : Z) :
  SpecFloat.valid_binary prec emax (S754_finite s m e) = true ->
  e = Z.max (Zdigits2 (Z.pos m) + e - 53) (-1074) /\ (e <= 971)%Z.
Proof.
  cbv [SpecFloat.valid_binary SpecFloat.bounded SpecFloat.canonical_mantissa]. rewrite fexp_eq.
  intros H. apply andb_true_iff in H as [H1 H2].
  apply Z.eqb_eq in H1. apply Z.leb_le in H2.
  change (emax - prec)%Z with 971%Z in H2. simpl Zdigits2. lia.
Qed.

Lemma round_result_cases (r : spec_float) (s : bool) :
  r = S754_zero s \/ (exists m e, r = S754_finite s m e) ->
  SFfinite r /\ SFsign r = s.
Proof. intros [->|(m & e & ->)]; simpl; auto. Qed.

Lemma Zdigits2_mul (a b : Z) :
  (0 < a)%Z -> (0 < b)%Z -> (Zdigits2 a + Zdigits2 b - 1 <= Zdigits2 (a * b))%Z.
Proof.
  intros Ha Hb.
  destruct (Zdigits2_bounds a Ha) as [Ha1 _].
  destruct (Zdigits2_bounds b Hb) as [Hb1 _].
  destruct (Zdigits2_bounds (a * b) ltac:(lia)) as [_ Hab].
  pose proof (Zdigits2_pos a Ha). pose proof (Zdigits2_pos b Hb).
  assert (H2 : (2 ^ (Zdigits2 a - 1 + (Zdigits2 b - 1)) <= a * b)%Z).
  { rewrite Z.pow_add_r by lia.
    assert (0 < 2 ^ (Zdigits2 a - 1))%Z by (apply Z.pow_pos_nonneg; lia).
    assert (0 < 2 ^ (Zdigits2 b - 1))%Z by (apply Z.pow_pos_nonneg; lia).
    nia. }
  assert (H3 : (2 ^ (Zdigits2 a - 1 + (Zdigits2 b - 1)) < 2 ^ Zdigits2 (a * b))%Z)
    by lia.
  apply Z.pow_lt_mono_r_iff in H3; [lia|lia|apply Zdigits2_nonneg].
Qed.

Lemma Zdigits2_ge (m k : Z) : (0 <= k)%Z -> (2 ^ k <= m)%Z -> (k + 1 <= Zdigits2 m)%Z.
Proof.
  intros Hk Hm.
  assert (Hpos : (0 < m)%Z).
  { assert (0 < 2 ^ k)%Z by (apply Z.pow_pos_nonneg; lia). lia. }
  destruct (Zdigits2_bounds m Hpos) as [_ Hhi].
  assert (H3 : (2 ^ k < 2 ^ Zdigits2 m)%Z) by lia.
  apply Z.pow_lt_mono_r_iff in H3; [lia|lia|apply Zdigits2_nonneg].
Qed.

(** The product of two finite numbers. *)
Lemma SFmul_bound (x y : spec_float) :
  SpecFloat.valid_binary prec emax x = true ->
  SpecFloat.valid_binary prec emax y = true ->
  SFfinite x -> SFfinite y ->
  (SFmag x * SFmag y < bpow 1023)%R ->
  SFfinite (SFmul prec emax x y) /\
  SFsign (SFmul prec emax x y) = xorb (SFsign x) (SFsign y) /\
  (Rabs (SFmag (SFmul prec emax x y) - SFmag x * SFmag y)
   <= rel_err * (SFmag x * SFmag y) + 4 * abs_err)%R.
Proof.
  intros Vx Vy Fx Fy Hov.
  assert (Heta : (0 < abs_err)%R) by apply bpow_pos.
  destruct x as [sx| | |sx mx ex]; try contradiction;
    destruct y as [sy| | |sy my ey]; try contradiction; simpl SFmul.
  1-3: simpl; repeat split; try reflexivity;
       rewrite ?Rmult_0_l, ?Rmult_0_r, Rminus_0_r, Rabs_R0; lra.
  apply valid_finite in Vx as [Ex _]. apply valid_finite in Vy as [Ey _].
  simpl SFmag in *.
  assert (EX : (IZR (Z.pos mx) * bpow ex * (IZR (Z.pos my) * bpow ey)
                = IZR (Z.pos (mx * my)) * bpow (ex + ey))%R).
  { rewrite Pos2Z.inj_mul, mult_IZR, bpow_add. ring. }
  rewrite EX in *.
  destruct (binary_round_aux_bound (xorb sx sy) (Z.pos (mx * my)) (ex + ey)
              loc_Exact (IZR (Z.pos (mx * my)) * bpow (ex + ey)))
    as [Hr Hb].
  - lia.
  - rewrite fexp_eq.
    pose proof (Zdigits2_mul (Z.pos mx) (Z.pos my) ltac:(lia) ltac:(lia)) as Hd.
    pose proof (Zdigits2_pos (Z.pos mx) ltac:(lia)).
    pose proof (Zdigits2_pos (Z.pos my) ltac:(lia)).
    rewrite <- Pos2Z.inj_mul in Hd. lia.
  - split; [lra|]. rewrite plus_IZR. pose proof (bpow_pos (ex + ey)). nra.
  - exact Hov.
  - apply round_result_cases in Hr as [Hf Hs]. simpl SFsign. auto.
Qed.

Lemma pos_iter_xO (m d : positive) :
  Z.pos (Pos.iter xO m d) = (Z.pos m * 2 ^ Z.pos d)%Z.
Proof.
  induction d as [|d IH] using Pos.peano_ind.
  - simpl. lia.
  - rewrite Pos.iter_succ, Pos2Z.inj_xO, IH, Pos2Z.inj_succ, Z.pow_succ_r by lia.
    lia.
Qed.

Lemma digits_iter_xO (m d : positive) :
  Z.pos (digits2_pos (Pos.iter xO m d)) = (Z.pos (digits2_pos m) + Z.pos d)%Z.
Proof.
  induction d as [|d IH] using Pos.peano_ind.
  - simpl. lia.
  - rewrite Pos.iter_succ. simpl digits2_pos. rewrite Pos2Z.inj_succ, IH. lia.
Qed.

Lemma shl_align_spec (mx : positive) (ex e' : Z) :
  exists m e,
    shl_align mx ex e' = (m, e) /\ e = Z.min ex e' /\
    Z.pos m = (Z.pos mx * 2 ^ (ex - e))%Z /\
    (Zdigits2 (Z.pos m) + e = Zdigits2 (Z.pos mx) + ex)%Z.
Proof.
  unfold shl_align. destruct (e' - ex)%Z as [|d|d] eqn:E.
  - exists mx, ex. repeat split; try lia.
    replace (ex - ex)%Z with 0%Z by lia. lia.
  - exists mx, ex. repeat split; try lia.
    replace (ex - ex)%Z with 0%Z by lia. lia.
  - exists (Pos.iter xO mx d), e'. repeat split; try lia.
    + rewrite pos_iter_xO. f_equal. f_equal. lia.
    + simpl Zdigits2. rewrite digits_iter_xO. lia.
Qed.

Lemma binary_round_bound (s : bool) (m : positive) (e : Z) :
  (IZR (Z.pos m) * bpow e < bpow 1023)%R ->
  (binary_round prec emax s m e = S754_zero s \/
   exists m' e', binary_round prec emax s m e = S754_finite s m' e') /\
  (Rabs (SFmag (binary_round prec emax s m e) - IZR (Z.pos m) * bpow e)
   <= rel_err * (IZR (Z.pos m) * bpow e) + 4 * abs_err)%R.
Proof.
  intros Hov. unfold binary_round.
  destruct (shl_align_spec m e (fexp prec emax (Z.pos (digits2_pos m) + e)))
    as (mz & ez & E & He & Hm & Hd).
  rewrite E.
  assert (EX : (IZR (Z.pos m) * bpow e = IZR (Z.pos mz) * bpow ez)%R).
  { rewrite Hm, mult_IZR, IZR_pow2 by lia.
    rewrite Rmult_assoc, <- bpow_add. do 2 f_equal. lia. }
  rewrite EX in *.
  apply binary_round_aux_bound.
  - lia.
  - rewrite Hd. simpl Zdigits2. lia.
  - split; [lra|]. rewrite plus_IZR. pose proof (bpow_pos ez). nra.
  - exact Hov.
Qed.

(** The sum of two finite numbers that are not negative. *)
Lemma SFadd_bound (x y : spec_float) :
  SpecFloat.valid_binary prec emax x = true ->
  SpecFloat.valid_binary prec emax y = true ->
  SFfinite x -> SFfinite y -> SFsign x = false -> SFsign y = false ->
  (SFmag x + SFmag y < bpow 1023)%R ->
  SFfinite (SFadd prec emax x y) /\
  SFsign (SFadd prec emax x y) = false /\
  (Rabs (SFmag (SFadd prec emax x y) - (SFmag x + SFmag y))
   <= rel_err * (SFmag x + SFmag y) + 4 * abs_err)%R.
Proof.
  intros Vx Vy Fx Fy Sx Sy Hov.
  assert (Heta : (0 < abs_err)%R) by apply bpow_pos.
  assert (Hu : (0 < rel_err)%R) by apply bpow_pos.
  destruct x as [sx| | |sx mx ex]; try contradiction;
    destruct y as [sy| | |sy my ey]; try contradiction;
    simpl in Sx, Sy; subst sx sy.
  - simpl. repeat split; auto. rewrite Rplus_0_l, Rminus_0_r, Rabs_R0. lra.
  - pose proof (SFmag_nonneg (S754_finite false my ey)) as Hy.
    simpl SFadd. simpl SFmag in *. repeat split; auto.
    rewrite Rplus_0_l. unfold Rminus. rewrite Rplus_opp_r, Rabs_R0. nra.
  - pose proof (SFmag_nonneg (S754_finite false mx ex)) as Hx.
    simpl SFadd. simpl SFmag in *. repeat split; auto.
    rewrite Rplus_0_r. unfold Rminus. rewrite Rplus_opp_r, Rabs_R0. nra.
  - cbv [SFadd]. cbn [cond_Zopp].
    destruct (shl_align_spec mx ex (Z.min ex ey)) as (a & ea & Ea & Hea & Ha & _).
    destruct (shl_align_spec my ey (Z.min ex ey)) as (b & eb & Eb & Heb & Hb & _).
    rewrite Ea, Eb. cbn [fst]. rewrite <- Pos2Z.inj_add. cbn [binary_normalize].
    simpl SFmag in *.
    assert (EX : (IZR (Z.pos mx) * bpow ex + IZR (Z.pos my) * bpow ey
                  = IZR (Z.pos (a + b)) * bpow (Z.min ex ey))%R).
    { rewrite Pos2Z.inj_add, plus_IZR, Ha, Hb, !mult_IZR, !IZR_pow2 by lia.
      rewrite Rmult_plus_distr_r, !Rmult_assoc, <- !bpow_add.
      f_equal; do 2 f_equal; lia. }
    rewrite EX in *.
    destruct (binary_round_bound false (a + b) (Z.min ex ey) Hov) as [Hr Hbd].
    apply round_result_cases in Hr as [Hf Hs]. auto.
Qed.

Lemma sqrt_bpow (k : Z) : sqrt (bpow k * bpow k) = bpow k.
Proof. apply sqrt_square. pose proof (bpow_pos k). lra. Qed.

Lemma valid_finite_lt (s : bool) (m : positive) (e : Z) :
  SpecFloat.valid_binary prec emax (S754_finite s m e) = true ->
  (IZR (Z.pos m) * bpow e < bpow 1024)%R.
Proof.
  intros V. apply valid_finite in V as [E Hle].
  destruct (digits_real (Z.pos m) e ltac:(lia)) as [_ Hhi].
  assert (bpow (Zdigits2 (Z.pos m) + e) <= bpow 1024)%R by (apply bpow_le; lia).
  lra.
Qed.

(** The square root of a finite number that is not negative. *)
Lemma SFsqrt_bound (x : spec_float) :
  SpecFloat.valid_binary prec emax x = true ->
  SFfinite x -> SFsign x = false ->
  SFfinite (SFsqrt prec emax x) /\
  SFsign (SFsqrt prec emax x) = false /\
  (Rabs (SFmag (SFsqrt prec emax x) - sqrt (SFmag x))
   <= rel_err * sqrt (SFmag x) + 4 * abs_err)%R.
Proof.
  intros Vx Fx Sx.
  assert (Heta : (0 < abs_err)%R) by apply bpow_pos.
  destruct x as [sx| | |sx mx ex]; try contradiction; simpl in Sx; subst sx.
  { simpl. rewrite sqrt_0, Rminus_0_r, Rabs_R0. repeat split; auto. lra. }
  pose proof (valid_finite_lt _ _ _ Vx) as Hlt.
  apply valid_finite in Vx as [Ex Hex].
  cbv [SFsqrt SFsqrt_core_binary]. rewrite fexp_eq.
  set (d := Zdigits2 (Z.pos mx)) in *.
  set (e' := Z.min (Z.max (Z.div2 (d + ex + 1) - 53) (-1074)) (Z.div2 ex)).
  set (s := (ex - 2 * e')%Z).
  assert (Hd : (0 < d)%Z) by (apply Zdigits2_pos; lia).
  assert (Hs : (0 <= s)%Z).
  { unfold s, e'. rewrite (Z.div2_div ex).
    pose proof (Z.mul_div_le ex 2 ltac:(lia)). lia. }
  set (m' := match s with
             | 0%Z => Z.pos mx
             | Z.pos _ => Z.shiftl (Z.pos mx) s
             | Z.neg _ => 0%Z
             end).
  assert (Hm' : m' = (Z.pos mx * 2 ^ s)%Z).
  { unfold m'. destruct s as [|p|p] eqn:E; [simpl; lia| |lia].
    now rewrite Z.shiftl_mul_pow2 by lia. }
  assert (Hm'pos : (0 < m')%Z).
  { rewrite Hm'. assert (0 < 2 ^ s)%Z by (apply Z.pow_pos_nonneg; lia). nia. }
  pose proof (Z.sqrtrem_sqrt m') as Hq.
  destruct (Z.sqrtrem m') as [q r]. simpl in Hq. subst q.
  pose proof (Z.sqrt_spec m' ltac:(lia)) as Hspec. cbv zeta in Hspec.
  pose proof (Z.sqrt_nonneg m') as Hq0.
  set (q := Z.sqrt m') in *.
  simpl SFmag in *.
  assert (EX : (IZR (Z.pos mx) * bpow ex = IZR m' * (bpow e' * bpow e'))%R).
  { rewrite Hm', mult_IZR, IZR_pow2 by lia.
    rewrite Rmult_assoc, <- !bpow_add. do 2 f_equal. lia. }
  assert (Hm'R : (0 < IZR m')%R) by (apply IZR_lt; lia).
  assert (Hsq : sqrt (IZR (Z.pos mx) * bpow ex) = (sqrt (IZR m') * bpow e')%R).
  { rewrite EX, sqrt_mult_alt by lra. now rewrite sqrt_bpow. }
  assert (Hlo : (IZR q <= sqrt (IZR m'))%R).
  { rewrite <- (sqrt_square (IZR q)) by (apply IZR_le; lia).
    apply sqrt_le_1_alt. rewrite <- mult_IZR. apply IZR_le. lia. }
  assert (Hhi : (sqrt (IZR m') < IZR (q + 1))%R).
  { rewrite <- (sqrt_square (IZR (q + 1))) by (apply IZR_le; lia).
    apply sqrt_lt_1_alt. split; [lra|].
    rewrite <- mult_IZR. apply IZR_lt. lia. }
  pose proof (bpow_pos e') as He'.
  destruct (binary_round_aux_bound false q e'
              (if (r =? 0)%Z then loc_Exact
               else loc_Inexact (if (r <=? q)%Z then Lt else Gt))
              (sqrt (IZR (Z.pos mx) * bpow ex))) as [Hr Hb].
  - exact Hq0.
  - rewrite fexp_eq.
    destruct (Z_le_gt_dec e' (-1074)) as [Hle|Hgt]; [lia|].
    assert (Hbig : (2 ^ 52 * 2 ^ 52 <= m')%Z).
    { rewrite Hm'. destruct (Zdigits2_bounds (Z.pos mx) ltac:(lia)) as [Hlo' _].
      fold d in Hlo'.
      assert (H104 : (104 <= d - 1 + s)%Z).
      { unfold s. assert (e' <= Z.div2 (d + ex + 1) - 53)%Z by (unfold e'; lia).
        rewrite Z.div2_div in H.
        pose proof (Z.mul_div_le (d + ex + 1) 2 ltac:(lia)). lia. }
      assert (H2 : (2 ^ 104 <= 2 ^ (d - 1 + s))%Z)
        by (apply Z.pow_le_mono_r; lia).
      rewrite Z.pow_add_r in H2 by lia.
      change (2 ^ 52 * 2 ^ 52)%Z with (2 ^ 104)%Z.
      assert (0 < 2 ^ s)%Z by (apply Z.pow_pos_nonneg; lia).
      nia. }
    assert (Hq52 : (2 ^ 52 <= q)%Z).
    { rewrite <- (Z.sqrt_square (2 ^ 52)) by lia.
      apply Z.sqrt_le_mono. exact Hbig. }
    pose proof (Zdigits2_ge q 52 ltac:(lia) Hq52). lia.
  - rewrite Hsq. split; nra.
  - rewrite Hsq.
    assert (sqrt (IZR m') * bpow e' < bpow 512)%R.
    { rewrite <- Hsq, <- (sqrt_bpow 512), <- bpow_add.
      apply sqrt_lt_1_alt. split; [|exact Hlt].
      pose proof (bpow_pos ex). assert (0 < IZR (Z.pos mx))%R by (apply IZR_lt; lia).
      nra. }
    assert (bpow 512 <= bpow 1023)%R by (apply bpow_le; lia). lra.
  - apply round_result_cases in Hr as [Hf Hs']. auto.
Qed.

(** The quotient of a finite number by a finite number other than zero. *)
Lemma SFdiv_bound (x : spec_float) (sy : bool) (my : positive) (ey : Z) :
  SpecFloat.valid_binary prec emax x = true ->
  SpecFloat.valid_binary prec emax (S754_finite sy my ey) = true ->
  SFfinite x ->
  (SFmag x / (IZR (Z.pos my) * bpow ey) < bpow 1023)%R ->
  SFfinite (SFdiv prec emax x (S754_finite sy my ey)) /\
  SFsign (SFdiv prec emax x (S754_finite sy my ey)) = xorb (SFsign x) sy /\
  (Rabs (SFmag (SFdiv prec emax x (S754_finite sy my ey))
         - SFmag x / (IZR (Z.pos my) * bpow ey))
   <= rel_err * (SFmag x / (IZR (Z.pos my) * bpow ey)) + 4 * abs_err)%R.
Proof.
  intros Vx Vy Fx Hov.
  assert (Heta : (0 < abs_err)%R) by apply bpow_pos.
  destruct x as [sx| | |sx mx ex]; try contradiction.
  { simpl. unfold Rdiv. rewrite Rmult_0_l, Rminus_0_r, Rabs_R0.
    repeat split; auto. lra. }
  apply valid_finite in Vx as [Ex Hex]. apply valid_finite in Vy as [Ey Hey].
  cbv [SFdiv SFdiv_core_binary]. rewrite fexp_eq.
  set (d1 := Zdigits2 (Z.pos mx)) in *. set (d2 := Zdigits2 (Z.pos my)) in *.
  set (e' := Z.min (Z.max (d1 + ex - (d2 + ey) - 53) (-1074)) (ex - ey)).
  set (s := (ex - ey - e')%Z).
  assert (Hs : (0 <= s)%Z) by (unfold s, e'; lia).
  set (m' := match s with
             | 0%Z => Z.pos mx
             | Z.pos _ => Z.shiftl (Z.pos mx) s
             | Z.neg _ => 0%Z
             end).
  assert (Hm' : m' = (Z.pos mx * 2 ^ s)%Z).
  { unfold m'. destruct s as [|p|p] eqn:E; [simpl; lia| |lia].
    now rewrite Z.shiftl_mul_pow2 by lia. }
  assert (Hm'pos : (0 < m')%Z).
  { rewrite Hm'. assert (0 < 2 ^ s)%Z by (apply Z.pow_pos_nonneg; lia). nia. }
  pose proof (Z_div_mod m' (Z.pos my) ltac:(lia)) as Hdiv.
  destruct (Z.div_eucl m' (Z.pos my)) as [q r]. destruct Hdiv as [Hqr Hr].
  assert (Hq0 : (0 <= q)%Z) by nia.
  simpl SFmag in *.
  pose proof (bpow_pos e') as He'. pose proof (bpow_pos ex) as Hex'.
  pose proof (bpow_pos ey) as Hey'.
  assert (HmyR : (0 < IZR (Z.pos my))%R) by (apply IZR_lt; lia).
  assert (EX : (IZR (Z.pos mx) * bpow ex / (IZR (Z.pos my) * bpow ey)
                = IZR m' / IZR (Z.pos my) * bpow e')%R).
  { rewrite Hm', mult_IZR, IZR_pow2 by lia.
    replace ex with (s + e' + ey)%Z at 1 by (unfold s; lia).
    rewrite !bpow_add. field. split; lra. }
  rewrite EX in *.
  assert (Hlo : (IZR q <= IZR m' / IZR (Z.pos my))%R).
  { apply Rmult_le_reg_r with (IZR (Z.pos my)); [lra|]. unfold Rdiv.
    rewrite Rmult_assoc, Rinv_l, Rmult_1_r by lra.
    rewrite <- mult_IZR. apply IZR_le. nia. }
  assert (Hhi : (IZR m' / IZR (Z.pos my) < IZR (q + 1))%R).
  { apply Rmult_lt_reg_r with (IZR (Z.pos my)); [lra|]. unfold Rdiv.
    rewrite Rmult_assoc, Rinv_l, Rmult_1_r by lra.
    rewrite <- mult_IZR. apply IZR_lt. nia. }
  destruct (binary_round_aux_bound (xorb sx sy) q e'
              (new_location (Z.pos my) r)
              (IZR m' / IZR (Z.pos my) * bpow e')) as [Hres Hb].
  - exact Hq0.
  - rewrite fexp_eq.
    destruct (Z_le_gt_dec e' (-1074)) as [Hle|Hgt]; [lia|].
    assert (Hq52 : (2 ^ 52 <= q)%Z).
    { destruct (Zdigits2_bounds (Z.pos mx) ltac:(lia)) as [Hlo' _].
      destruct (Zdigits2_bounds (Z.pos my) ltac:(lia)) as [_ Hhi'].
      fold d1 in Hlo'. fold d2 in Hhi'.
      assert (Hd1 : (0 < d1)%Z) by (apply Zdigits2_pos; lia).
      assert (Hd2 : (0 < d2)%Z) by (apply Zdigits2_pos; lia).
      assert (H1 : (52 + d2 <= d1 - 1 + s)%Z) by (unfold s, e' in *; lia).
      assert (H2 : (2 ^ (52 + d2) <= 2 ^ (d1 - 1 + s))%Z)
        by (apply Z.pow_le_mono_r; lia).
      rewrite !Z.pow_add_r in H2 by lia.
      assert (0 < 2 ^ s)%Z by (apply Z.pow_pos_nonneg; lia).
      assert (H3 : (2 ^ 52 * Z.pos my <= m')%Z) by nia.
      destruct (Z_le_gt_dec (2 ^ 52) q) as [Hok|Hbad]; [exact Hok|exfalso].
      assert (q + 1 <= 2 ^ 52)%Z by lia. nia. }
    pose proof (Zdigits2_ge q 52 ltac:(lia) Hq52). lia.
  - split; nra.
  - exact Hov.
  - apply round_result_cases in Hres as [Hf Hs']. auto.
Qed.

(** *** binary64 values *)


Lemma mag_nonneg (x : float) : (0 <= mag x)%R.
Proof. apply SFmag_nonneg. Qed.

Lemma mul_bound (x y : float) :
  finite64 x -> finite64 y -> (mag x * mag y < bpow 1023)%R ->
  finite64 (x * y) /\
  SFsign (Prim2SF (x * y)) = xorb (SFsign (Prim2SF x)) (SFsign (Prim2SF y)) /\
  (Rabs (mag (x * y) - mag x * mag y) <= rel_err * (mag x * mag y) + 4 * abs_err)%R.
Proof.
  intros Fx Fy Hov. unfold finite64, mag. rewrite mul_spec.
  apply SFmul_bound; auto using Prim2SF_valid.
Qed.

Lemma add_bound (x y : float) :
  finite64 x -> finite64 y -> plus_sign x -> plus_sign y ->
  (mag x + mag y < bpow 1023)%R ->
  finite64 (x + y) /\ plus_sign (x + y) /\
  (Rabs (mag (x + y) - (mag x + mag y)) <= rel_err * (mag x + mag y) + 4 * abs_err)%R.
Proof.
  intros Fx Fy Sx Sy Hov. unfold finite64, plus_sign, mag. rewrite add_spec.
  apply SFadd_bound; auto using Prim2SF_valid.
Qed.

Lemma sqrt_bound (x : float) :
  finite64 x -> plus_sign x ->
  finite64 (PrimFloat.sqrt x) /\ plus_sign (PrimFloat.sqrt x) /\
  (Rabs (mag (PrimFloat.sqrt x) - sqrt (mag x)) <= rel_err * sqrt (mag x) + 4 * abs_err)%R.
Proof.
  intros Fx Sx. unfold finite64, plus_sign, mag. rewrite sqrt_spec.
  apply SFsqrt_bound; auto using Prim2SF_valid.
Qed.

Lemma div_bound (x y : float) :
  finite64 x -> finite64 y -> (0 < mag y)%R ->
  (mag x / mag y < bpow 1023)%R ->
  finite64 (x / y) /\
  SFsign (Prim2SF (x / y)) = xorb (SFsign (Prim2SF x)) (SFsign (Prim2SF y)) /\
  (Rabs (mag (x / y) - mag x / mag y) <= rel_err * (mag x / mag y) + 4 * abs_err)%R.
Proof.
  intros Fx Fy Hy Hov. unfold finite64, mag in *. rewrite div_spec.
  pose proof (Prim2SF_valid y) as Vy.
  destruct (Prim2SF y) as [sy| | |sy my ey]; try contradiction.
  { simpl in Hy. lra. }
  apply SFdiv_bound; auto using Prim2SF_valid.
Qed.

(** *** sums of squares *)



Lemma rel_err_range : (0 < rel_err <= / 4)%R.
Proof.
  split; [apply bpow_pos|].
  assert (H : (bpow (-50) <= bpow (-2))%R) by (apply bpow_le; lia).
  unfold rel_err. replace (/ 4)%R with (bpow (-2)); [exact H|].
  unfold bpow. simpl. lra.
Qed.

Lemma abs_err_pos : (0 < abs_err)%R.
Proof. apply bpow_pos. Qed.

Lemma sumsq_nonneg (v : list float) : (0 <= sumsq v)%R.
Proof.
  induction v as [|x v IH]; simpl; [lra|].
  pose proof (mag_nonneg x). nra.
Qed.

Lemma grow_pow_ge_1 (k : nat) : (1 <= grow ^ k)%R.
Proof.
  apply pow_R1_Rle. unfold grow. pose proof rel_err_range. nra.
Qed.

Lemma shrink_pow_range (k : nat) : (0 <= shrink ^ k <= 1)%R.
Proof.
  assert (H : (0 <= shrink <= 1)%R) by (unfold shrink; pose proof rel_err_range; nra).
  induction k as [|k IH]; simpl; [lra|]. nra.
Qed.

Lemma scale_ge (A W X : R) : (1 <= A -> 0 <= W -> X <= W -> X <= A * W)%R.
Proof. intros. nra. Qed.

Lemma scale_le (B W X : R) : (0 <= B <= 1 -> 0 <= W -> W <= X -> B * W <= X)%R.
Proof. intros. nra. Qed.


(** The running sum of squares: after [k] more terms the accumulator is
    between [shrink^k] and [grow^k] times the exact sum, up to [9 * k]
    absolute errors, as long as the exact sum stays below [2^1023]. *)
Lemma fold_sq_bound (v : list float) (acc : float) (L U : R) :
  finite64 acc -> plus_sign acc ->
  (0 <= L)%R -> (L <= mag acc <= U)%R ->
  Forall bounded64 v ->
  (grow ^ length v * (U + sumsq v + 9 * INR (length v) * abs_err) < bpow 1023)%R ->
  let r := fold_left PrimFloat.add (map (fun x => x * x)%float v) acc in
  finite64 r /\ plus_sign r /\
  (shrink ^ length v * (L + sumsq v) - 9 * INR (length v) * abs_err <= mag r
   <= grow ^ length v * (U + sumsq v + 9 * INR (length v) * abs_err))%R.
Proof.
  revert acc L U. induction v as [|x v IH]; intros acc L U Fa Sa HL HLU Hok Hov.
  - simpl in *. repeat split; auto; lra.
  - inversion Hok as [|? ? [Fx Hx] Hok']; subst.
    cbn [map fold_left]. cbv zeta.
    cbn [length sumsq] in *. rewrite S_INR in *. cbn [pow] in *.
    pose proof rel_err_range as Hu. pose proof abs_err_pos as Heta.
    pose proof (mag_nonneg x) as Ha. set (a := mag x) in *.
    pose proof (sumsq_nonneg v) as HT. set (T := sumsq v) in *.
    pose proof (pos_INR (length v)) as Hk. set (k := INR (length v)) in *.
    pose proof (grow_pow_ge_1 (length v)) as HA. set (A := (grow ^ length v)%R) in *.
    pose proof (shrink_pow_range (length v)) as HB. set (B := (shrink ^ length v)%R) in *.
    assert (Ha2 : (a * a <= bpow 1000)%R).
    { change 1000%Z with (500 + 500)%Z. rewrite bpow_add. nra. }
    assert (H1000 : (bpow 1000 < bpow 1023)%R) by (apply bpow_lt; lia).
    destruct (mul_bound x x Fx Fx) as (Fp & Sp & Bp); [fold a; lra|].
    rewrite xorb_nilpotent in Sp. fold a in Bp.
    apply Rabs_le_inv in Bp. set (p := mag (x * x)) in *.
    assert (HU0 : (0 <= U)%R) by lra.
    assert (Hup : (grow = (1 + rel_err) * (1 + rel_err))%R) by reflexivity.
    assert (Hdn : (shrink = (1 - rel_err) * (1 - rel_err))%R) by reflexivity.
    assert (Hstep : (U + ((1 + rel_err) * (a * a) + 4 * abs_err)
                     <= grow * A * (U + (a * a + T) + 9 * (k + 1) * abs_err))%R).
    { assert (U + ((1 + rel_err) * (a * a) + 4 * abs_err)
              <= grow * (U + a * a + 9 * abs_err))%R by (rewrite Hup; nra).
      assert (grow * (U + a * a + 9 * abs_err)
              <= grow * A * (U + (a * a + T) + 9 * (k + 1) * abs_err))%R.
      { assert (0 <= grow)%R by (rewrite Hup; nra).
        assert (Hke : (0 <= k * abs_err)%R) by nra.
        assert (U + a * a + 9 * abs_err <= A * (U + (a * a + T) + 9 * (k + 1) * abs_err))%R
          by (apply scale_ge; nra).
        nra. }
      lra. }
    destruct (add_bound acc (x * x) Fa Fp Sa Sp) as (Fs & Ss & Bs).
    { fold p. lra. }
    fold p in Bs. apply Rabs_le_inv in Bs. set (s := mag (acc + x * x)) in *.
    set (U' := ((1 + rel_err) * (U + ((1 + rel_err) * (a * a) + 4 * abs_err)) + 4 * abs_err)%R).
    set (L0 := ((1 - rel_err) * (L + ((1 - rel_err) * (a * a) - 4 * abs_err)) - 4 * abs_err)%R).
    assert (HsU : (s <= U')%R) by (unfold U'; nra).
    assert (HsL : (L0 <= s)%R) by (unfold L0; nra).
    assert (Hs0 : (0 <= s)%R) by apply mag_nonneg.
    assert (HU' : (U' <= grow * (U + a * a + 9 * abs_err))%R)
      by (unfold U'; rewrite Hup; nra).
    assert (HL0 : (shrink * (L + a * a) - 8 * abs_err <= L0)%R).
    { assert (0 <= rel_err * (1 - rel_err) * L)%R by (apply Rmult_le_pos; nra).
      assert (0 <= rel_err * abs_err)%R by nra.
      unfold L0. rewrite Hdn. nra. }
    assert (Hup1 : (1 <= grow)%R) by (rewrite Hup; nra).
    assert (Hdn1 : (0 <= shrink <= 1)%R) by (rewrite Hdn; nra).
    destruct (IH (acc + x * x)%float (Rmax 0 L0) U' Fs Ss) as (Fr & Sr & Br).
    + apply Rmax_l.
    + fold s. split; [apply Rmax_lub; assumption|exact HsU].
    + exact Hok'.
    + fold T k A.
      assert (A * (U' + T + 9 * k * abs_err)
              <= grow * A * (U + (a * a + T) + 9 * (k + 1) * abs_err))%R.
      { assert (Hke : (0 <= k * abs_err)%R) by nra.
        assert (T + 9 * k * abs_err <= grow * (T + 9 * k * abs_err))%R
          by (apply scale_ge; nra).
        assert (U' + T + 9 * k * abs_err
                <= grow * (U + (a * a + T) + 9 * (k + 1) * abs_err))%R by nra.
        assert (0 <= U' + T + 9 * k * abs_err)%R by nra.
        apply Rle_trans
          with (A * (grow * (U + (a * a + T) + 9 * (k + 1) * abs_err)))%R;
          [apply Rmult_le_compat_l; lra|right; ring]. }
      lra.
    + fold T k A B in Br. repeat split; auto.
      * pose proof (Rmax_r 0 L0) as HR.
        assert (B * (shrink * (L + a * a) - 8 * abs_err + T) <= B * (Rmax 0 L0 + T))%R
          by (apply Rmult_le_compat_l; lra).
        assert (0 <= B * T * (1 - shrink))%R
          by (apply Rmult_le_pos; [apply Rmult_le_pos|]; lra).
        assert (0 <= (1 - B) * abs_err)%R by (apply Rmult_le_pos; lra).
        assert (shrink * B * (L + (a * a + T)) - 8 * abs_err
                <= B * (shrink * (L + a * a) - 8 * abs_err + T))%R by nra.
        lra.
      * assert (Hke : (0 <= k * abs_err)%R) by nra.
        assert (T + 9 * k * abs_err <= grow * (T + 9 * k * abs_err))%R
          by (apply scale_ge; nra).
        assert (U' + T + 9 * k * abs_err
                <= grow * (U + (a * a + T) + 9 * (k + 1) * abs_err))%R by nra.
        assert (A * (U' + T + 9 * k * abs_err)
                <= A * (grow * (U + (a * a + T) + 9 * (k + 1) * abs_err)))%R
          by (apply Rmult_le_compat_l; lra).
        lra.
Qed.

(** *** powers of the error factors *)

Lemma pow_grow_bound (x : R) (k : nat) :
  (0 <= x)%R -> ((1 + x) ^ k * (1 - INR k * x) <= 1)%R.
Proof.
  intros Hx. induction k as [|k IH].
  - simpl. lra.
  - rewrite S_INR. cbn [pow].
    assert (Hp : (0 <= (1 + x) ^ k)%R) by (apply pow_le; lra).
    assert ((1 + x) * (1 - (INR k + 1) * x) <= 1 - INR k * x)%R.
    { pose proof (pos_INR k). nra. }
    assert ((1 + x) ^ k * ((1 + x) * (1 - (INR k + 1) * x))
            <= (1 + x) ^ k * (1 - INR k * x))%R
      by (apply Rmult_le_compat_l; lra).
    lra.
Qed.

Lemma pow_shrink_bound (x : R) (k : nat) :
  (0 <= x <= 1)%R -> (1 - INR k * x <= (1 - x) ^ k)%R.
Proof.
  intros Hx. induction k as [|k IH].
  - simpl. lra.
  - rewrite S_INR. cbn [pow].
    assert (Hp : (0 <= (1 - x) ^ k)%R) by (apply pow_le; lra).
    pose proof (pos_INR k).
    assert ((1 - x) * (1 - INR k * x) <= (1 - x) * (1 - x) ^ k)%R
      by (apply Rmult_le_compat_l; lra).
    nra.
Qed.


Lemma bpow_mul_le (j a b : Z) : (j + a <= b)%Z -> (bpow j * bpow a <= bpow b)%R.
Proof. intros H. rewrite <- bpow_add. now apply bpow_le. Qed.

Lemma bpow_2 : bpow 2 = 4%R.
Proof. unfold bpow. simpl. lra. Qed.

Lemma bpow_3 : bpow 3 = 8%R.
Proof. unfold bpow. simpl. lra. Qed.

Lemma bpow_4 : bpow 4 = 16%R.
Proof. unfold bpow. simpl. lra. Qed.

Lemma bpow_5 : bpow 5 = 32%R.
Proof. unfold bpow. simpl. lra. Qed.

Lemma bpow_m1 : bpow (-1) = (/ 2)%R.
Proof. unfold bpow. simpl. lra. Qed.

Lemma INR_le_bpow20 (k : nat) : (Z.of_nat k <= 2 ^ 20)%Z -> (INR k <= bpow 20)%R.
Proof.
  intros H. rewrite INR_IZR_INZ, <- IZR_pow2 by lia. now apply IZR_le.
Qed.

Lemma grow_pow_le (k : nat) : (Z.of_nat k <= 2 ^ 20)%Z -> (grow ^ k <= 1 + sum_err)%R.
Proof.
  intros Hk. apply INR_le_bpow20 in Hk. pose proof (pos_INR k) as Hk0.
  pose proof rel_err_range as Hu.
  assert (Hx : (0 <= 2 * rel_err + rel_err * rel_err <= 3 * rel_err)%R) by nra.
  pose proof (pow_grow_bound (2 * rel_err + rel_err * rel_err) k ltac:(lra)) as Hb.
  replace (1 + (2 * rel_err + rel_err * rel_err))%R with grow in Hb by (unfold grow; ring).
  pose proof (grow_pow_ge_1 k) as H1.
  assert (Hku : (INR k * (2 * rel_err + rel_err * rel_err) <= bpow (-28))%R).
  { assert (INR k * (2 * rel_err + rel_err * rel_err) <= bpow 20 * (4 * rel_err))%R by nra.
    assert (bpow 20 * (4 * rel_err) <= bpow (-28))%R.
    { rewrite <- bpow_2. unfold rel_err. rewrite <- !bpow_add. apply bpow_le. lia. }
    lra. }
  assert (He : (sum_err = 2 * bpow (-28))%R).
  { unfold sum_err. rewrite <- bpow_1, <- bpow_add. reflexivity. }
  assert (Hs : (bpow (-28) <= / 4)%R).
  { replace (/ 4)%R with (bpow (-2)) by (unfold bpow; simpl; lra).
    apply bpow_le. lia. }
  pose proof (bpow_pos (-28)) as Hp.
  set (c := bpow (-28)) in *. set (A := (grow ^ k)%R) in *.
  assert (A * (1 - c) <= 1)%R.
  { assert (A * (1 - c) <= A * (1 - INR k * (2 * rel_err + rel_err * rel_err)))%R
      by (apply Rmult_le_compat_l; lra).
    lra. }
  rewrite He. nra.
Qed.

Lemma shrink_pow_ge (k : nat) : (Z.of_nat k <= 2 ^ 20)%Z -> (1 - sum_err <= shrink ^ k)%R.
Proof.
  intros Hk. apply INR_le_bpow20 in Hk. pose proof (pos_INR k) as Hk0.
  pose proof rel_err_range as Hu.
  assert (Hx : (0 <= 2 * rel_err - rel_err * rel_err <= 2 * rel_err)%R) by nra.
  pose proof (pow_shrink_bound (2 * rel_err - rel_err * rel_err) k ltac:(lra)) as Hb.
  replace (1 - (2 * rel_err - rel_err * rel_err))%R with shrink in Hb by (unfold shrink; ring).
  assert (Hku : (INR k * (2 * rel_err - rel_err * rel_err) <= sum_err)%R).
  { assert (INR k * (2 * rel_err - rel_err * rel_err) <= bpow 20 * (2 * rel_err))%R by nra.
    assert (bpow 20 * (2 * rel_err) <= sum_err)%R.
    { rewrite <- bpow_1. unfold rel_err, sum_err. rewrite <- !bpow_add. apply bpow_le. lia. }
    lra. }
  lra.
Qed.

Lemma sumsq_le (v : list float) :
  Forall bounded64 v -> (sumsq v <= INR (length v) * bpow 1000)%R.
Proof.
  induction 1 as [|x v [_ Hx] _ IH]; cbn [sumsq length].
  - simpl. lra.
  - rewrite S_INR. pose proof (mag_nonneg x).
    assert (mag x * mag x <= bpow 1000)%R.
    { change 1000%Z with (500 + 500)%Z. rewrite bpow_add. nra. }
    lra.
Qed.

Lemma zip_with_diag {A B : Type} (f : A -> A -> B) (l : list A) :
  zip_with f l l = map (fun x => f x x) l.
Proof. induction l as [|a l IH]; simpl; congruence. Qed.


(** [v.dot(v)] for at most [2^20] components of magnitude at most
    [2^500]. *)
Lemma dot_bound (v : vec) :
  Forall bounded64 v -> (Z.of_nat (length v) <= 2 ^ 20)%Z ->
  finite64 (dot v v) /\ plus_sign (dot v v) /\
  ((1 - sum_err) * sumsq v - tiny_err <= mag (dot v v) <= (1 + sum_err) * (sumsq v + tiny_err))%R.
Proof.
  intros Hok Hlen. unfold dot. cbn [s_add s_mul s_zero float_scalar].
  rewrite zip_with_diag.
  pose proof (sumsq_nonneg v) as HT. pose proof (sumsq_le v Hok) as HTle.
  pose proof (INR_le_bpow20 _ Hlen) as Hk. pose proof (pos_INR (length v)) as Hk0.
  pose proof (grow_pow_le _ Hlen) as HA. pose proof (shrink_pow_ge _ Hlen) as HB.
  pose proof (grow_pow_ge_1 (length v)) as HA1.
  pose proof (shrink_pow_range (length v)) as HB1.
  pose proof abs_err_pos as Heta.
  assert (Heps : (0 < sum_err <= / 2)%R).
  { split; [apply bpow_pos|]. rewrite <- bpow_m1. apply bpow_le. lia. }
  assert (Hke : (9 * INR (length v) * abs_err <= tiny_err)%R).
  { assert (9 * INR (length v) * abs_err <= bpow 4 * bpow 20 * abs_err)%R
      by (rewrite bpow_4; nra).
    assert (bpow 4 * bpow 20 * abs_err <= tiny_err)%R.
    { unfold abs_err, tiny_err. rewrite <- !bpow_add. apply bpow_le. lia. }
    lra. }
  assert (Hke0 : (0 <= 9 * INR (length v) * abs_err)%R) by nra.
  assert (HT1020 : (sumsq v <= bpow 1020)%R).
  { assert (INR (length v) * bpow 1000 <= bpow 20 * bpow 1000)%R.
    { apply Rmult_le_compat_r; [pose proof (bpow_pos 1000); lra|exact Hk]. }
    rewrite <- bpow_add in H. change (20 + 1000)%Z with 1020%Z in H. lra. }
  assert (Htiny : (tiny_err <= bpow 1020)%R) by (apply bpow_le; lia).
  assert (H1021 : (bpow 1021 = 2 * bpow 1020)%R).
  { change 1021%Z with (1020 + 1)%Z. apply bpow_succ. }
  assert (H1022 : (bpow 1022 = 2 * bpow 1021)%R).
  { change 1022%Z with (1021 + 1)%Z. apply bpow_succ. }
  assert (H1023 : (bpow 1022 < bpow 1023)%R) by (apply bpow_lt; lia).
  pose proof (bpow_pos 1020) as Hp1020.
  set (T := sumsq v) in *. set (A := (grow ^ length v)%R) in *.
  set (B := (shrink ^ length v)%R) in *. set (ke := (9 * INR (length v) * abs_err)%R) in *.
  destruct (fold_sq_bound v 0%float 0 0) as (Fr & Sr & Br).
  - exact I.
  - reflexivity.
  - lra.
  - change (mag 0) with 0%R. lra.
  - exact Hok.
  - fold T A ke.
    assert (A * (0 + T + ke) <= (1 + sum_err) * (0 + T + ke))%R
      by (apply Rmult_le_compat_r; lra).
    assert ((1 + sum_err) * (0 + T + ke) <= 2 * (0 + T + ke))%R
      by (apply Rmult_le_compat_r; lra).
    lra.
  - fold T A B ke in Br. repeat split; auto.
    + assert ((1 - sum_err) * T <= B * (0 + T))%R.
      { rewrite Rplus_0_l. apply Rmult_le_compat_r; lra. }
      lra.
    + assert (A * (0 + T + ke) <= (1 + sum_err) * (0 + T + ke))%R
        by (apply Rmult_le_compat_r; lra).
      assert ((1 + sum_err) * (0 + T + ke) <= (1 + sum_err) * (T + tiny_err))%R
        by (apply Rmult_le_compat_l; lra).
      lra.
Qed.


Lemma sum_err_range : (0 < sum_err <= / 16)%R.
Proof.
  split; [apply bpow_pos|]. replace (/ 16)%R with (bpow (-4)).
  - apply bpow_le. lia.
  - unfold bpow. simpl. lra.
Qed.

Lemma rel_err_le : (16 * rel_err <= sum_err)%R.
Proof.
  rewrite <- bpow_4. unfold rel_err, sum_err. apply bpow_mul_le. lia.
Qed.

Lemma norm_err_eq : norm_err = (4 * sum_err)%R.
Proof. unfold norm_err, sum_err. rewrite <- bpow_2, <- bpow_add. reflexivity. Qed.

Lemma abs_err_le : (abs_err <= / 16)%R.
Proof.
  replace (/ 16)%R with (bpow (-4)).
  - apply bpow_le. lia.
  - unfold bpow. simpl. lra.
Qed.

Lemma sq_le_sq (a b : R) : (0 <= a -> a <= b -> a * a <= b * b)%R.
Proof. intros. nra. Qed.

Lemma sq_le_inv (a b : R) : (0 <= b -> a * a <= b * b -> a <= b)%R.
Proof. intros. nra. Qed.

(** [norm v] when the exact sum of squares is at least [2^-1000]. *)
Lemma norm_bound (v : vec) :
  Forall bounded64 v -> (Z.of_nat (length v) <= 2 ^ 20)%Z ->
  (bpow (-1000) <= sumsq v)%R ->
  finite64 (norm v) /\ plus_sign (norm v) /\ (0 < mag (norm v))%R /\
  ((1 - norm_err) * sumsq v <= mag (norm v) * mag (norm v)
   <= (1 + norm_err) * sumsq v)%R.
Proof.
  intros Hok Hlen HT.
  destruct (dot_bound v Hok Hlen) as (Fs & Ss & Bs).
  unfold norm. cbn [s_sqrt float_scalar].
  destruct (sqrt_bound (dot v v) Fs Ss) as (Fn & Sn & Bn).
  apply Rabs_le_inv in Bn.
  pose proof (mag_nonneg (dot v v)) as HS0.
  pose proof sum_err_range as He. pose proof rel_err_le as Hue.
  pose proof rel_err_range as Hu. pose proof abs_err_pos as Heta.
  pose proof (bpow_pos (-1000)) as Hp1000.
  assert (Htiny : (tiny_err <= bpow (-50) * sumsq v)%R).
  { assert (tiny_err = bpow (-50) * bpow (-1000))%R
      by (unfold tiny_err; rewrite <- bpow_add; reflexivity).
    pose proof (bpow_pos (-50)). nra. }
  fold rel_err in Htiny.
  set (T := sumsq v) in *. set (Sq := mag (dot v v)) in *.
  set (n := mag (PrimFloat.sqrt (dot v v))) in *.
  assert (HeT : (0 <= sum_err * T)%R) by nra.
  assert (HuT : (0 <= rel_err * T)%R) by nra.
  assert (HSlo : ((1 - 2 * sum_err) * T <= Sq)%R) by nra.
  assert (HShi : (Sq <= (1 + 3 * sum_err) * T)%R).
  { assert ((1 + sum_err) * (T + tiny_err) <= (1 + sum_err) * (T + rel_err * T))%R
      by (apply Rmult_le_compat_l; lra).
    assert (0 <= sum_err * (rel_err * T))%R by (apply Rmult_le_pos; lra).
    assert (sum_err * (rel_err * T) <= sum_err * T)%R.
    { apply Rmult_le_compat_l; [lra|]. nra. }
    nra. }
  pose proof (sqrt_pos Sq) as Hs0. pose proof (sqrt_sqrt Sq HS0) as Hss.
  set (sg := sqrt Sq) in *.
  assert (Hsg : (bpow (-501) <= sg)%R).
  { apply sq_le_inv; [exact Hs0|]. rewrite Hss, <- bpow_add.
    change (-501 + -501)%Z with (-1002)%Z.
    assert (bpow (-1002) <= bpow (-1) * bpow (-1000))%R
      by (rewrite <- bpow_add; apply bpow_le; lia).
    rewrite bpow_m1 in H. nra. }
  assert (H4eta : (4 * abs_err <= rel_err * sg)%R).
  { assert (4 * abs_err <= rel_err * bpow (-501))%R.
    { rewrite <- bpow_2. unfold abs_err, rel_err. rewrite <- !bpow_add. apply bpow_le. lia. }
    assert (rel_err * bpow (-501) <= rel_err * sg)%R by (apply Rmult_le_compat_l; lra).
    lra. }
  pose proof (bpow_pos (-501)) as Hp501.
  assert (Hnlo : ((1 - 2 * rel_err) * sg <= n)%R) by lra.
  assert (Hnhi : (n <= (1 + 2 * rel_err) * sg)%R) by lra.
  assert (Hn0 : (0 < n)%R) by nra.
  split; [exact Fn|]. split; [exact Sn|]. split; [exact Hn0|].
  rewrite norm_err_eq.
  assert (Hlo2 : ((1 - 2 * rel_err) * sg * ((1 - 2 * rel_err) * sg) <= n * n)%R)
    by (apply sq_le_sq; nra).
  assert (Hhi2 : (n * n <= (1 + 2 * rel_err) * sg * ((1 + 2 * rel_err) * sg))%R)
    by (apply sq_le_sq; lra).
  assert (E1 : ((1 - 2 * rel_err) * sg * ((1 - 2 * rel_err) * sg)
                = (1 - 2 * rel_err) * (1 - 2 * rel_err) * Sq)%R) by (rewrite <- Hss; ring).
  assert (E2 : ((1 + 2 * rel_err) * sg * ((1 + 2 * rel_err) * sg)
                = (1 + 2 * rel_err) * (1 + 2 * rel_err) * Sq)%R) by (rewrite <- Hss; ring).
  rewrite E1 in Hlo2. rewrite E2 in Hhi2.
  assert (Hc1 : (1 - 4 * rel_err <= (1 - 2 * rel_err) * (1 - 2 * rel_err))%R) by nra.
  assert (Hc2 : ((1 + 2 * rel_err) * (1 + 2 * rel_err) <= 1 + 5 * rel_err)%R) by nra.
  assert (HT0 : (0 < T)%R) by lra.
  split.
  - assert ((1 - 4 * rel_err) * Sq <= (1 - 2 * rel_err) * (1 - 2 * rel_err) * Sq)%R
      by (apply Rmult_le_compat_r; lra).
    assert ((1 - 4 * rel_err) * ((1 - 2 * sum_err) * T) <= (1 - 4 * rel_err) * Sq)%R
      by (apply Rmult_le_compat_l; lra).
    assert ((1 - 4 * sum_err) * T <= (1 - 4 * rel_err) * ((1 - 2 * sum_err) * T))%R.
    { rewrite <- Rmult_assoc. apply Rmult_le_compat_r; [lra|]. nra. }
    lra.
  - assert ((1 + 2 * rel_err) * (1 + 2 * rel_err) * Sq <= (1 + 5 * rel_err) * Sq)%R
      by (apply Rmult_le_compat_r; lra).
    assert ((1 + 5 * rel_err) * Sq <= (1 + 5 * rel_err) * ((1 + 3 * sum_err) * T))%R
      by (apply Rmult_le_compat_l; lra).
    assert ((1 + 5 * rel_err) * ((1 + 3 * sum_err) * T) <= (1 + 4 * sum_err) * T)%R.
    { rewrite <- Rmult_assoc. apply Rmult_le_compat_r; [lra|]. nra. }
    lra.
Qed.

(** One component divided by the norm. *)
Lemma div_elem (x nf : float) :
  finite64 x -> finite64 nf -> (0 < mag nf)%R -> (mag x <= 2 * mag nf)%R ->
  finite64 (x / nf) /\ (mag (x / nf) <= 3)%R /\
  (shrink * (mag x / mag nf * (mag x / mag nf)) - 16 * abs_err
   <= mag (x / nf) * mag (x / nf)
   <= grow * (mag x / mag nf * (mag x / mag nf)) + 21 * abs_err)%R.
Proof.
  intros Fx Fn Hn Hx.
  pose proof (mag_nonneg x) as Ha.
  assert (Hw : (0 <= mag x / mag nf <= 2)%R).
  { split.
    - apply Rmult_le_pos; [lra|]. left. now apply Rinv_0_lt_compat.
    - apply Rmult_le_reg_r with (mag nf); [lra|]. unfold Rdiv.
      rewrite Rmult_assoc, Rinv_l by lra. lra. }
  destruct (div_bound x nf Fx Fn Hn) as (Fy & _ & By).
  { assert (bpow 1 < bpow 1023)%R by (apply bpow_lt; lia).
    rewrite bpow_1 in H. lra. }
  apply Rabs_le_inv in By. pose proof (mag_nonneg (x / nf)) as Hy.
  pose proof rel_err_range as Hu. pose proof abs_err_pos as Heta.
  pose proof abs_err_le as Heta1.
  set (w := (mag x / mag nf)%R) in *. set (y := mag (x / nf)) in *.
  assert (Hup : (grow = (1 + rel_err) * (1 + rel_err))%R) by reflexivity.
  assert (Hdn : (shrink = (1 - rel_err) * (1 - rel_err))%R) by reflexivity.
  split; [exact Fy|]. split; [nra|]. split.
  - destruct (Rle_lt_dec 0 ((1 - rel_err) * w - 4 * abs_err)) as [Hpos|Hneg].
    + assert (((1 - rel_err) * w - 4 * abs_err) * ((1 - rel_err) * w - 4 * abs_err) <= y * y)%R
        by (apply sq_le_sq; lra).
      assert (0 <= (1 - rel_err) * w * abs_err)%R
        by (apply Rmult_le_pos; [apply Rmult_le_pos|]; lra).
      assert ((1 - rel_err) * w * abs_err <= 2 * abs_err)%R.
      { apply Rmult_le_compat_r; [lra|]. nra. }
      rewrite Hdn. nra.
    + assert (0 <= (1 - rel_err) * w)%R by (apply Rmult_le_pos; lra).
      assert ((1 - rel_err) * w * ((1 - rel_err) * w) <= 4 * abs_err * (4 * abs_err))%R
        by (apply sq_le_sq; lra).
      assert (0 <= y * y)%R by nra.
      rewrite Hdn. nra.
  - assert (y * y <= ((1 + rel_err) * w + 4 * abs_err) * ((1 + rel_err) * w + 4 * abs_err))%R
      by (apply sq_le_sq; lra).
    assert (0 <= (1 + rel_err) * w * abs_err)%R
      by (apply Rmult_le_pos; [apply Rmult_le_pos|]; lra).
    assert ((1 + rel_err) * w * abs_err <= 5 / 2 * abs_err)%R.
    { apply Rmult_le_compat_r; [lra|]. nra. }
    rewrite Hup. nra.
Qed.

Lemma normalize_sumsq (nf : float) (v : list float) :
  finite64 nf -> (0 < mag nf)%R ->
  Forall (fun x => finite64 x /\ (mag x <= 2 * mag nf)%R) v ->
  Forall bounded64 (map (fun x => x / nf)%float v) /\
  (shrink * (sumsq v / (mag nf * mag nf)) - 16 * INR (length v) * abs_err
   <= sumsq (map (fun x => x / nf)%float v)
   <= grow * (sumsq v / (mag nf * mag nf)) + 21 * INR (length v) * abs_err)%R.
Proof.
  intros Fn Hn. induction 1 as [|x v [Fx Hx] _ [IHok IH]].
  - simpl. split; [constructor|]. unfold Rdiv. rewrite Rmult_0_l. lra.
  - destruct (div_elem x nf Fx Fn Hn Hx) as (Fy & Hy3 & Hy).
    cbn [map sumsq length]. rewrite S_INR. split.
    + constructor; [|exact IHok]. split; [exact Fy|].
      assert (bpow 2 <= bpow 500)%R by (apply bpow_le; lia).
      rewrite bpow_2 in H. lra.
    + assert (E : ((mag x * mag x + sumsq v) / (mag nf * mag nf)
                   = mag x / mag nf * (mag x / mag nf)
                     + sumsq v / (mag nf * mag nf))%R) by (field; lra).
      rewrite E. lra.
Qed.

Lemma sumsq_elem (v : list float) :
  Forall (fun x => (mag x * mag x <= sumsq v)%R) v.
Proof.
  induction v as [|x v IH]; [constructor|].
  pose proof (mag_nonneg x) as Hx. pose proof (sumsq_nonneg v) as Hv.
  constructor; [simpl; nra|].
  eapply Forall_impl; [exact IH|]. intros y Hy. simpl in *. nra.
Qed.

(** *** the stored vector *)

Lemma normalize_eq (v : vec) :
  normalize v = map (fun x => x / norm v)%float v.
Proof. reflexivity. Qed.

(** The exact sum of the squares of the stored components. *)
Lemma stored_sumsq_bound (v : vec) :
  Forall bounded64 v -> (Z.of_nat (length v) <= 2 ^ 20)%Z ->
  (bpow (-1000) <= sumsq v)%R ->
  Forall bounded64 (normalize v) /\
  (Rabs (sumsq (normalize v) - 1) <= bpow (-23))%R.
Proof.
  intros Hok Hlen HT.
  destruct (norm_bound v Hok Hlen HT) as (Fn & Sn & Hn & Hn2).
  pose proof (bpow_pos (-1000)) as Hp1000.
  pose proof sum_err_range as He. pose proof rel_err_le as Hue.
  pose proof rel_err_range as Hu. pose proof abs_err_pos as Heta.
  pose proof norm_err_eq as Hd.
  assert (Hsmall : (Forall (fun x => finite64 x /\ (mag x <= 2 * mag (norm v))%R) v)).
  { pose proof (sumsq_elem v) as Hel.
    rewrite Forall_forall in Hok, Hel. apply Forall_forall. intros x Hx.
    destruct (Hok x Hx) as [Fx _]. specialize (Hel x Hx). split; [exact Fx|].
    apply sq_le_inv; [lra|]. nra. }
  destruct (normalize_sumsq (norm v) v Fn Hn Hsmall) as [Hoky Hy].
  rewrite normalize_eq. split; [exact Hoky|].
  pose proof (INR_le_bpow20 _ Hlen) as Hk. pose proof (pos_INR (length v)) as Hk0.
  assert (Hke : (21 * INR (length v) * abs_err <= sum_err)%R).
  { assert (21 * INR (length v) * abs_err <= bpow 5 * bpow 20 * abs_err)%R
      by (rewrite bpow_5; nra).
    assert (bpow 5 * bpow 20 * abs_err <= sum_err)%R.
    { unfold abs_err, sum_err. rewrite <- !bpow_add. apply bpow_le. lia. }
    lra. }
  assert (Hke0 : (0 <= INR (length v) * abs_err)%R) by nra.
  assert (Hb : (bpow (-23) = 16 * sum_err)%R).
  { unfold sum_err. rewrite <- bpow_4, <- bpow_add. reflexivity. }
  set (T := sumsq v) in *. set (n := mag (norm v)) in *.
  set (Zq := sumsq (map (fun x => (x / norm v)%float) v)) in *.
  assert (Hnn : (0 < n * n)%R) by nra.
  set (q := (T / (n * n))%R) in *.
  assert (Hq : (q * (n * n) = T)%R) by (unfold q; field; lra).
  assert (Hq0 : (0 <= q)%R).
  { unfold q. apply Rmult_le_pos; [lra|]. left. now apply Rinv_0_lt_compat. }
  assert (Hqhi : (q <= 1 + 2 * norm_err)%R).
  { assert ((1 - norm_err) * q * (n * n) <= 1 * (n * n))%R by nra.
    assert ((1 - norm_err) * q <= 1)%R by (apply Rmult_le_reg_r with (n * n)%R; lra).
    nra. }
  assert (Hqlo : (1 - norm_err <= q)%R).
  { assert (1 * (n * n) <= (1 + norm_err) * q * (n * n))%R by nra.
    assert (1 <= (1 + norm_err) * q)%R by (apply Rmult_le_reg_r with (n * n)%R; lra).
    nra. }
  assert (Hup : (grow <= 1 + 3 * rel_err)%R) by (unfold grow; nra).
  assert (Hdn : (1 - 2 * rel_err <= shrink)%R) by (unfold shrink; nra).
  assert (Hdn0 : (0 <= shrink)%R) by (unfold shrink; nra).
  assert (Hup0 : (0 <= grow)%R) by (unfold grow; nra).
  apply Rabs_le. rewrite Hb. split.
  - assert ((1 - 2 * rel_err) * (1 - norm_err) <= shrink * q)%R.
    { apply Rmult_le_compat; lra. }
    nra.
  - assert (grow * q <= (1 + 3 * rel_err) * (1 + 2 * norm_err))%R.
    { apply Rmult_le_compat; lra. }
    nra.
Qed.

Lemma sqrt_near_1 (z : R) : (0 <= z -> Rabs (sqrt z - 1) <= Rabs (z - 1))%R.
Proof.
  intros Hz. pose proof (sqrt_pos z) as Hs. pose proof (sqrt_sqrt z Hz) as Hss.
  set (s := sqrt z) in *.
  apply Rabs_le. unfold Rabs. destruct (Rcase_abs (z - 1)); split; nra.
Qed.

(** *** subtraction, absolute value and comparison *)

(** The difference of two finite numbers that are not negative. *)
Lemma SFsub_bound (x y : spec_float) :
  SpecFloat.valid_binary prec emax x = true ->
  SpecFloat.valid_binary prec emax y = true ->
  SFfinite x -> SFfinite y -> SFsign x = false -> SFsign y = false ->
  (SFmag x + SFmag y < bpow 1023)%R ->
  SFfinite (SFsub prec emax x y) /\
  (Rabs (SFmag (SFsub prec emax x y) - Rabs (SFmag x - SFmag y))
   <= rel_err * Rabs (SFmag x - SFmag y) + 4 * abs_err)%R.
Proof.
  intros Vx Vy Fx Fy Sx Sy Hov.
  assert (Heta : (0 < abs_err)%R) by apply bpow_pos.
  assert (Hu : (0 < rel_err)%R) by apply bpow_pos.
  destruct x as [sx| | |sx mx ex]; try contradiction;
    destruct y as [sy| | |sy my ey]; try contradiction;
    simpl in Sx, Sy; subst sx sy.
  - simpl. split; auto. rewrite Rminus_0_r, Rabs_R0, Rminus_0_r, Rabs_R0. lra.
  - pose proof (SFmag_nonneg (S754_finite false my ey)) as Hy.
    simpl SFsub. simpl SFmag in *. split; auto.
    rewrite Rminus_0_l, Rabs_Ropp, (Rabs_pos_eq _ Hy).
    unfold Rminus. rewrite Rplus_opp_r, Rabs_R0. nra.
  - pose proof (SFmag_nonneg (S754_finite false mx ex)) as Hx.
    simpl SFsub. simpl SFmag in *. split; auto.
    rewrite Rminus_0_r, (Rabs_pos_eq _ Hx).
    unfold Rminus. rewrite Rplus_opp_r, Rabs_R0. nra.
  - pose proof (SFmag_nonneg (S754_finite false mx ex)) as Hx.
    pose proof (SFmag_nonneg (S754_finite false my ey)) as Hy.
    cbv [SFsub]. cbn [cond_Zopp].
    destruct (shl_align_spec mx ex (Z.min ex ey)) as (a & ea & Ea & Hea & Ha & _).
    destruct (shl_align_spec my ey (Z.min ex ey)) as (b & eb & Eb & Heb & Hb & _).
    rewrite Ea, Eb. cbn [fst]. simpl SFmag in *.
    assert (EX : (IZR (Z.pos mx) * bpow ex - IZR (Z.pos my) * bpow ey
                  = IZR (Z.pos a - Z.pos b) * bpow (Z.min ex ey))%R).
    { rewrite minus_IZR, Ha, Hb, !mult_IZR, !IZR_pow2 by lia.
      rewrite Rmult_minus_distr_r, !Rmult_assoc, <- !bpow_add.
      f_equal; [|f_equal]; do 2 f_equal; lia. }
    rewrite EX in *.
    pose proof (bpow_pos (Z.min ex ey)) as Hez.
    assert (Hle : (Rabs (IZR (Z.pos a - Z.pos b) * bpow (Z.min ex ey))
                   < bpow 1023)%R).
    { rewrite <- EX. unfold Rabs. destruct (Rcase_abs _); lra. }
    destruct (Z.pos a - Z.pos b)%Z as [|m|m] eqn:E; cbn [binary_normalize].
    + simpl. rewrite Rmult_0_l, Rabs_R0, Rminus_0_r, Rabs_R0. split; auto. lra.
    + assert (Hpos : (0 <= IZR (Z.pos m) * bpow (Z.min ex ey))%R).
      { assert (0 < IZR (Z.pos m))%R by (apply IZR_lt; lia). nra. }
      rewrite (Rabs_pos_eq _ Hpos) in *.
      destruct (binary_round_bound false m (Z.min ex ey) Hle) as [Hr Hbd].
      apply round_result_cases in Hr as [Hf _]. auto.
    + assert (Hpos : (0 <= IZR (Z.pos m) * bpow (Z.min ex ey))%R).
      { assert (0 < IZR (Z.pos m))%R by (apply IZR_lt; lia). nra. }
      assert (En : (Rabs (IZR (Z.neg m) * bpow (Z.min ex ey))
                    = IZR (Z.pos m) * bpow (Z.min ex ey))%R).
      { replace (IZR (Z.neg m)) with (- IZR (Z.pos m))%R
          by (rewrite <- opp_IZR; reflexivity).
        rewrite Ropp_mult_distr_l_reverse, Rabs_Ropp. now apply Rabs_pos_eq. }
      rewrite En in *.
      destruct (binary_round_bound true m (Z.min ex ey) Hle) as [Hr Hbd].
      apply round_result_cases in Hr as [Hf _]. auto.
Qed.

Lemma sub_bound (x y : float) :
  finite64 x -> finite64 y -> plus_sign x -> plus_sign y ->
  (mag x + mag y < bpow 1023)%R ->
  finite64 (x - y) /\
  (Rabs (mag (x - y) - Rabs (mag x - mag y))
   <= rel_err * Rabs (mag x - mag y) + 4 * abs_err)%R.
Proof.
  intros Fx Fy Sx Sy Hov. unfold finite64, mag. rewrite sub_spec.
  apply SFsub_bound; auto using Prim2SF_valid.
Qed.

Lemma abs_fin (x : float) :
  finite64 x -> finite64 (abs x) /\ plus_sign (abs x) /\ mag (abs x) = mag x.
Proof.
  unfold finite64, plus_sign, mag. rewrite abs_spec.
  destruct (Prim2SF x); simpl; intros H; try contradiction; auto.
Qed.

Lemma valid_lt (s1 s2 : bool) (m1 m2 : positive) (e1 e2 : Z) :
  SpecFloat.valid_binary prec emax (S754_finite s1 m1 e1) = true ->
  SpecFloat.valid_binary prec emax (S754_finite s2 m2 e2) = true ->
  (e1 < e2)%Z ->
  (IZR (Z.pos m1) * bpow e1 < IZR (Z.pos m2) * bpow e2)%R.
Proof.
  intros V1 V2 He.
  apply valid_finite in V1 as [E1 _]. apply valid_finite in V2 as [E2 _].
  destruct (digits_real (Z.pos m1) e1 ltac:(lia)) as [_ H1].
  destruct (digits_real (Z.pos m2) e2 ltac:(lia)) as [H2 _].
  assert (bpow (Zdigits2 (Z.pos m1) + e1) <= bpow (Zdigits2 (Z.pos m2) - 1 + e2))%R
    by (apply bpow_le; lia).
  lra.
Qed.

(** [<=?] on finite numbers that are not negative is [<=] on what they
    stand for. *)
Lemma SFleb_mag (x y : spec_float) :
  SpecFloat.valid_binary prec emax x = true ->
  SpecFloat.valid_binary prec emax y = true ->
  SFfinite x -> SFfinite y -> SFsign x = false -> SFsign y = false ->
  SFleb x y = true <-> (SFmag x <= SFmag y)%R.
Proof.
  intros Vx Vy Fx Fy Sx Sy.
  destruct x as [sx| | |sx mx ex]; try contradiction;
    destruct y as [sy| | |sy my ey]; try contradiction;
    simpl in Sx, Sy; subst sx sy.
  - simpl. split; [lra|reflexivity].
  - pose proof (SFmag_nonneg (S754_finite false my ey)).
    simpl in *. split; [lra|reflexivity].
  - assert (0 < SFmag (S754_finite false mx ex))%R.
    { simpl. pose proof (bpow_pos ex).
      assert (0 < IZR (Z.pos mx))%R by (apply IZR_lt; lia). nra. }
    simpl in *. split; [discriminate|lra].
  - unfold SFleb, SFcompare. simpl SFmag.
    destruct (Z.compare_spec ex ey) as [E|E|E].
    + subst ey. pose proof (bpow_pos ex) as He.
      change (Pos.compare_cont Eq mx my) with (Pos.compare mx my).
      destruct (Pos.compare_spec mx my) as [Em|Em|Em].
      * subst. split; [lra|reflexivity].
      * split; [|reflexivity]. intros _.
        assert (IZR (Z.pos mx) <= IZR (Z.pos my))%R by (apply IZR_le; lia). nra.
      * split; [discriminate|]. intros Hle.
        assert (IZR (Z.pos my) < IZR (Z.pos mx))%R by (apply IZR_lt; lia). nra.
    + pose proof (valid_lt _ _ _ _ _ _ Vx Vy E). split; [lra|reflexivity].
    + pose proof (valid_lt _ _ _ _ _ _ Vy Vx E). split; [discriminate|lra].
Qed.

Lemma leb_mag (x y : float) :
  finite64 x -> finite64 y -> plus_sign x -> plus_sign y ->
  (x <=? y)%float = true <-> (mag x <= mag y)%R.
Proof.
  intros Fx Fy Sx Sy. rewrite FloatAxioms.leb_spec.
  apply SFleb_mag; auto using Prim2SF_valid.
Qed.

Lemma leb_fin (x c : float) :
  finite64 c -> (abs x <=? c)%float = true -> finite64 x.
Proof.
  unfold finite64. rewrite FloatAxioms.leb_spec, abs_spec.
  destruct (Prim2SF x) as [s|s| |s m e]; simpl; auto;
    destruct (Prim2SF c); simpl; try contradiction; discriminate.
Qed.

(** *** the class of inputs *)




Lemma mag_2p500 : mag 0x1p500 = bpow 500.
Proof.
  unfold mag. change (Prim2SF 0x1p500) with (S754_finite false (2 ^ 52) 448).
  cbv [SFmag]. change (Z.pos (2 ^ 52)) with (2 ^ 52)%Z.
  rewrite IZR_pow2, <- bpow_add by lia. reflexivity.
Qed.

Lemma mag_2m500 : mag 0x1p-500 = bpow (-500).
Proof.
  unfold mag. change (Prim2SF 0x1p-500) with (S754_finite false (2 ^ 52) (-552)).
  cbv [SFmag]. change (Z.pos (2 ^ 52)) with (2 ^ 52)%Z.
  rewrite IZR_pow2, <- bpow_add by lia. reflexivity.
Qed.

Lemma mag_1 : mag 1 = 1%R.
Proof.
  unfold mag. change (Prim2SF 1) with (S754_finite false (2 ^ 52) (-52)).
  cbv [SFmag]. change (Z.pos (2 ^ 52)) with (2 ^ 52)%Z.
  rewrite IZR_pow2, <- bpow_add by lia. reflexivity.
Qed.

Lemma in_range_ok (x : float) : in_range x = true -> bounded64 x.
Proof.
  unfold in_range. intros H.
  assert (Fx : finite64 x) by (apply (leb_fin x 0x1p500); [exact I|exact H]).
  destruct (abs_fin x Fx) as (Fa & Sa & Ea).
  apply leb_mag in H; [|exact Fa|exact I|exact Sa|reflexivity].
  rewrite Ea, mag_2p500 in H. split; assumption.
Qed.

Lemma not_tiny_ge (x : float) :
  finite64 x -> not_tiny x = true -> (bpow (-500) <= mag x)%R.
Proof.
  unfold not_tiny. intros Fx H.
  destruct (abs_fin x Fx) as (Fa & Sa & Ea).
  apply leb_mag in H; [|exact I|exact Fa|reflexivity|exact Sa].
  now rewrite Ea, mag_2m500 in H.
Qed.

Lemma class_sumsq (v : vec) :
  Forall (fun x => in_range x = true) v ->
  Exists (fun x => not_tiny x = true) v ->
  Forall bounded64 v /\ (bpow (-1000) <= sumsq v)%R.
Proof.
  intros Hr Ht.
  assert (Hok : Forall bounded64 v).
  { eapply Forall_impl; [exact Hr|]. intros x. apply in_range_ok. }
  split; [exact Hok|].
  apply Exists_exists in Ht as (x & Hx & Hnt).
  pose proof (sumsq_elem v) as Hel. rewrite Forall_forall in Hok, Hel.
  destruct (Hok x Hx) as [Fx _]. specialize (Hel x Hx).
  pose proof (not_tiny_ge x Fx Hnt) as Hge.
  pose proof (bpow_pos (-500)).
  change (-1000)%Z with (-500 + -500)%Z. rewrite bpow_add. nra.
Qed.

Lemma B2R_sq (x : float) : (B2R x * B2R x = mag x * mag x)%R.
Proof.
  unfold B2R, mag. destruct (Prim2SF x) as [| | |s m e]; cbv [SF2R SFmag];
    try ring.
  destruct s; cbv [cond_Zopp]; [|ring]. rewrite opp_IZR. ring.
Qed.

Lemma sum_squares_sumsq (l : list float) (a : R) :
  sum_squares (map B2R l) a = (a + sumsq l)%R.
Proof.
  unfold sum_squares. revert a. induction l as [|x l IH]; intros a; simpl.
  - ring.
  - rewrite IH, B2R_sq. ring.
Qed.

Lemma real_norm_eq (l : list float) : norm (map B2R l) = sqrt (sumsq l).
Proof.
  unfold norm, dot. cbn [s_sqrt s_add s_mul s_zero R_scalar].
  fold (sum_squares (map B2R l) 0). rewrite sum_squares_sumsq. f_equal. ring.
Qed.

Lemma fin_is_finite (x : float) : finite64 x -> is_finite x = true.
Proof.
  unfold finite64, is_finite, is_nan, is_infinity.
  rewrite !FloatAxioms.eqb_spec, abs_spec.
  change (Prim2SF infinity) with (S754_infinity false).
  destruct (Prim2SF x) as [s| | |s m e]; try contradiction; intros _.
  - reflexivity.
  - unfold SFeqb, SFcompare. simpl SFabs. cbv iota.
    rewrite Z.compare_refl.
    change (Pos.compare_cont Eq m m) with (Pos.compare m m).
    rewrite Pos.compare_refl. destruct s; reflexivity.
Qed.


Lemma mag_isclose_tol : (bpow (-17) <= mag isclose_tol)%R.
Proof.
  unfold mag.
  change (Prim2SF isclose_tol) with (S754_finite false 5908861061690644 (-69)).
  cbv [SFmag].
  assert (IZR (2 ^ 52) <= IZR 5908861061690644)%R by (apply IZR_le; lia).
  rewrite IZR_pow2 in H by lia.
  change (-17)%Z with (52 + -69)%Z. rewrite bpow_add.
  pose proof (bpow_pos (-69)). nra.
Qed.

Lemma well_scaled_spec (v : vec) :
  well_scaled v = true ->
  (Z.of_nat (length v) <= 2 ^ 20)%Z /\
  Forall (fun x => in_range x = true) v /\
  Exists (fun x => not_tiny x = true) v.
Proof.
  unfold well_scaled. intros H.
  apply andb_true_iff in H as [H Hex]. apply andb_true_iff in H as [Hlen Hall].
  apply Z.leb_le in Hlen. split; [exact Hlen|]. split.
  - clear Hlen Hex. induction v as [|x v IH]; [constructor|].
    simpl in Hall. apply andb_true_iff in Hall as [Hx Hv].
    constructor; auto.
  - clear Hlen Hall. induction v as [|x v IH]; [discriminate Hex|].
    simpl in Hex. apply orb_true_iff in Hex as [Hx|Hv].
    + now apply Exists_cons_hd.
    + apply Exists_cons_tl. now apply IH.
Qed.

(** The stored vector of a well scaled vector: its components are finite,
    the norm numpy computes for it passes [isclose _ 1], and its exact norm
    is within [2^-23] of 1. *)
Lemma stored_norm_close (v : vec) :
  well_scaled v = true ->
  isclose (norm (normalize v)) 1 = true /\
  Forall (fun y => is_finite y = true) (normalize v) /\
  (Rabs (norm (map B2R (normalize v)) - 1) <= bpow (-23))%R.
Proof.
  intros Hws. destruct (well_scaled_spec v Hws) as (Hlen & Hr & Ht).
  destruct (class_sumsq v Hr Ht) as [Hok HT].
  destruct (stored_sumsq_bound v Hok Hlen HT) as [Hoky HZ].
  assert (Hleny : (Z.of_nat (length (normalize v)) <= 2 ^ 20)%Z).
  { rewrite normalize_eq, length_map. exact Hlen. }
  split; [|split].
  - destruct (dot_bound (normalize v) Hoky Hleny) as (Fs & Ss & Bs).
    destruct (sqrt_bound _ Fs Ss) as (Fr & Sr & Br).
    change (PrimFloat.sqrt (dot (normalize v) (normalize v)))
      with (norm (normalize v)) in *.
    apply Rabs_le_inv in Br. apply Rabs_le_inv in HZ.
    pose proof (mag_nonneg (dot (normalize v) (normalize v))) as HS0.
    pose proof (sqrt_near_1 _ HS0) as Hsq. apply Rabs_le_inv in Hsq.
    pose proof sum_err_range as He. pose proof rel_err_le as Hue.
    pose proof rel_err_range as Hu. pose proof abs_err_pos as Heta.
    assert (Hb : (bpow (-23) = 16 * sum_err)%R).
    { unfold sum_err. rewrite <- bpow_4, <- bpow_add. reflexivity. }
    assert (Htiny : (tiny_err <= sum_err)%R) by (apply bpow_le; lia).
    assert (Htiny0 : (0 < tiny_err)%R) by apply bpow_pos.
    assert (Heta' : (4 * abs_err <= sum_err)%R).
    { rewrite <- bpow_2. unfold abs_err, sum_err. apply bpow_mul_le. lia. }
    rewrite Hb in HZ.
    set (Zq := sumsq (normalize v)) in *.
    set (Sq := mag (dot (normalize v) (normalize v))) in *.
    set (sg := sqrt Sq) in *. set (r := norm (normalize v)) in *.
    assert (HS : (Rabs (Sq - 1) <= 20 * sum_err)%R).
    { apply Rabs_le. split; nra. }
    apply Rabs_le_inv in HS.
    assert (Hsg : (- (20 * sum_err) <= sg - 1 <= 20 * sum_err)%R).
    { unfold Rabs in Hsq. destruct (Rcase_abs (Sq - 1)); lra. }
    assert (Hr1 : (Rabs (mag r - 1) <= 24 * sum_err)%R).
    { apply Rabs_le. split; nra. }
    unfold isclose. fold isclose_tol.
    destruct (sub_bound r 1 Fr I Sr eq_refl) as (Fd & Bd).
    { rewrite mag_1. apply Rabs_le_inv in Hr1.
      assert (bpow 2 < bpow 1023)%R by (apply bpow_lt; lia).
      rewrite bpow_2 in H. lra. }
    rewrite mag_1 in Bd. apply Rabs_le_inv in Bd.
    destruct (abs_fin _ Fd) as (Fa & Sa & Ea).
    apply leb_mag; [exact Fa|exact I|exact Sa|reflexivity|].
    rewrite Ea. pose proof mag_isclose_tol as Htol.
    assert (H17 : (32 * sum_err <= bpow (-17))%R).
    { rewrite <- bpow_5. unfold sum_err. apply bpow_mul_le. lia. }
    pose proof (Rabs_pos (mag r - 1)). nra.
  - rewrite Forall_forall in Hoky. apply Forall_forall. intros y Hy.
    apply fin_is_finite. now destruct (Hoky y Hy).
  - rewrite real_norm_eq.
    eapply Rle_trans; [apply sqrt_near_1, sumsq_nonneg|exact HZ].
Qed.

(** C5, as the code has it. Every call [add(v, m)] stores the componentwise
    quotient of [v] by [sqrt(v.dot(v))], so in every state that repeated
    [add] reaches from an empty store the stored vectors are these quotients,
    in call order. When every added vector is well scaled (at most [2^20]
    components, each of magnitude at most [2^500], one of magnitude at least
    [2^-500]), every stored vector has finite components, the norm numpy
    computes for it passes [np.isclose(norm, 1.0)], and its exact norm is
    within [2^-23] of 1. Carried out on real numbers the quotient of any
    nonzero vector has norm exactly 1; in binary64 this fails once
    [v.dot(v)] overflows or underflows. *)
Theorem stored_vector_is_normalized :
  (forall (Meta : Type) (vms : list (vec * Meta)) (p : option string)
          (disk : gmap string (VS.file Meta)),
     exists w,
       VS.run (add_calls vms) (VS.mk_world (VS.mk_store [] [] p) disk) = Ok w /\
       VS.embeddings (VS.obj w) = map (fun vm => normalize (fst vm)) vms /\
       (Forall (fun vm => well_scaled (fst vm) = true) vms ->
        Forall (fun e => isclose (norm e) 1 = true /\
                         Forall (fun y => is_finite y = true) e /\
                         (Rabs (norm (map B2R e) - 1) <= bpow (-23))%R)
               (VS.embeddings (VS.obj w)))) /\
  (forall v : list R, Exists (fun x => x <> 0%R) v -> norm (normalize v) = 1%R).
Proof.
  split.
  - intros Meta vms p disk.
    destruct (run_add_calls vms (VS.mk_world (VS.mk_store [] [] p) disk))
      as (w & Hrun & He & _).
    exists w. split; [exact Hrun|]. split; [exact He|].
    intros Hws. rewrite He. simpl. clear Hrun He.
    induction Hws as [|[v m] vms Hv _ IH]; simpl; constructor; [|exact IH].
    now apply stored_norm_close.
  - exact real_unit_norm.
Qed.

Lemma stored_vector_is_normalized_witness :
  (exists w : VS.world string,
     VS.run (add_calls [([3; 4]%float, "m")])
            (VS.mk_world (VS.mk_store [] [] None) ∅) = Ok w /\
     Forall (fun e => isclose (norm e) 1 = true /\
                      Forall (fun y => is_finite y = true) e /\
                      (Rabs (norm (map B2R e) - 1) <= bpow (-23))%R)
            (VS.embeddings (VS.obj w))) /\
  norm (normalize [3; 4]%R) = 1%R.
Proof.
  split.
  - destruct (proj1 stored_vector_is_normalized string
                [([3; 4]%float, "m")] None ∅) as (w & Hrun & _ & Hall).
    exists w. split; [exact Hrun|]. apply Hall. repeat constructor.
  - apply (proj2 stored_vector_is_normalized [3; 4]%R).
    apply Exists_cons_hd. lra.
Defined.

(** C5 fails at [1e200]: the squared norm overflows, the quotient is 0,
    and the norm of what is stored is 0, not close to 1. *)
Lemma add_overflow_not_unit :
  VS.add [1e200]%float "meta" (VS.mk_world (VS.mk_store [] [] None) ∅)
  = Ok (VS.mk_world (VS.mk_store [[0%float]] ["meta"] None) ∅)
  /\ norm [0%float] = 0%float
  /\ isclose (norm [0%float]) 1 = false.
Proof. repeat split; reflexivity. Qed.

(** ** Persistence *)

Section Persistence.
Context {Meta : Type}.
Implicit Types (w : VS.world Meta) (p : option string) (f : string).

Lemma init_loads p f (disk : gmap string (VS.file Meta)) es ms :
  VS.truthy p = Some f ->
  disk !! f = Some (VS.Pickled es ms) ->
  VS.init p disk = Ok (VS.mk_world (VS.mk_store es ms p) disk).
Proof.
  intros Hp Hf. unfold VS.init. rewrite Hp.
  destruct (decide (is_Some (disk !! f))) as [_|Hn].
  - unfold VS.load. simpl. rewrite Hp, Hf. reflexivity.
  - exfalso. apply Hn. rewrite Hf. eauto.
Qed.

Lemma save_writes w f :
  VS.truthy (VS.pickle_path (VS.obj w)) = Some f ->
  VS.save w
  = Ok (VS.mk_world (VS.obj w)
          (<[f := VS.Pickled (VS.embeddings (VS.obj w)) (VS.metadata (VS.obj w))]>
             (VS.fs w))).
Proof. intros Hp. unfold VS.save. now rewrite Hp. Qed.

(** C3. For a store with a persistence location, [add(v, m)] then [save()]
    and then a new store opened on the same location: the new store's
    metadata is the old one's followed by [m], and its embeddings are the old
    one's followed by [v / norm(v)], which are the sequences of the store
    that was saved. *)
Theorem save_then_open_round_trip w (v : vec) (m : Meta) f :
  VS.truthy (VS.pickle_path (VS.obj w)) = Some f ->
  exists w1 w2 w3,
    VS.add v m w = Ok w1 /\
    VS.save w1 = Ok w2 /\
    VS.init (VS.pickle_path (VS.obj w)) (VS.fs w2) = Ok w3 /\
    VS.metadata (VS.obj w3) = VS.metadata (VS.obj w) ++ [m] /\
    VS.embeddings (VS.obj w3) = VS.embeddings (VS.obj w) ++ [normalize v] /\
    VS.metadata (VS.obj w3) = VS.metadata (VS.obj w2) /\
    VS.embeddings (VS.obj w3) = VS.embeddings (VS.obj w2).
Proof.
  intros Hp.
  destruct (add_appends v m w) as (w1 & Hadd & He & Hm & Hpath).
  assert (Hp1 : VS.truthy (VS.pickle_path (VS.obj w1)) = Some f)
    by now rewrite Hpath.
  pose proof (save_writes w1 f Hp1) as Hsave.
  eexists w1, _, _. split; [exact Hadd|]. split; [exact Hsave|].
  split.
  - apply (init_loads _ f); [exact Hp|]. simpl. apply lookup_insert_eq.
  - simpl. auto.
Qed.

End Persistence.

Lemma save_then_open_round_trip_witness :
  exists w1 w2 w3 : VS.world string,
    VS.add [3; 4]%float "m" (VS.mk_world (VS.mk_store [] [] (Some "idx.pkl")) ∅)
    = Ok w1 /\
    VS.save w1 = Ok w2 /\
    VS.init (Some "idx.pkl") (VS.fs w2) = Ok w3 /\
    VS.metadata (VS.obj w3) = [] ++ ["m"] /\
    VS.embeddings (VS.obj w3) = [] ++ [normalize [3; 4]%float] /\
    VS.metadata (VS.obj w3) = VS.metadata (VS.obj w2) /\
    VS.embeddings (VS.obj w3) = VS.embeddings (VS.obj w2).
Proof.
  apply (save_then_open_round_trip
           (VS.mk_world (VS.mk_store [] [] (Some "idx.pkl")) ∅)
           [3; 4]%float "m" "idx.pkl").
  reflexivity.
Defined.

(** ** The two sequences stay parallel *)

Section Invariant.
Context {Meta : Type}.
Implicit Types (w : VS.world Meta) (cs : list (VS.call Meta)).

Lemma run_call_holds (c : VS.call Meta) acc w :
  holds acc w ->
  exists w', VS.run_call c w = Ok w' /\ holds (inserted acc [c]) w'.
Proof.
  intros (He & Hm & Hd). destruct w as [[es ms p] disk]. simpl in *.
  unfold disk_agrees in *. simpl in *. subst es ms.
  destruct c as [e m| | |]; simpl.
  - unfold VS.add, VS.save. simpl.
    destruct (VS.truthy p) as [f|] eqn:Hp; eexists; (split; [reflexivity|]);
      unfold holds, disk_agrees; simpl; rewrite !map_app; simpl;
      (split; [reflexivity|split; [reflexivity|]]).
    + intros f' Hf'. rewrite Hp in Hf'. inversion Hf'; subst f'.
      right. apply lookup_insert_eq.
    + intros f' Hf'. rewrite Hp in Hf'. discriminate.
  - unfold VS.save. simpl.
    destruct (VS.truthy p) as [f|] eqn:Hp; eexists; (split; [reflexivity|]);
      unfold holds, disk_agrees; simpl;
      (split; [reflexivity|split; [reflexivity|]]).
    + intros f' Hf'. rewrite Hp in Hf'. inversion Hf'; subst f'.
      right. apply lookup_insert_eq.
    + intros f' Hf'. rewrite Hp in Hf'. discriminate.
  - unfold VS.load. simpl.
    destruct (VS.truthy p) as [f|] eqn:Hp.
    + destruct (Hd f eq_refl) as [Hf|Hf]; rewrite Hf; simpl;
        eexists; (split; [reflexivity|]);
        unfold holds, disk_agrees; simpl;
        (split; [reflexivity|split; [reflexivity|]]);
        intros f' Hf'; rewrite Hp in Hf'; inversion Hf'; subst f'; auto.
    + eexists. split; [reflexivity|].
      unfold holds, disk_agrees. simpl.
      split; [reflexivity|split; [reflexivity|]].
      intros f' Hf'. rewrite Hp in Hf'. discriminate.
  - unfold VS.clear. simpl.
    destruct (VS.truthy p) as [f|] eqn:Hp.
    + destruct (decide (is_Some (disk !! f))) as [Hs|Hs];
        eexists; (split; [reflexivity|]);
        unfold holds, disk_agrees; simpl;
        (split; [reflexivity|split; [reflexivity|]]);
        intros f' Hf'; rewrite Hp in Hf'; inversion Hf'; subst f'; left.
      * apply lookup_delete_eq.
      * now apply eq_None_not_Some.
    + eexists. split; [reflexivity|].
      unfold holds, disk_agrees. simpl.
      split; [reflexivity|split; [reflexivity|]].
      intros f' Hf'. rewrite Hp in Hf'. discriminate.
Qed.

Lemma inserted_cons (c : VS.call Meta) acc cs :
  inserted acc (c :: cs) = inserted (inserted acc [c]) cs.
Proof. destruct c; reflexivity. Qed.

Lemma run_holds cs acc w :
  holds acc w -> exists w', VS.run cs w = Ok w' /\ holds (inserted acc cs) w'.
Proof.
  revert acc w. induction cs as [|c cs IH]; intros acc w Hw.
  - exists w. split; [reflexivity|exact Hw].
  - destruct (run_call_holds c acc w Hw) as (w1 & Hc & Hw1).
    destruct (IH _ w1 Hw1) as (w' & Hrun & Hw').
    exists w'. split.
    + simpl. rewrite Hc. exact Hrun.
    + rewrite inserted_cons. exact Hw'.
Qed.

Lemma init_empty_agrees (p : option string) (disk : gmap string (VS.file Meta)) :
  VS.init p disk = Ok (VS.mk_world (VS.mk_store [] [] p) disk) ->
  holds [] (VS.mk_world (VS.mk_store [] [] p) disk).
Proof.
  intros Hinit. split; [reflexivity|split; [reflexivity|]].
  intros f Hp. simpl in *. unfold VS.init in Hinit. rewrite Hp in Hinit.
  destruct (decide (is_Some (disk !! f))) as [Hs|Hs].
  - right. unfold VS.load in Hinit. simpl in Hinit. rewrite Hp in Hinit.
    destruct (disk !! f) as [file|]; [|now destruct Hs].
    destruct file as [es ms| |]; simpl in Hinit; try discriminate.
    inversion Hinit. reflexivity.
  - left. now apply eq_None_not_Some.
Qed.

(** C4. Start from the empty store that the constructor gives at a location
    (no file there, or a file holding two empty sequences) and make any
    calls of add, save, load and clear. Every call returns, and in the state
    reached the two sequences have one length and hold, position by
    position, the vector and the metadata of the same inserted pair. *)
Theorem parallel_sequences cs (p : option string)
    (disk : gmap string (VS.file Meta)) :
  VS.init p disk = Ok (VS.mk_world (VS.mk_store [] [] p) disk) ->
  exists w,
    VS.run cs (VS.mk_world (VS.mk_store [] [] p) disk) = Ok w /\
    length (VS.embeddings (VS.obj w)) = length (VS.metadata (VS.obj w)) /\
    VS.embeddings (VS.obj w) = map fst (inserted [] cs) /\
    VS.metadata (VS.obj w) = map snd (inserted [] cs).
Proof.
  intros Hinit.
  destruct (run_holds cs [] _ (init_empty_agrees p disk Hinit))
    as (w & Hrun & He & Hm & _).
  exists w. split; [exact Hrun|]. split; [|split; assumption].
  now rewrite He, Hm, !length_map.
Qed.

End Invariant.

Lemma parallel_sequences_witness :
  exists w : VS.world string,
    VS.run [VS.CallAdd [3; 4]%float "a"; VS.CallSave; VS.CallLoad;
            VS.CallClear; VS.CallLoad; VS.CallAdd [0; 2]%float "b"]
           (VS.mk_world (VS.mk_store [] [] (Some "idx.pkl")) ∅) = Ok w /\
    length (VS.embeddings (VS.obj w)) = length (VS.metadata (VS.obj w)) /\
    VS.embeddings (VS.obj w)
    = map fst (inserted [] [VS.CallAdd [3; 4]%float "a"; VS.CallSave;
                            VS.CallLoad; VS.CallClear; VS.CallLoad;
                            VS.CallAdd [0; 2]%float "b"]) /\
    VS.metadata (VS.obj w)
    = map snd (inserted [] [VS.CallAdd [3; 4]%float "a"; VS.CallSave;
                            VS.CallLoad; VS.CallClear; VS.CallLoad;
                            VS.CallAdd [0; 2]%float "b"]).
Proof.
  apply (parallel_sequences _ (Some "idx.pkl") ∅).
  reflexivity.
Defined.

(** ** Opening a store on a file *)

(** C6, as the code has it. Where a file exists at the location, opening a
    store on a file that is no pickle stream, or whose pickled value does
    not unpack into two values, raises the very exception that [pickle.load]
    or the unpacking raises for that file (EOFError, UnpicklingError,
    TypeError, ValueError, ...), and so never gives an empty store for it; a
    file that holds two lists is loaded as it is, with no check that the two
    have one length. *)
Theorem open_on_existing_file {Meta : Type} (p : option string) (f : string)
    (disk : gmap string (VS.file Meta)) (file : VS.file Meta) :
  VS.truthy p = Some f ->
  disk !! f = Some file ->
  match file with
  | VS.Pickled es ms =>
      VS.init p disk = Ok (VS.mk_world (VS.mk_store es ms p) disk)
  | VS.PickledOther e => VS.init p disk = Raise e
  | VS.Garbage e => VS.init p disk = Raise e
  end.
Proof.
  intros Hp Hf. unfold VS.init. rewrite Hp.
  destruct (decide (is_Some (disk !! f))) as [_|Hn].
  - unfold VS.load. simpl. rewrite Hp, Hf. destruct file; reflexivity.
  - exfalso. apply Hn. rewrite Hf. eauto.
Qed.

Lemma open_on_existing_file_witness :
  VS.init (Some "idx.pkl")
    ({[ "idx.pkl" := VS.Garbage EOFError ]} : gmap string (VS.file string))
  = Raise EOFError.
Proof.
  apply (open_on_existing_file (Some "idx.pkl") "idx.pkl"
           ({[ "idx.pkl" := VS.Garbage EOFError ]} : gmap string (VS.file string))
           (VS.Garbage EOFError)).
  - reflexivity.
  - reflexivity.
Defined.

(** C6 fails on a file with one vector and no metadata: the store opens. *)
Lemma open_accepts_unequal_lengths :
  VS.init (Some "idx.pkl")
    ({[ "idx.pkl" := VS.Pickled [[1%float]] [] ]} : gmap string (VS.file string))
  = Ok (VS.mk_world (VS.mk_store [[1%float]] [] (Some "idx.pkl"))
          {[ "idx.pkl" := VS.Pickled [[1%float]] [] ]})
  /\ length [[1%float]] <> length ([] : list string).
Proof. split; [reflexivity|discriminate]. Qed.

(** ** Empty input *)

Lemma lstrip_nil (s : ES.pystr) :
  ES.lstrip s = [] <-> forallb ES.is_space s = true.
Proof.
  induction s as [|c s IH]; simpl; [tauto|].
  destruct (ES.is_space c); simpl; [exact IH|].
  split; discriminate.
Qed.

Lemma lstrip_suffix (s : ES.pystr) :
  forallb ES.is_space (ES.lstrip s) = true -> forallb ES.is_space s = true.
Proof.
  induction s as [|c s IH]; simpl; [tauto|].
  destruct (ES.is_space c) eqn:E; simpl; [exact IH|].
  rewrite E. simpl. discriminate.
Qed.

Lemma forallb_reverse {A : Type} (P : A -> bool) (l : list A) :
  forallb P (reverse l) = forallb P l.
Proof.
  induction l as [|a l IH]; [reflexivity|].
  rewrite reverse_cons, forallb_app, IH. simpl.
  rewrite andb_true_r. apply andb_comm.
Qed.

(** [not t.strip()] holds for the texts made of whitespace only, the empty
    text among them. *)
Lemma blank_spec (s : ES.pystr) :
  ES.blank s = true <-> forallb ES.is_space s = true.
Proof.
  unfold ES.blank, ES.strip. split.
  - intros Hb.
    assert (Hr : ES.lstrip (reverse (ES.lstrip s)) = []).
    { destruct (ES.lstrip (reverse (ES.lstrip s))) as [|c t] eqn:E;
        [reflexivity|].
      rewrite reverse_cons in Hb.
      destruct (reverse t) in Hb; simpl in Hb; discriminate. }
    apply lstrip_nil in Hr. rewrite forallb_reverse in Hr.
    now apply lstrip_suffix.
  - intros Hs. apply lstrip_nil in Hs. rewrite Hs. reflexivity.
Qed.

(** C9, as the code has it. [get_embedding] raises ValueError("Empty input")
    exactly for a text that is empty or whitespace only, for the empty list,
    and for a list with a text that is empty or whitespace only; and
    [get_batch_embeddings] raises it for the empty list of texts, whatever
    the batch size. *)
Theorem empty_input_rejected (post : list ES.pystr -> ES.response)
    (text : ES.text_arg) (batch_size : Z) :
  (ES.get_embedding post text = Raise ES.EmptyInput <->
   (exists s, text = ES.Str s /\ ES.blank s = true) \/
   text = ES.Lst [] \/
   (exists l t, text = ES.Lst l /\ t ∈ l /\ ES.blank t = true)) /\
  ES.get_batch_embeddings post [] batch_size = Raise ES.EmptyInput.
Proof.
  split; [|reflexivity].
  unfold ES.get_embedding. destruct text as [s|l].
  - destruct (ES.blank s) eqn:Hb; simpl.
    + split; [|reflexivity]. intros _. left. eauto.
    + split.
      * destruct (post [s]) as [| | |es]; try discriminate.
        destruct (getitem es 0) eqn:Eg; simpl; [discriminate|].
        unfold getitem in Eg. destruct (es !! 0); [discriminate|].
        inversion Eg. discriminate.
      * intros [(s' & Hs & Hb')|[Hl|(l & t & Hl & _)]]; try discriminate.
        inversion Hs; subst s'. congruence.
  - destruct l as [|t0 l]; simpl.
    + split; [|reflexivity]. intros _. right. now left.
    + destruct (ES.blank t0 || existsb ES.blank l) eqn:Hb; simpl.
      * split; [|reflexivity]. intros _. right. right.
        apply orb_true_iff in Hb as [Hb|Hb].
        -- exists (t0 :: l), t0. repeat split; [left|exact Hb].
        -- apply existsb_exists in Hb as (t & Hin & Ht).
           exists (t0 :: l), t. repeat split; [|exact Ht].
           right. now apply list_elem_of_In.
      * split.
        -- destruct (post (t0 :: l)); discriminate.
        -- intros [(s & Hs & _)|[Hl|(l' & t & Hl & Hin & Ht)]];
             try discriminate.
           inversion Hl; subst l'. apply orb_false_iff in Hb as [Hb0 Hbl].
           apply elem_of_cons in Hin as [->|Hin]; [congruence|].
           assert (existsb ES.blank l = true); [|congruence].
           apply existsb_exists. exists t. split; [|exact Ht].
           now apply list_elem_of_In.
Qed.

(** C9 fails at the text of one space: it is rejected, and it is neither
    the empty string nor a sequence. *)
Lemma single_space_rejected :
  ES.get_embedding echo_provider (ES.Str (ES.str " ")) = Raise ES.EmptyInput
  /\ ~ listed_empty_input (ES.Str (ES.str " ")).
Proof.
  split; [reflexivity|].
  intros [H|[H|(l & t & H & _)]]; discriminate H.
Qed.

Example embed_one_text :
  ES.get_embedding echo_provider (ES.Str (ES.str "def f(): pass"))
  = Ok (ES.One [1%float]).
Proof. reflexivity. Qed.

Example embed_in_batches :
  ES.get_batch_embeddings echo_provider
    [ES.str "a"; ES.str "b"; ES.str "c"; ES.str "d"; ES.str "e"] 2
  = Ok [[1]; [1]; [1]; [1]; [1]]%float.
Proof. reflexivity. Qed.

(** The batches of [get_batch_embeddings] are the texts, cut in order: the
    fuel given, the number of texts, is enough for every positive size. *)
Lemma batches_concat (fuel b : nat) (texts : list ES.pystr) :
  1 <= b -> length texts <= fuel ->
  concat (ES.batches fuel b texts) = texts.
Proof.
  intros Hb. revert texts. induction fuel as [|fuel IH]; intros texts Hlen.
  - destruct texts; [reflexivity|simpl in Hlen; lia].
  - destruct texts as [|t texts]; [reflexivity|].
    cbn [ES.batches concat]. rewrite IH.
    + apply take_drop.
    + rewrite length_drop. simpl in *. lia.
Qed.

(** ** The repository's tests, run on the model *)

(** test_search: a stored vector is its own best match, with score 1. *)
Example test_search :
  (w ← VS.add [0.1; 0.2; 0.3; 0.4; 0.5]%float "test.py"
         (VS.mk_world (VS.mk_store [] [] None) ∅);
   r ← VS.search (VS.obj w) [0.1; 0.2; 0.3; 0.4; 0.5]%float 1;
   Ok (map (fun ms => (fst ms, isclose (snd ms) 1)) r))
  = Ok [("test.py", true)].
Proof. reflexivity. Qed.

(** test_multiple_saves: the first vector the test adds is the zero vector,
    and the store is expected to hold all three entries. *)
Example test_multiple_saves :
  (w ← VS.run [VS.CallAdd [0; 0; 0]%float 0%nat; VS.CallSave;
                VS.CallAdd [0.1; 0.2; 0.3]%float 1%nat; VS.CallSave;
                VS.CallAdd [0.2; 0.4; 0.6]%float 2%nat; VS.CallSave]
         (VS.mk_world (VS.mk_store [] [] (Some "tmp")) {[ "tmp" := VS.Pickled [] [] ]});
   final_store ← VS.init (Some "tmp") (VS.fs w);
   Ok (VS.size (VS.obj final_store), VS.metadata (VS.obj final_store)))
  = Ok (3, [0; 1; 2]).
Proof. reflexivity. Qed.

(** test_clear: after [clear] the store is empty and the file is gone. *)
Example test_clear :
  (w ← VS.run [VS.CallAdd [0.1; 0.2; 0.3]%float 1%nat; VS.CallClear]
         (VS.mk_world (VS.mk_store [] [] (Some "tmp")) {[ "tmp" := VS.Pickled [] [] ]});
   Ok (VS.size (VS.obj w), VS.fs w !! "tmp"))
  = Ok (0, None).
Proof. reflexivity. Qed.

(** * More of the store *)

(** ** add, save and load *)

(** X2. On a store with a persistence location [add] alone is durable: when
    it returns, the file at the location holds the store as it now is, so
    that [load] changes nothing and a store opened on the location has the
    same two sequences. *)
Theorem add_is_durable {Meta : Type} (v : vec) (m : Meta) (w : VS.world Meta)
    (f : string) :
  VS.truthy (VS.pickle_path (VS.obj w)) = Some f ->
  exists w',
    VS.add v m w = Ok w' /\
    VS.fs w' !! f
    = Some (VS.Pickled (VS.embeddings (VS.obj w')) (VS.metadata (VS.obj w'))) /\
    VS.load w' = Ok w' /\
    VS.init (VS.pickle_path (VS.obj w)) (VS.fs w') = Ok w'.
Proof.
  intros Hp. destruct w as [[es ms p] disk]. simpl in Hp.
  unfold VS.add, VS.save. simpl. rewrite Hp. eexists. split; [reflexivity|].
  simpl. split; [apply lookup_insert_eq|].
  unfold VS.init, VS.load. simpl. rewrite Hp, lookup_insert_eq. simpl.
  split; reflexivity.
Qed.

Lemma add_is_durable_witness :
  exists w' : VS.world string,
    VS.add [3; 4]%float "m" (VS.mk_world (VS.mk_store [] [] (Some "idx.pkl")) ∅)
    = Ok w' /\
    VS.fs w' !! "idx.pkl"
    = Some (VS.Pickled (VS.embeddings (VS.obj w')) (VS.metadata (VS.obj w'))) /\
    VS.load w' = Ok w' /\
    VS.init (Some "idx.pkl") (VS.fs w') = Ok w'.
Proof.
  apply (add_is_durable [3; 4]%float "m"
           (VS.mk_world (VS.mk_store [] [] (Some "idx.pkl")) ∅) "idx.pkl").
  reflexivity.
Defined.

(** X4. Whatever calls are made, a store writes and removes only the file
    at its own location: when a run returns, the location is the one the
    store had and every other file is as it was. A store without a location
    leaves the whole file system as it was. *)
Theorem run_touches_own_file_only {Meta : Type} (cs : list (VS.call Meta))
    (w w' : VS.world Meta) :
  VS.run cs w = Ok w' ->
  VS.pickle_path (VS.obj w') = VS.pickle_path (VS.obj w) /\
  (forall g, VS.truthy (VS.pickle_path (VS.obj w)) <> Some g ->
             VS.fs w' !! g = VS.fs w !! g) /\
  (VS.truthy (VS.pickle_path (VS.obj w)) = None -> VS.fs w' = VS.fs w).
Proof.
  revert w. induction cs as [|c cs IH]; intros w Hrun; simpl in Hrun.
  - inversion Hrun; subst. auto.
  - destruct (VS.run_call c w) as [w1|e] eqn:Hc; simpl in Hrun; [|discriminate].
    destruct (IH w1 Hrun) as (Hp & Hother & Hnone).
    assert (Hstep : VS.pickle_path (VS.obj w1) = VS.pickle_path (VS.obj w) /\
                    (forall g, VS.truthy (VS.pickle_path (VS.obj w)) <> Some g ->
                               VS.fs w1 !! g = VS.fs w !! g) /\
                    (VS.truthy (VS.pickle_path (VS.obj w)) = None ->
                     VS.fs w1 = VS.fs w)).
    { clear - Hc. destruct w as [[es ms p] disk].
      destruct c as [e m| | |]; simpl in Hc.
      - unfold VS.add, VS.save in Hc. simpl in Hc.
        destruct (VS.truthy p) as [f|] eqn:Hf; inversion Hc; subst; simpl;
          rewrite ?Hf; repeat split; try discriminate; try reflexivity.
        intros g Hg. apply lookup_insert_ne. congruence.
      - unfold VS.save in Hc. simpl in Hc.
        destruct (VS.truthy p) as [f|] eqn:Hf; inversion Hc; subst; simpl;
          rewrite ?Hf; repeat split; try discriminate; try reflexivity.
        intros g Hg. apply lookup_insert_ne. congruence.
      - unfold VS.load in Hc. simpl in Hc.
        destruct (VS.truthy p) as [f|] eqn:Hf.
        + destruct (disk !! f) as [file|].
          * destruct (VS.unpickle file) as [[es' ms']|e]; simpl in Hc;
              inversion Hc; subst; simpl; auto.
          * inversion Hc; subst; simpl; auto.
        + inversion Hc; subst; simpl; auto.
      - unfold VS.clear in Hc. simpl in Hc.
        destruct (VS.truthy p) as [f|] eqn:Hf.
        + destruct (decide (is_Some (disk !! f))); inversion Hc; subst; simpl;
            rewrite ?Hf; repeat split; try discriminate; try reflexivity.
          intros g Hg. apply lookup_delete_ne. congruence.
        + inversion Hc; subst; simpl; auto. }
    destruct Hstep as (Hp1 & Hother1 & Hnone1).
    rewrite Hp1 in *. split; [exact Hp|]. split.
    + intros g Hg. rewrite (Hother g Hg). now apply Hother1.
    + intros Hn. rewrite (Hnone Hn). now apply Hnone1.
Qed.

Lemma run_touches_own_file_only_witness :
  let w : VS.world string :=
    VS.mk_world (VS.mk_store [] [] (Some "a.pkl")) {[ "b.pkl" := VS.Garbage EOFError ]} in
  let w' : VS.world string :=
    VS.mk_world (VS.mk_store [[1%float]] ["a"] (Some "a.pkl"))
      (<[ "a.pkl" := VS.Pickled [[1%float]] ["a"] ]> {[ "b.pkl" := VS.Garbage EOFError ]}) in
  VS.pickle_path (VS.obj w') = VS.pickle_path (VS.obj w) /\
  (forall g, VS.truthy (VS.pickle_path (VS.obj w)) <> Some g ->
             VS.fs w' !! g = VS.fs w !! g) /\
  (VS.truthy (VS.pickle_path (VS.obj w)) = None -> VS.fs w' = VS.fs w).
Proof.
  intros w w'.
  apply (run_touches_own_file_only [VS.CallClear; VS.CallAdd [1%float] "a"] w w').
  reflexivity.
Defined.

(** ** search for every top_k *)

Lemma mapM_take {A B : Type} (f : A -> result B) (n : nat) (l : list A)
    (bs : list B) :
  mapM f l = Ok bs -> mapM f (take n l) = Ok (take n bs).
Proof.
  revert n bs. induction l as [|a l IH]; intros n bs; simpl.
  - intros E. inversion E. now rewrite !take_nil.
  - destruct (f a) as [b|e] eqn:Ea; simpl; [|discriminate].
    destruct (mapM f l) as [bs'|e] eqn:El; simpl; [|discriminate].
    intros E. inversion E; subst bs. destruct n as [|n]; simpl; [reflexivity|].
    rewrite Ea. simpl. rewrite (IH n bs' eq_refl). reflexivity.
Qed.

Lemma py_slice_from_kept {A : Type} (k : Z) (l : list A) :
  reverse (py_slice_from (- k) l) = take (kept k (length l)) (reverse l).
Proof.
  unfold py_slice_from, kept. rewrite reverse_drop. f_equal.
  destruct (k =? 0)%Z eqn:E0.
  - apply Z.eqb_eq in E0. subst k. simpl. lia.
  - apply Z.eqb_neq in E0. destruct (0 <? k)%Z eqn:E1.
    + apply Z.ltb_lt in E1.
      replace (- k <? 0)%Z with true by (symmetry; apply Z.ltb_lt; lia). lia.
    + apply Z.ltb_ge in E1.
      replace (- k <? 0)%Z with false by (symmetry; apply Z.ltb_ge; lia). lia.
Qed.

(** X5. Every result of [search] is a head of the full ranking, the result
    for top_k = 0: the first top_k pairs of it for a positive top_k, and
    for a negative top_k, which raises nothing, all but the last -top_k
    pairs. *)
Theorem search_is_head_of_ranking {Meta : Type} (st : VS.store Meta) (q : vec)
    (k : Z) (res : list (Meta * float)) :
  VS.search st q 0 = Ok res ->
  VS.search st q k = Ok (take (kept k (length res)) res) /\
  ((0 < k)%Z -> VS.search st q k = Ok (take (Z.to_nat k) res)) /\
  ((k < 0)%Z -> VS.search st q k = Ok (take (length res - Z.to_nat (- k)) res)).
Proof.
  intros Hall.
  assert (Hk : VS.search st q k = Ok (take (kept k (length res)) res)).
  { unfold VS.search in *. destruct (VS.embeddings st) as [|r rs].
    { inversion Hall. now rewrite take_nil. }
    destruct (np_array (r :: rs)) as [a|e]; simpl in *; [|discriminate].
    destruct (np_dot a (normalize q)) as [s|e]; simpl in *; [|discriminate].
    rewrite (py_slice_from_kept 0) in Hall.
    unfold kept in Hall at 1. simpl in Hall.
    rewrite take_ge in Hall by (rewrite length_reverse; lia).
    rewrite py_slice_from_kept.
    pose proof (mapM_length _ _ _ Hall) as Hlen.
    rewrite length_reverse in Hlen. rewrite Hlen.
    now apply mapM_take. }
  split; [exact Hk|]. split; intros Hsign; rewrite Hk; f_equal; unfold kept.
  - replace (k =? 0)%Z with false by (symmetry; apply Z.eqb_neq; lia).
    replace (0 <? k)%Z with true by (symmetry; apply Z.ltb_lt; lia).
    destruct (Nat.le_gt_cases (Z.to_nat k) (length res)) as [Hle|Hgt].
    + now rewrite Nat.min_l.
    + rewrite Nat.min_r by lia. rewrite !take_ge by lia. reflexivity.
  - replace (k =? 0)%Z with false by (symmetry; apply Z.eqb_neq; lia).
    replace (0 <? k)%Z with false by (symmetry; apply Z.ltb_ge; lia).
    reflexivity.
Qed.

Lemma search_is_head_of_ranking_witness :
  VS.search ranking_store [1; 0; 0]%float (-1)
  = Ok (take (kept (-1) (length [("A", 1%float); ("C", 0.9938837346736189%float);
                                 ("B", 0%float)]))
          [("A", 1%float); ("C", 0.9938837346736189%float); ("B", 0%float)]) /\
  ((0 < -1)%Z ->
   VS.search ranking_store [1; 0; 0]%float (-1)
   = Ok (take (Z.to_nat (-1))
           [("A", 1%float); ("C", 0.9938837346736189%float); ("B", 0%float)])) /\
  ((-1 < 0)%Z ->
   VS.search ranking_store [1; 0; 0]%float (-1)
   = Ok (take (length [("A", 1%float); ("C", 0.9938837346736189%float);
                       ("B", 0%float)] - Z.to_nat (- -1))
           [("A", 1%float); ("C", 0.9938837346736189%float); ("B", 0%float)])).
Proof.
  apply (search_is_head_of_ranking ranking_store [1; 0; 0]%float (-1)
           [("A", 1%float); ("C", 0.9938837346736189%float); ("B", 0%float)]).
  reflexivity.
Defined.

Lemma mapM_raise {A B : Type} (f : A -> result B) (e : exn) (l : list A) :
  (forall a, a ∈ l -> (exists b, f a = Ok b) \/ f a = Raise e) ->
  (exists a, a ∈ l /\ f a = Raise e) ->
  mapM f l = Raise e.
Proof.
  induction l as [|a l IH]; intros Hall (x & Hx & Hfx).
  - inversion Hx.
  - simpl. destruct (Hall a) as [(b & Hb)|Hr]; [left| |].
    + rewrite Hb. simpl. rewrite IH; [reflexivity| |].
      * intros a' Ha'. apply Hall. now right.
      * apply elem_of_cons in Hx as [->|Hx]; [congruence|]. eauto.
    + now rewrite Hr.
Qed.

(** X6. A store with fewer metadata records than vectors, as [load] accepts
    it from a file, cannot be searched in full: when the stored vectors have
    the query's dimension, [search] with top_k = 0 or top_k above the number
    of vectors raises IndexError. *)
Theorem search_short_metadata_raises {Meta : Type} (st : VS.store Meta)
    (q : vec) (k : Z) :
  Forall (fun r => length r = length q) (VS.embeddings st) ->
  length (VS.metadata st) < length (VS.embeddings st) ->
  (k = 0 \/ Z.of_nat (VS.size st) < k)%Z ->
  VS.search st q k = Raise IndexError.
Proof.
  intros Hd Hlen Hk. unfold VS.search.
  destruct (VS.embeddings st) as [|r rs] eqn:E; [simpl in Hlen; lia|].
  rewrite <- E in *.
  assert (Ha : np_array (VS.embeddings st) = Ok (VS.embeddings st)).
  { rewrite E in *. simpl. inversion Hd as [|? ? Hr Hrs]; subst.
    replace (forallb _ rs) with true; [reflexivity|].
    symmetry. apply forallb_forall. intros r' Hin. apply Nat.eqb_eq.
    rewrite Forall_forall in Hrs. rewrite Hr. apply Hrs.
    now apply list_elem_of_In. }
  rewrite Ha. simpl.
  assert (Hdot : np_dot (VS.embeddings st) (normalize q)
                 = Ok (similarities st q)).
  { unfold np_dot. replace (forallb _ _) with true; [reflexivity|].
    symmetry. apply forallb_forall. intros r' Hin. apply Nat.eqb_eq.
    rewrite length_normalize. rewrite Forall_forall in Hd. apply Hd.
    now apply list_elem_of_In. }
  rewrite Hdot. simpl.
  rewrite py_slice_from_all.
  2:{ rewrite argsort_perm, length_seq, length_similarities. lia. }
  apply mapM_raise.
  - intros i Hi. rewrite elem_of_reverse in Hi. apply argsort_lt in Hi.
    unfold getitem.
    destruct (VS.metadata st !! i) as [mi|]; [left|right; reflexivity].
    destruct (lookup_lt_is_Some_2 (similarities st q) i Hi) as [s Hs].
    rewrite Hs. simpl. eauto.
  - exists (length (VS.metadata st)). split.
    + rewrite elem_of_reverse, argsort_perm, length_similarities.
      apply elem_of_seq. unfold VS.size. lia.
    + unfold getitem.
      rewrite (lookup_ge_None_2 (VS.metadata st) (length (VS.metadata st)))
        by apply Nat.le_refl.
      reflexivity.
Qed.

Lemma search_short_metadata_raises_witness :
  VS.search (VS.mk_store [[1%float]] ([] : list string) (Some "idx.pkl"))
    [1%float] 0 = Raise IndexError.
Proof.
  apply (search_short_metadata_raises
           (VS.mk_store [[1%float]] ([] : list string) (Some "idx.pkl"))
           [1%float] 0%Z).
  - repeat constructor.
  - simpl. lia.
  - now left.
Defined.

(** * More of the embedding service *)

(** X7. For a positive batch size the requests of [get_batch_embeddings]
    are the texts cut in order into batches that each hold at least one and
    at most [batch_size] texts. *)
Theorem batches_are_bounded (batch_size : nat) (texts : list ES.pystr) :
  1 <= batch_size ->
  concat (ES.batches (length texts) batch_size texts) = texts /\
  Forall (fun batch => 1 <= length batch <= batch_size)
         (ES.batches (length texts) batch_size texts).
Proof.
  intros Hb. split; [now apply batches_concat|].
  generalize (Nat.le_refl (length texts)).
  generalize (length texts) at 2 3 as fuel.
  intros fuel. revert texts.
  induction fuel as [|fuel IH]; intros texts Hlen; [constructor|].
  destruct texts as [|t texts]; [constructor|].
  cbn [ES.batches]. constructor.
  - rewrite length_take. simpl length. lia.
  - apply IH. rewrite length_drop. simpl in *. lia.
Qed.

Lemma batches_are_bounded_witness :
  concat (ES.batches (length [ES.str "a"; ES.str "b"; ES.str "c"]) 2
            [ES.str "a"; ES.str "b"; ES.str "c"])
  = [ES.str "a"; ES.str "b"; ES.str "c"] /\
  Forall (fun batch => 1 <= length batch <= 2)
         (ES.batches (length [ES.str "a"; ES.str "b"; ES.str "c"]) 2
            [ES.str "a"; ES.str "b"; ES.str "c"]).
Proof.
  apply (batches_are_bounded 2 [ES.str "a"; ES.str "b"; ES.str "c"]). lia.
Defined.

Section Providers.
Variable post : list ES.pystr -> ES.response.

Lemma get_embedding_list_ok (batch : list ES.pystr) (es : list vec) :
  batch <> [] -> existsb ES.blank batch = false -> post batch = ES.Data es ->
  ES.get_embedding post (ES.Lst batch) = Ok (ES.Many es).
Proof.
  intros Hne Hb Hp. unfold ES.get_embedding.
  destruct batch as [|t batch]; [congruence|].
  cbn [length Nat.eqb orb]. rewrite Hb. simpl. now rewrite Hp.
Qed.

Lemma get_embedding_list_blank (batch : list ES.pystr) :
  existsb ES.blank batch = true ->
  ES.get_embedding post (ES.Lst batch) = Raise ES.EmptyInput.
Proof.
  intros Hb. unfold ES.get_embedding. rewrite Hb, orb_true_r. reflexivity.
Qed.

Lemma embed_batches_pointwise (f : ES.pystr -> vec) (bs : list (list ES.pystr))
    (acc : list vec) :
  (forall ts, post ts = ES.Data (map f ts)) ->
  Forall (fun batch => batch <> [] /\ existsb ES.blank batch = false) bs ->
  ES.embed_batches post bs acc = Ok (acc ++ map f (concat bs)).
Proof.
  intros Hpost Hbs. revert acc.
  induction Hbs as [|batch bs [Hne Hb] _ IH]; intros acc; simpl.
  - now rewrite app_nil_r.
  - rewrite (get_embedding_list_ok batch (map f batch) Hne Hb (Hpost batch)).
    simpl. rewrite IH, map_app, app_assoc. reflexivity.
Qed.

Lemma embed_batches_blank (bs : list (list ES.pystr)) (acc : list vec) :
  Exists (fun batch => existsb ES.blank batch = true) bs ->
  exists e, ES.embed_batches post bs acc = Raise e.
Proof.
  intros Hbs. revert acc.
  induction Hbs as [batch bs Hb|batch bs _ IH]; intros acc; simpl.
  - rewrite (get_embedding_list_blank batch Hb). simpl. eauto.
  - destruct (ES.get_embedding post (ES.Lst batch)) as [v|e]; simpl; eauto.
Qed.

Lemma existsb_concat_false {A : Type} (P : A -> bool) (ls : list (list A)) :
  existsb P (concat ls) = false -> Forall (fun l => existsb P l = false) ls.
Proof.
  induction ls as [|l ls IH]; simpl; [constructor|].
  rewrite existsb_app. intros H. apply orb_false_iff in H as [Hl Hls].
  constructor; auto.
Qed.

Lemma existsb_concat_true {A : Type} (P : A -> bool) (ls : list (list A)) :
  existsb P (concat ls) = true -> Exists (fun l => existsb P l = true) ls.
Proof.
  induction ls as [|l ls IH]; simpl; [discriminate|].
  rewrite existsb_app. intros H. apply orb_true_iff in H as [Hl|Hls].
  - now left.
  - right. auto.
Qed.

(** X8. Batching does not show in the result: when the provider answers
    every request with one vector per text, computed text by text, and no
    text is blank, [get_batch_embeddings] returns the vector of every text,
    in order, for every positive batch size. *)
Theorem batch_size_is_invisible (f : ES.pystr -> vec) (texts : list ES.pystr)
    (batch_size : Z) :
  (forall ts, post ts = ES.Data (map f ts)) ->
  texts <> [] ->
  existsb ES.blank texts = false ->
  (1 <= batch_size)%Z ->
  ES.get_batch_embeddings post texts batch_size = Ok (map f texts).
Proof.
  intros Hpost Hne Hblank Hb. unfold ES.get_batch_embeddings.
  destruct texts as [|t ts]; [congruence|]. cbv beta iota.
  set (texts := t :: ts) in *.
  replace (batch_size =? 0)%Z with false by (symmetry; apply Z.eqb_neq; lia).
  replace (batch_size <? 0)%Z with false by (symmetry; apply Z.ltb_ge; lia).
  destruct (batches_are_bounded (Z.to_nat batch_size) texts) as [Hcat Hbound];
    [lia|].
  rewrite (embed_batches_pointwise f _ [] Hpost).
  - rewrite Hcat. reflexivity.
  - rewrite <- Hcat in Hblank. apply existsb_concat_false in Hblank.
    rewrite Forall_forall in Hblank, Hbound. apply Forall_forall.
    intros batch Hin. split; [|now apply Hblank].
    specialize (Hbound batch Hin). destruct batch; simpl in Hbound; [lia|].
    discriminate.
Qed.

(** X9. One blank text spoils the whole call: for a positive batch size
    [get_batch_embeddings] raises whenever one of the texts is empty or
    whitespace only, whatever the provider answers. *)
Theorem blank_text_fails_the_batch (texts : list ES.pystr) (batch_size : Z) :
  existsb ES.blank texts = true ->
  (1 <= batch_size)%Z ->
  exists e, ES.get_batch_embeddings post texts batch_size = Raise e.
Proof.
  intros Hblank Hb. unfold ES.get_batch_embeddings.
  destruct texts as [|t ts]; [eauto|]. cbv beta iota.
  set (texts := t :: ts) in *.
  replace (batch_size =? 0)%Z with false by (symmetry; apply Z.eqb_neq; lia).
  replace (batch_size <? 0)%Z with false by (symmetry; apply Z.ltb_ge; lia).
  apply embed_batches_blank. apply existsb_concat_true.
  rewrite batches_concat; [exact Hblank|lia|lia].
Qed.

End Providers.

Lemma batch_size_is_invisible_witness :
  ES.get_batch_embeddings echo_provider [ES.str "a"; ES.str "b"; ES.str "c"] 2
  = Ok (map (fun _ => [1%float]) [ES.str "a"; ES.str "b"; ES.str "c"]).
Proof.
  apply (batch_size_is_invisible echo_provider (fun _ => [1%float])).
  - reflexivity.
  - discriminate.
  - reflexivity.
  - lia.
Defined.

Lemma blank_text_fails_the_batch_witness :
  exists e,
    ES.get_batch_embeddings echo_provider [ES.str "a"; ES.str "  "; ES.str "c"] 32
    = Raise e.
Proof.
  apply (blank_text_fails_the_batch echo_provider). - reflexivity. - lia.
Defined.

(** * The tools of server.py *)

(** ** Ignored paths *)

Lemma proper_suffix_append (stem p : string) :
  stem <> "" -> proper_suffix p (stem +:+ p) = true.
Proof.
  induction stem as [|a stem IH]; intros Hne; [congruence|].
  simpl. destruct stem as [|b stem].
  - simpl. now rewrite String.eqb_refl.
  - rewrite IH by discriminate. apply orb_true_r.
Qed.

(** X10. The ignore list is matched against whole path components only: a
    name made of a non-empty stem followed by one of the patterns, such as
    [module.pyc] or [logo.png], is not ignored. *)
Theorem patterns_match_whole_components (stem p : string) :
  stem <> "" ->
  In p SV.ignore_patterns ->
  SV._should_ignore [stem +:+ p] = false.
Proof.
  intros Hne Hp.
  change (SV._should_ignore [stem +:+ p])
    with (existsb (String.eqb (stem +:+ p)) SV.ignore_patterns || false).
  rewrite orb_false_r.
  destruct (existsb (String.eqb (stem +:+ p)) SV.ignore_patterns) eqn:E;
    [|reflexivity].
  exfalso. apply existsb_exists in E as (q & Hq & Heq).
  apply String.eqb_eq in Heq.
  pose proof (proper_suffix_append stem p Hne) as Hsuf. rewrite Heq in Hsuf.
  assert (Hall : forallb (fun p' => forallb (fun q' => negb (proper_suffix p' q'))
                                      SV.ignore_patterns)
                   SV.ignore_patterns = true) by reflexivity.
  rewrite forallb_forall in Hall. specialize (Hall p Hp).
  rewrite forallb_forall in Hall. specialize (Hall q Hq).
  rewrite Hsuf in Hall. discriminate Hall.
Qed.

Lemma patterns_match_whole_components_witness :
  SV._should_ignore ["module" +:+ ".pyc"] = false.
Proof.
  apply (patterns_match_whole_components "module" ".pyc").
  - discriminate.
  - unfold SV.ignore_patterns. simpl. tauto.
Defined.

Example test_should_ignore :
  (SV._should_ignore [".git"; "config"],
   SV._should_ignore ["node_modules"; "package.json"],
   SV._should_ignore ["venv"; "lib"; "python3.8"],
   SV._should_ignore ["src"; "main.py"],
   SV._should_ignore ["README.md"])
  = (true, true, true, false, false).
Proof. reflexivity. Qed.

Example test_guess_language :
  (SV._guess_language ".py", SV._guess_language ".js",
   SV._guess_language ".css", SV._guess_language ".xyz")
  = ("python", "javascript", "css", "").
Proof. reflexivity. Qed.

(** ** update_index *)

Lemma bind_Ok_inv {A B : Type} (r : result A) (k : A -> result B) (b : B) :
  r ≫= k = Ok b -> exists a, r = Ok a /\ k a = Ok b.
Proof. destruct r as [a|e]; simpl; [eauto|discriminate]. Qed.

Lemma init_world {Meta : Type} (p : option string)
    (disk : gmap string (VS.file Meta)) (w : VS.world Meta) :
  VS.init p disk = Ok w -> VS.fs w = disk /\ VS.pickle_path (VS.obj w) = p.
Proof.
  unfold VS.init, VS.load. simpl.
  destruct (VS.truthy p) as [f|]; [|intros E; now inversion E].
  destruct (decide (is_Some (disk !! f))); [|intros E; now inversion E].
  destruct (disk !! f) as [file|]; [|intros E; now inversion E].
  destruct (VS.unpickle file) as [[es ms]|e]; simpl; intros E; now inversion E.
Qed.

Lemma add_step {Meta : Type} (e : vec) (m : Meta) (w : VS.world Meta) (f : string) :
  VS.truthy (VS.pickle_path (VS.obj w)) = Some f ->
  exists w1,
    VS.add e m w = Ok w1 /\
    VS.embeddings (VS.obj w1) = VS.embeddings (VS.obj w) ++ [normalize e] /\
    VS.metadata (VS.obj w1) = VS.metadata (VS.obj w) ++ [m] /\
    VS.pickle_path (VS.obj w1) = VS.pickle_path (VS.obj w) /\
    VS.init (VS.pickle_path (VS.obj w)) (VS.fs w1) = Ok w1 /\
    (forall g, g <> f -> VS.fs w1 !! g = VS.fs w !! g).
Proof.
  intros Hp. destruct w as [[es ms p] disk]. simpl in Hp.
  unfold VS.add, VS.save. simpl. rewrite Hp. eexists. split; [reflexivity|].
  simpl. repeat split.
  - unfold VS.init, VS.load. simpl. rewrite Hp, lookup_insert_eq. reflexivity.
  - intros g Hg. now apply lookup_insert_ne.
Qed.

Lemma add_all_effect (pairs : list (vec * SV.meta)) (w : VS.world SV.meta)
    (f : string) :
  VS.truthy (VS.pickle_path (VS.obj w)) = Some f ->
  VS.init (VS.pickle_path (VS.obj w)) (VS.fs w) = Ok w ->
  exists w',
    SV.add_all pairs w = Ok w' /\
    VS.embeddings (VS.obj w')
    = VS.embeddings (VS.obj w) ++ map (fun p => normalize (fst p)) pairs /\
    VS.metadata (VS.obj w') = VS.metadata (VS.obj w) ++ map snd pairs /\
    VS.pickle_path (VS.obj w') = VS.pickle_path (VS.obj w) /\
    VS.init (VS.pickle_path (VS.obj w)) (VS.fs w') = Ok w' /\
    (forall g, g <> f -> VS.fs w' !! g = VS.fs w !! g).
Proof.
  revert w. induction pairs as [|[e m] pairs IH]; intros w Hp Hinit.
  - exists w. simpl. rewrite !app_nil_r. repeat split; auto.
  - destruct (add_step e m w f Hp) as (w1 & Hadd & He & Hm & Hpath & Hre & Hfr).
    destruct (IH w1) as (w' & Hall & He' & Hm' & Hpath' & Hre' & Hfr').
    { now rewrite Hpath. }
    { now rewrite Hpath. }
    exists w'. simpl. rewrite Hadd. simpl. split; [exact Hall|].
    rewrite He', Hm', He, Hm, <- !app_assoc. simpl.
    rewrite Hpath in Hpath', Hre'. repeat split; try assumption.
    intros g Hg. rewrite (Hfr' g Hg). now apply Hfr.
Qed.

Lemma map_fst_zip {A B C : Type} (h : A -> C) (l : list A) (k : list B) :
  map (fun p => h (fst p)) (zip l k) = map h (take (length k) l).
Proof.
  revert k. induction l as [|a l IH]; intros [|b k]; simpl; try reflexivity.
  now rewrite IH.
Qed.

Lemma map_snd_zip {A B : Type} (l : list A) (k : list B) :
  map snd (zip l k) = take (length l) k.
Proof.
  revert k. induction l as [|a l IH]; intros [|b k]; simpl; try reflexivity.
  now rewrite IH.
Qed.

Section Indexing.
Variable post : list ES.pystr -> ES.response.
Variable index_path : string -> string.

(** What a successful embedding call makes [update_index] do. *)
Lemma update_index_effect (r : string) (listing : list SV.dir_entry)
    (disk : gmap string (VS.file SV.meta)) (w0 : VS.world SV.meta)
    (es : list vec) :
  index_path r <> "" ->
  VS.init (Some (index_path r)) disk = Ok w0 ->
  SV.scan r listing <> [] ->
  ES.get_batch_embeddings post (map ES.str (map fst (SV.scan r listing))) 32
  = Ok es ->
  exists disk' w',
    SV.update_index post index_path true (Some r) listing disk
    = Ok (SV.Indexed (length (SV.scan r listing)), disk') /\
    VS.init (Some (index_path r)) disk' = Ok w' /\
    VS.embeddings (VS.obj w')
    = VS.embeddings (VS.obj w0)
      ++ map normalize (take (length (SV.scan r listing)) es) /\
    VS.metadata (VS.obj w')
    = VS.metadata (VS.obj w0) ++ take (length es) (map snd (SV.scan r listing)) /\
    (forall g, g <> index_path r -> disk' !! g = disk !! g).
Proof.
  intros Hpf Hinit Hscan Hemb.
  destruct (init_world _ _ _ Hinit) as [Hfs Hpath].
  assert (Htr : VS.truthy (VS.pickle_path (VS.obj w0)) = Some (index_path r)).
  { rewrite Hpath. simpl. destruct (String.eqb_spec (index_path r) "");
      [contradiction|reflexivity]. }
  unfold SV.update_index. simpl. rewrite Hinit. simpl.
  destruct (SV.scan r listing) as [|cm items]; [congruence|].
  destruct (add_all_effect (zip es (map snd (cm :: items))) w0 _ Htr)
    as (w' & Hall & He & Hm & _ & Hre & Hfr).
  { now rewrite Hpath, Hfs. }
  exists (VS.fs w'), w'.
  cbn [map] in Hemb |- *. rewrite Hemb. simpl. cbn [map] in Hall.
  rewrite Hall. simpl. split; [reflexivity|].
  rewrite Hpath in Hre. split; [exact Hre|].
  rewrite He, Hm, map_fst_zip, map_snd_zip, length_map.
  split; [reflexivity|]. split; [reflexivity|].
  intros g Hg. rewrite (Hfr g Hg). now rewrite Hfs.
Qed.

(** X11. The report counts what was scanned, not what was stored: after a
    successful embedding call [update_index] reports every kept file as
    indexed, while the index gains one entry per returned vector and file,
    so only as many as the shorter of the two lists, in scan order. Every
    other file of the file system is left as it was. *)
Theorem update_index_reports_scanned_files (r : string)
    (listing : list SV.dir_entry) (disk : gmap string (VS.file SV.meta))
    (w0 : VS.world SV.meta) (es : list vec) :
  index_path r <> "" ->
  VS.init (Some (index_path r)) disk = Ok w0 ->
  SV.scan r listing <> [] ->
  ES.get_batch_embeddings post (map ES.str (map fst (SV.scan r listing))) 32
  = Ok es ->
  exists disk' w',
    SV.update_index post index_path true (Some r) listing disk
    = Ok (SV.Indexed (length (SV.scan r listing)), disk') /\
    VS.init (Some (index_path r)) disk' = Ok w' /\
    VS.size (VS.obj w')
    = VS.size (VS.obj w0) + Nat.min (length es) (length (SV.scan r listing)) /\
    VS.metadata (VS.obj w')
    = VS.metadata (VS.obj w0) ++ take (length es) (map snd (SV.scan r listing)) /\
    (forall g, g <> index_path r -> disk' !! g = disk !! g).
Proof.
  intros Hpf Hinit Hscan Hemb.
  destruct (update_index_effect r listing disk w0 es Hpf Hinit Hscan Hemb)
    as (disk' & w' & Hrun & Hre & He & Hm & Hfr).
  exists disk', w'. repeat split; try assumption.
  unfold VS.size. rewrite He, length_app, length_map, length_take. lia.
Qed.

(** X12. [update_index] answers "No files to index" exactly when it could
    open the index and the scan kept no file; it then writes and removes no
    file, whatever the provider would answer: every regular file is as it
    was, and the directory made for the index is the one thing the call may
    have added to the file system. *)
Theorem update_index_nothing_to_index (r : string) (listing : list SV.dir_entry)
    (disk disk' : gmap string (VS.file SV.meta)) :
  SV.update_index post index_path true (Some r) listing disk
  = Ok (SV.NothingToIndex, disk')
  <-> (exists w0, VS.init (Some (index_path r)) disk = Ok w0) /\
      SV.scan r listing = [] /\ disk' = disk.
Proof.
  unfold SV.update_index. simpl. split.
  - destruct (VS.init (Some (index_path r)) disk) as [w0|e] eqn:Hinit;
      simpl; [|discriminate].
    destruct (init_world _ _ _ Hinit) as [Hfs _].
    destruct (SV.scan r listing) as [|cm items]; simpl.
    + intros E. inversion E. subst. eauto.
    + intros E. apply bind_Ok_inv in E as (embeddings & _ & E).
      apply bind_Ok_inv in E as (w' & _ & E). discriminate E.
  - intros ((w0 & Hinit) & Hscan & ->). rewrite Hinit, Hscan. simpl.
    destruct (init_world _ _ _ Hinit) as [-> _]. reflexivity.
Qed.

(** X13. One blank file stops the indexing of a repository: when a kept
    file is empty or whitespace only, such as an empty [__init__.py],
    [update_index] raises, whatever the provider answers. *)
Theorem update_index_blank_file_aborts (r : string) (listing : list SV.dir_entry)
    (disk : gmap string (VS.file SV.meta)) (content : string) (m : SV.meta) :
  (content, m) ∈ SV.scan r listing ->
  ES.blank (ES.str content) = true ->
  exists e, SV.update_index post index_path true (Some r) listing disk = Raise e.
Proof.
  intros Hin Hblank. unfold SV.update_index. simpl.
  destruct (VS.init (Some (index_path r)) disk) as [w0|e]; simpl; [|eauto].
  destruct (SV.scan r listing) as [|cm items] eqn:Es; [inversion Hin|].
  rewrite <- Es in *. clear Es.
  assert (Hb : existsb ES.blank (map ES.str (map fst (SV.scan r listing))) = true).
  { apply existsb_exists. exists (ES.str content). split; [|exact Hblank].
    apply in_map, in_map_iff. exists (content, m). split; [reflexivity|].
    now apply list_elem_of_In. }
  assert (Hraise : exists e,
            ES.get_batch_embeddings post
              (map ES.str (map fst (SV.scan r listing))) 32 = Raise e).
  { unfold ES.get_batch_embeddings.
    destruct (map ES.str (map fst (SV.scan r listing))) as [|t ts] eqn:Et;
      [eauto|].
    rewrite <- Et in *. simpl Z.eqb. simpl Z.ltb. cbv beta iota.
    apply embed_batches_blank, existsb_concat_true.
    rewrite batches_concat; [exact Hb|simpl; lia|lia]. }
  destruct Hraise as [e He].
  destruct (map fst (SV.scan r listing)) as [|c cs] eqn:Ec.
  - destruct (SV.scan r listing); [inversion Hin|discriminate Ec].
  - rewrite He. simpl. eauto.
Qed.

(** X14. Indexing the same files again appends them again: when the
    provider returns one vector per file, a second [update_index] leaves an
    index that holds the metadata of every kept file twice, after whatever
    the index held before. *)
Theorem reindexing_appends_duplicates (r : string) (listing : list SV.dir_entry)
    (disk : gmap string (VS.file SV.meta)) (w0 : VS.world SV.meta)
    (es : list vec) :
  index_path r <> "" ->
  VS.init (Some (index_path r)) disk = Ok w0 ->
  SV.scan r listing <> [] ->
  ES.get_batch_embeddings post (map ES.str (map fst (SV.scan r listing))) 32
  = Ok es ->
  length es = length (SV.scan r listing) ->
  exists disk1 disk2 w2,
    SV.update_index post index_path true (Some r) listing disk
    = Ok (SV.Indexed (length (SV.scan r listing)), disk1) /\
    SV.update_index post index_path true (Some r) listing disk1
    = Ok (SV.Indexed (length (SV.scan r listing)), disk2) /\
    VS.init (Some (index_path r)) disk2 = Ok w2 /\
    VS.metadata (VS.obj w2)
    = VS.metadata (VS.obj w0) ++ map snd (SV.scan r listing)
                              ++ map snd (SV.scan r listing) /\
    VS.size (VS.obj w2) = VS.size (VS.obj w0) + 2 * length (SV.scan r listing).
Proof.
  intros Hpf Hinit Hscan Hemb Hlen.
  destruct (update_index_effect r listing disk w0 es Hpf Hinit Hscan Hemb)
    as (disk1 & w1 & Hrun1 & Hre1 & He1 & Hm1 & _).
  destruct (update_index_effect r listing disk1 w1 es Hpf Hre1 Hscan Hemb)
    as (disk2 & w2 & Hrun2 & Hre2 & He2 & Hm2 & _).
  exists disk1, disk2, w2. repeat split; try assumption.
  - rewrite Hm2, Hm1, <- app_assoc.
    rewrite take_ge by (rewrite length_map; lia). reflexivity.
  - unfold VS.size. rewrite He2, He1, !length_app, !length_map, !length_take. lia.
Qed.

End Indexing.

Lemma update_index_reports_scanned_files_witness :
  exists disk' w',
    SV.update_index echo_provider sample_index_path true (Some "o/r")
      sample_listing ∅
    = Ok (SV.Indexed (length (SV.scan "o/r" sample_listing)), disk') /\
    VS.init (Some (sample_index_path "o/r")) disk' = Ok w' /\
    VS.size (VS.obj w')
    = VS.size (VS.obj fresh_index)
      + Nat.min (length [[1%float]]) (length (SV.scan "o/r" sample_listing)) /\
    VS.metadata (VS.obj w')
    = VS.metadata (VS.obj fresh_index)
      ++ take (length [[1%float]]) (map snd (SV.scan "o/r" sample_listing)) /\
    (forall g, g <> sample_index_path "o/r" ->
               disk' !! g = (∅ : gmap string (VS.file SV.meta)) !! g).
Proof.
  apply (update_index_reports_scanned_files echo_provider sample_index_path
           "o/r" sample_listing ∅ fresh_index [[1%float]]).
  - discriminate.
  - reflexivity.
  - discriminate.
  - reflexivity.
Defined.

Lemma update_index_blank_file_aborts_witness :
  exists e,
    SV.update_index echo_provider sample_index_path true (Some "o/r")
      blank_listing ∅ = Raise e.
Proof.
  apply (update_index_blank_file_aborts echo_provider sample_index_path "o/r"
           blank_listing ∅ ""
           (list_to_map [("file", "__init__.py"); ("repo", "o/r"); ("code", "");
                         ("language", "python")])).
  - right. left.
  - reflexivity.
Defined.

Lemma reindexing_appends_duplicates_witness :
  exists disk1 disk2 w2,
    SV.update_index echo_provider sample_index_path true (Some "o/r")
      sample_listing ∅
    = Ok (SV.Indexed (length (SV.scan "o/r" sample_listing)), disk1) /\
    SV.update_index echo_provider sample_index_path true (Some "o/r")
      sample_listing disk1
    = Ok (SV.Indexed (length (SV.scan "o/r" sample_listing)), disk2) /\
    VS.init (Some (sample_index_path "o/r")) disk2 = Ok w2 /\
    VS.metadata (VS.obj w2)
    = VS.metadata (VS.obj fresh_index)
      ++ map snd (SV.scan "o/r" sample_listing)
      ++ map snd (SV.scan "o/r" sample_listing) /\
    VS.size (VS.obj w2)
    = VS.size (VS.obj fresh_index)
      + 2 * length (SV.scan "o/r" sample_listing).
Proof.
  apply (reindexing_appends_duplicates echo_provider sample_index_path "o/r"
           sample_listing ∅ fresh_index [[1%float]]).
  - discriminate.
  - reflexivity.
  - discriminate.
  - reflexivity.
  - reflexivity.
Defined.

(** ** get_file *)

Lemma find_file_skips (file_path repository : string) (pre rest : list SV.meta) :
  Forall (fun d => exists f, d !! "file" = Some f /\ f <> file_path) pre ->
  SV.find_file file_path repository (pre ++ rest)
  = SV.find_file file_path repository rest.
Proof.
  induction 1 as [|d pre (f & Hf & Hne) _ IH]; simpl; [reflexivity|].
  unfold SV.getkey. rewrite Hf. simpl.
  destruct (String.eqb_spec f file_path); [contradiction|exact IH].
Qed.

Section GetFile.
Variable index_path : string -> string.

Lemma get_file_opens (file_path repository : string)
    (disk : gmap string (VS.file SV.meta)) (es : list vec) (ms : list SV.meta) :
  index_path repository <> "" ->
  disk !! index_path repository = Some (VS.Pickled es ms) ->
  SV.get_file index_path file_path repository disk
  = SV.find_file file_path repository ms.
Proof.
  intros Hpf Hdisk. unfold SV.get_file. simpl.
  destruct (decide (is_Some (disk !! index_path repository))) as [_|Hn].
  - rewrite (init_loads (Some (index_path repository)) (index_path repository)
               disk es ms); [reflexivity| |exact Hdisk].
    simpl. destruct (String.eqb_spec (index_path repository) "");
      [contradiction|reflexivity].
  - exfalso. apply Hn. rewrite Hdisk. eauto.
Qed.

(** X15. [get_file] answers with the first entry of the index for the path:
    when the records before it carry other paths, the record that was added
    first wins, whatever records for the same path come after it (so after
    a second indexing it is still the older record that is shown). *)
Theorem get_file_first_entry_wins (file_path repository : string)
    (disk : gmap string (VS.file SV.meta)) (es : list vec)
    (pre rest : list SV.meta) (m : SV.meta) :
  index_path repository <> "" ->
  disk !! index_path repository = Some (VS.Pickled es (pre ++ m :: rest)) ->
  Forall (fun d => exists f, d !! "file" = Some f /\ f <> file_path) pre ->
  m !! "file" = Some file_path ->
  SV.get_file index_path file_path repository disk = SV.file_text m.
Proof.
  intros Hpf Hdisk Hpre Hm.
  rewrite (get_file_opens _ _ _ es (pre ++ m :: rest) Hpf Hdisk).
  rewrite find_file_skips by exact Hpre. simpl.
  unfold SV.getkey at 1. rewrite Hm. simpl.
  now rewrite String.eqb_refl.
Qed.

(** X16. When no record of the index carries the path, [get_file] answers
    that the file was not found; and a record without a "file" key that is
    reached before a match makes it raise KeyError, also when a later
    record would match. *)
Theorem get_file_without_match (file_path repository : string)
    (disk : gmap string (VS.file SV.meta)) (es : list vec)
    (pre rest : list SV.meta) (m : SV.meta) :
  index_path repository <> "" ->
  Forall (fun d => exists f, d !! "file" = Some f /\ f <> file_path) pre ->
  (disk !! index_path repository = Some (VS.Pickled es pre) ->
   SV.get_file index_path file_path repository disk
   = Ok ("File " +:+ file_path +:+ " not found in repository "
         +:+ repository +:+ ".")) /\
  (disk !! index_path repository = Some (VS.Pickled es (pre ++ m :: rest)) ->
   m !! "file" = None ->
   SV.get_file index_path file_path repository disk = Raise KeyError).
Proof.
  intros Hpf Hpre. split.
  - intros Hdisk. rewrite (get_file_opens _ _ _ es pre Hpf Hdisk).
    rewrite <- (app_nil_r pre). rewrite find_file_skips by exact Hpre.
    reflexivity.
  - intros Hdisk Hm.
    rewrite (get_file_opens _ _ _ es (pre ++ m :: rest) Hpf Hdisk).
    rewrite find_file_skips by exact Hpre. simpl.
    unfold SV.getkey. rewrite Hm. reflexivity.
Qed.

End GetFile.

Lemma get_file_first_entry_wins_witness :
  SV.get_file sample_index_path "a.py" "o/r"
    {[ sample_index_path "o/r" := VS.Pickled [] ([] ++ two_records) ]}
  = SV.file_text old_record.
Proof.
  apply (get_file_first_entry_wins sample_index_path "a.py" "o/r"
           {[ sample_index_path "o/r" := VS.Pickled [] ([] ++ two_records) ]}
           [] [] [new_record] old_record).
  - discriminate.
  - reflexivity.
  - constructor.
  - reflexivity.
Defined.

Lemma get_file_without_match_witness :
  SV.get_file sample_index_path "b.py" "o/r"
    {[ sample_index_path "o/r" := VS.Pickled [] two_records ]}
  = Ok ("File " +:+ "b.py" +:+ " not found in repository " +:+ "o/r" +:+ ".").
Proof.
  refine (proj1 (get_file_without_match sample_index_path "b.py" "o/r"
                   {[ sample_index_path "o/r" := VS.Pickled [] two_records ]}
                   [] two_records [] old_record _ _) _).
  - discriminate.
  - repeat constructor; exists "a.py"; (split; [reflexivity|discriminate]).
  - reflexivity.
Defined.

(** ** Indexing, then asking for a file *)

Lemma scan_meta (r : string) (listing : list SV.dir_entry) (c : string)
    (m : SV.meta) :
  (c, m) ∈ SV.scan r listing ->
  exists path lang,
    m = list_to_map [("file", path); ("repo", r); ("code", c); ("language", lang)].
Proof.
  induction listing as [|entry listing IH]; simpl; [intros H; inversion H|].
  destruct (SV.is_file entry && negb (SV._should_ignore (SV.parts entry)));
    [|exact IH].
  destruct (SV.read_text entry) as [content|]; [|exact IH].
  intros H. apply elem_of_cons in H as [H|H]; [|now apply IH].
  inversion H; subst. eauto.
Qed.

Lemma init_nonempty {Meta : Type} (f : string)
    (disk : gmap string (VS.file Meta)) (w : VS.world Meta) :
  VS.init (Some f) disk = Ok w ->
  VS.metadata (VS.obj w) <> [] ->
  disk !! f = Some (VS.Pickled (VS.embeddings (VS.obj w)) (VS.metadata (VS.obj w))).
Proof.
  unfold VS.init, VS.load. simpl.
  destruct (f =? "")%string; [intros E; inversion E; subst; simpl; congruence|].
  destruct (decide (is_Some (disk !! f)));
    [|intros E; inversion E; subst; simpl; congruence].
  destruct (disk !! f) as [file|];
    [|intros E; inversion E; subst; simpl; congruence].
  destruct file as [es ms| |]; simpl; intros E; inversion E; subst.
  reflexivity.
Qed.

(** X17. A file that was indexed is found: on a repository without an index
    yet, when the provider returns at least one vector per kept file, after
    [update_index] the tool [get_file] answers, for the path of a kept file
    that no earlier kept file shares, with that file's path, repository and
    language tag and with the content that was read. *)
Theorem indexed_file_is_found (post : list ES.pystr -> ES.response)
    (index_path : string -> string) (r : string) (listing : list SV.dir_entry)
    (disk : gmap string (VS.file SV.meta)) (es : list vec)
    (pre rest : list (string * SV.meta)) (c : string) (m : SV.meta) :
  index_path r <> "" ->
  disk !! index_path r = None ->
  SV.scan r listing = pre ++ (c, m) :: rest ->
  Forall (fun cm => snd cm !! "file" <> m !! "file") pre ->
  ES.get_batch_embeddings post (map ES.str (map fst (SV.scan r listing))) 32
  = Ok es ->
  length (SV.scan r listing) <= length es ->
  exists disk' path lang,
    SV.update_index post index_path true (Some r) listing disk
    = Ok (SV.Indexed (length (SV.scan r listing)), disk') /\
    m !! "file" = Some path /\
    SV.get_file index_path path r disk'
    = Ok ("File: " +:+ path +:+ SV.nl +:+ "Repository: " +:+ r +:+ SV.nl
          +:+ "Code:" +:+ SV.nl +:+ "```" +:+ lang +:+ SV.nl +:+ c +:+ SV.nl
          +:+ "```").
Proof.
  intros Hpf Hnone Hscan Hpre Hemb Hlen.
  assert (Hinit : VS.init (Some (index_path r)) disk
                  = Ok (VS.mk_world (VS.mk_store [] [] (Some (index_path r))) disk)).
  { unfold VS.init. simpl.
    destruct (String.eqb_spec (index_path r) ""); [contradiction|].
    case_decide as Hs; [|reflexivity]. rewrite Hnone in Hs. now destruct Hs. }
  assert (Hne : SV.scan r listing <> []).
  { rewrite Hscan. now destruct pre. }
  destruct (update_index_effect post index_path r listing disk _ es
              Hpf Hinit Hne Hemb) as (disk' & w' & Hrun & Hre & _ & Hm & _).
  simpl in Hm. rewrite take_ge in Hm by (rewrite length_map; lia).
  assert (Hin : (c, m) ∈ SV.scan r listing).
  { rewrite Hscan. apply elem_of_app. right. left. }
  destruct (scan_meta r listing c m Hin) as (path & lang & Hmeta).
  assert (Hfile : m !! "file" = Some path) by (subst m; reflexivity).
  exists disk', path, lang. split; [exact Hrun|]. split; [exact Hfile|].
  assert (Hdisk : disk' !! index_path r
                  = Some (VS.Pickled (VS.embeddings (VS.obj w'))
                            (map snd pre ++ m :: map snd rest))).
  { rewrite (init_nonempty _ _ _ Hre); rewrite Hm, Hscan, map_app; simpl.
    - reflexivity.
    - now destruct (map snd pre). }
  rewrite (get_file_opens index_path path r disk' _ _ Hpf Hdisk).
  rewrite find_file_skips.
  - simpl. unfold SV.getkey at 1. rewrite Hfile. simpl.
    rewrite String.eqb_refl. subst m. reflexivity.
  - apply Forall_forall. intros d Hd.
    apply list_elem_of_fmap in Hd as ([c' m'] & -> & Hcm).
    assert (Hin' : (c', m') ∈ SV.scan r listing).
    { rewrite Hscan. apply elem_of_app. now left. }
    destruct (scan_meta r listing c' m' Hin') as (path' & lang' & Hmeta').
    exists path'. split; [subst m'; reflexivity|].
    rewrite Forall_forall in Hpre. specialize (Hpre _ Hcm). simpl in Hpre.
    rewrite Hfile in Hpre. intros ->. apply Hpre. subst m'. reflexivity.
Qed.

Lemma indexed_file_is_found_witness :
  exists disk' path lang,
    SV.update_index echo_provider sample_index_path true (Some "o/r")
      sample_listing ∅
    = Ok (SV.Indexed (length (SV.scan "o/r" sample_listing)), disk') /\
    (list_to_map [("file", "a.py"); ("repo", "o/r"); ("code", "def f(): pass");
                  ("language", "python")] : SV.meta) !! "file" = Some path /\
    SV.get_file sample_index_path path "o/r" disk'
    = Ok ("File: " +:+ path +:+ SV.nl +:+ "Repository: " +:+ "o/r" +:+ SV.nl
          +:+ "Code:" +:+ SV.nl +:+ "```" +:+ lang +:+ SV.nl
          +:+ "def f(): pass" +:+ SV.nl +:+ "```").
Proof.
  apply (indexed_file_is_found echo_provider sample_index_path "o/r"
           sample_listing ∅ [[1%float]] [] []).
  - discriminate.
  - reflexivity.
  - reflexivity.
  - constructor.
  - reflexivity.
  - simpl. lia.
Defined.

(** * NaN in a search *)

Lemma is_nan_true (x : float) : is_nan x = true -> Prim2SF x = S754_nan.
Proof.
  intros Hx. destruct (Prim2SF x) eqn:E; try reflexivity;
    assert (Hf : is_nan x = false) by (apply is_nan_false; rewrite E; discriminate);
    congruence.
Qed.

Lemma ltb_nan_l (x y : float) : is_nan x = true -> (x <? y)%float = false.
Proof.
  intros Hx. rewrite FloatAxioms.ltb_spec, (is_nan_true x Hx). reflexivity.
Qed.

Lemma nan_mul (x : float) : (nan * x)%float = nan.
Proof.
  apply Prim2SF_inj. rewrite mul_spec. reflexivity.
Qed.

Lemma nan_add (x : float) : (nan + x)%float = nan.
Proof.
  apply Prim2SF_inj. rewrite add_spec. reflexivity.
Qed.

Lemma fold_add_nan (l : vec) : fold_left PrimFloat.add l nan = nan.
Proof.
  induction l as [|x l IH]; simpl; [reflexivity|]. now rewrite nan_add.
Qed.

Lemma dot_nan_vector (v q : vec) :
  v <> [] -> length v = length q -> dot (map (fun _ => nan) v) q = nan.
Proof.
  intros Hv Hlen. destruct v as [|x v]; [congruence|].
  destruct q as [|y q]; [discriminate Hlen|].
  unfold dot. simpl. rewrite nan_mul.
  change (0 + nan)%float with nan. apply fold_add_nan.
Qed.

Lemma insert_by_nans_last (x : float * nat) (l : list (float * nat)) :
  nans_last l -> nans_last (insert_by x l).
Proof.
  induction l as [|y l IH]; intros Hl; simpl.
  - split; [constructor|exact I].
  - destruct Hl as [Hy Hl].
    destruct (np_lt (fst y) (fst x)) eqn:E.
    + split; [|now apply IH]. intros Hny.
      unfold np_lt in E. rewrite (ltb_nan_l _ _ Hny), Hny in E.
      rewrite andb_false_r in E. discriminate E.
    + split; [|split; assumption]. intros Hnx.
      unfold np_lt in E. rewrite Hnx in E. simpl in E.
      apply orb_false_iff in E as [_ E]. apply negb_false_iff in E.
      constructor; [exact E|now apply Hy].
Qed.

Lemma sort_keyed_nans_last (l : list (float * nat)) : nans_last (sort_keyed l).
Proof.
  induction l as [|x l IH]; simpl; [exact I|].
  now apply insert_by_nans_last.
Qed.

Lemma nans_last_end (l : list (float * nat)) :
  nans_last l ->
  (exists x, x ∈ l /\ is_nan (fst x) = true) ->
  exists l0 z, l = l0 ++ [z] /\ is_nan (fst z) = true.
Proof.
  induction l as [|y l IH]; intros Hl (x & Hx & Hn); [inversion Hx|].
  destruct Hl as [Hy Hl]. destruct l as [|y' l].
  - apply list_elem_of_singleton in Hx. subst x. exists [], y. auto.
  - assert (Hin : exists x', x' ∈ y' :: l /\ is_nan (fst x') = true).
    { apply elem_of_cons in Hx as [Heq|Hx]; [|eauto].
      subst x. specialize (Hy Hn). inversion Hy as [|? ? Hy' _]; subst.
      exists y'. split; [left|exact Hy']. }
    destruct (IH Hl Hin) as (l0 & z & El & Hz).
    exists (y :: l0), z. rewrite El. auto.
Qed.

(** X18. The entry of a zero vector comes out on top. Once a zero vector
    of positive length has been stored (C1: [add] stores it as NaN), every
    search with a query of that dimension and top_k >= 1 succeeds and its
    first pair has the score NaN: numpy sorts NaN after every number, and
    the slice takes from the end. *)
Theorem zero_vector_entry_ranks_first {Meta : Type} (st : VS.store Meta)
    (q : vec) (k : Z) (j : nat) (v : vec) :
  shaped st q ->
  VS.embeddings st !! j = Some (normalize v) ->
  zero_vector v ->
  v <> [] ->
  (1 <= k)%Z ->
  exists m s rest,
    VS.search st q k = Ok ((m, s) :: rest) /\ is_nan s = true.
Proof.
  intros Hs Hj Hz Hv Hk.
  assert (Hsim : similarities st q !! j = Some nan).
  { unfold similarities. rewrite list_lookup_fmap, Hj. simpl. f_equal.
    rewrite (normalize_zero_vector v Hz). apply dot_nan_vector; [exact Hv|].
    destruct Hs as [_ Hd]. rewrite Forall_forall in Hd.
    rewrite length_normalize, <- (length_normalize v).
    apply Hd. eapply list_elem_of_lookup_2. exact Hj. }
  assert (Hin : (nan, j) ∈ ranked st q).
  { unfold ranked. rewrite sort_keyed_perm.
    apply list_elem_of_lookup. exists j.
    rewrite lookup_zip_with, Hsim. simpl.
    rewrite lookup_seq_lt; [reflexivity|].
    apply lookup_lt_Some in Hsim. exact Hsim. }
  destruct (nans_last_end (ranked st q)) as (l0 & z & El & Hnan).
  { apply sort_keyed_nans_last. }
  { exists (nan, j). split; [exact Hin|reflexivity]. }
  destruct (search_shaped st q k Hs) as (res & Hres & _).
  pose proof (search_scores st q k res Hs Hres) as Hsc.
  destruct (py_slice_from_drop (- k) (ranked st q)) as (m & Em & Hm).
  rewrite Em, El in Hsc. rewrite El, length_app in Hm. simpl in Hm.
  replace (- k <? 0)%Z with true in Hm by (symmetry; apply Z.ltb_lt; lia).
  rewrite drop_app_le in Hsc by lia.
  rewrite fmap_app, reverse_app in Hsc. simpl in Hsc.
  destruct res as [|[m0 s0] rest]; [discriminate Hsc|].
  simpl in Hsc. inversion Hsc; subst s0.
  exists m0, (fst z), rest. split; [exact Hres|exact Hnan].
Qed.

Lemma zero_vector_entry_ranks_first_witness :
  exists m s rest,
    VS.search (VS.mk_store [normalize [0; 0; 0]; normalize [1; 0; 0]]%float
                 ["Z"; "A"] None) [1; 0; 0]%float 1
    = Ok ((m, s) :: rest) /\ is_nan s = true.
Proof.
  apply (zero_vector_entry_ranks_first
           (VS.mk_store [normalize [0; 0; 0]; normalize [1; 0; 0]]%float
              ["Z"; "A"] None) [1; 0; 0]%float 1%Z 0 [0; 0; 0]%float).
  - split; [reflexivity|]. repeat constructor.
  - reflexivity.
  - repeat constructor.
  - discriminate.
  - lia.
Defined.
